(** * Floating Sandbox simulation core: a shallow embedding in Rocq

    Embeds, from [src/Game/Points.cpp], [src/Game/OceanSurface.cpp] and
    [src/Game/GameController.cpp], the parts of the simulation engine that
    the specification talks about: the ephemeral particle pool, mass
    recomputation, detachment, the combustion state machine with its
    burning list, the shallow-water ocean surface with its external wave
    state machine, and the pause gate of the game loop.

    Numbers: the particle store uses [Q] for the C++ [float]s (exact
    arithmetic stands for the float operations), the ocean surface uses [R]
    because its code calls [sin] and [exp]. Buffers of the structure of
    arrays are total functions [nat -> _] updated pointwise, bounded by the
    element counts the code loops over. *)

From Stdlib Require Import List Arith Lia Bool ZArith QArith Qminmax Lqa Permutation Sorted.
From Stdlib Require Import Reals.
From Stdlib Require Lra.
Import ListNotations.

(** Pointwise update of a buffer: [buf[i] = v]. *)
Definition upd {A} (f : nat -> A) (i : nat) (v : A) : nat -> A :=
  fun j => if Nat.eqb j i then v else f j.

(* ------------------------------------------------------------------ *)
(** ** Ephemeral particle pool ([Points::FindFreeEphemeralParticle]) *)

Module EphemeralPool.

Inductive EphemeralType := None_ | AirBubble | Debris | Sparkle.

Definition is_none (t : EphemeralType) : bool :=
  match t with None_ => true | _ => false end.

(** The pool-related buffers of [Points]: ship points are [0, ShipPointCount),
    ephemeral slots are [ShipPointCount, AllPointCount). *)
Record Pool := {
  ShipPointCount : nat;
  AllPointCount : nat;
  EphemeralTypeBuffer : nat -> EphemeralType;
  EphemeralStartTimeBuffer : nat -> Q;
  EphemeralMaxLifetimeBuffer : nat -> Q;
  FreeEphemeralParticleSearchStartIndex : nat }.

Definition set_search_start (s : Pool) (i : nat) : Pool :=
  {| ShipPointCount := ShipPointCount s;
     AllPointCount := AllPointCount s;
     EphemeralTypeBuffer := EphemeralTypeBuffer s;
     EphemeralStartTimeBuffer := EphemeralStartTimeBuffer s;
     EphemeralMaxLifetimeBuffer := EphemeralMaxLifetimeBuffer s;
     FreeEphemeralParticleSearchStartIndex := i |}.

(** [if (p >= mAllPointCount) p = mShipPointCount;] *)
Definition wrap (s : Pool) (p : nat) : nat :=
  if AllPointCount s <=? p then ShipPointCount s else p.

(** Outcome of the search loop: [Found p] is the early [return p];
    [WentAround oldest] is the [break] with the oldest particle seen
    ([None] is [NoneElementIndex]). *)
Inductive ScanResult := Found (p : nat) | WentAround (oldest : option nat).

(** The [for (p = start; ; )] loop. [fuel] bounds the iterations; the
    loop visits each ephemeral slot once, so [AllPointCount - ShipPointCount]
    iterations always suffice. *)
Fixpoint scan (fuel : nat) (s : Pool) (now : Q) (p : nat)
    (oldest : option nat) (oldestLifetime : Q) : ScanResult :=
  match fuel with
  | O => WentAround oldest
  | S fuel' =>
      if is_none (EphemeralTypeBuffer s p) then Found p
      else
        let lifetime := now - EphemeralStartTimeBuffer s p in
        let '(oldest', oldestLifetime') :=
          if Qle_bool oldestLifetime lifetime
          then (Some p, lifetime) else (oldest, oldestLifetime) in
        let p' := wrap s (p + 1) in
        if Nat.eqb p' (FreeEphemeralParticleSearchStartIndex s)
        then WentAround oldest'
        else scan fuel' s now p' oldest' oldestLifetime'
  end.

(** [Points::FindFreeEphemeralParticle]: the returned index ([None] is
    [NoneElementIndex]) and the updated pool. When stealing with no oldest
    particle recorded, [NoneElementIndex + 1] wraps around to [0] in the
    unsigned [ElementIndex]. *)
Definition FindFreeEphemeralParticle (s : Pool) (now : Q) (force : bool)
    : option nat * Pool :=
  match scan (AllPointCount s - ShipPointCount s) s now
             (FreeEphemeralParticleSearchStartIndex s) None 0 with
  | Found p => (Some p, set_search_start s (wrap s (p + 1)))
  | WentAround oldest =>
      if negb force then (None, s)
      else match oldest with
           | Some o => (Some o, set_search_start s (wrap s (o + 1)))
           | None => (None, set_search_start s (wrap s 0))
           end
  end.

(** The bookkeeping a [CreateEphemeralParticle*] does on the slot it got:
    kind, start time and maximum lifetime. *)
Definition occupy (s : Pool) (p : nat) (t : EphemeralType) (now maxLifetime : Q)
    : Pool :=
  {| ShipPointCount := ShipPointCount s;
     AllPointCount := AllPointCount s;
     EphemeralTypeBuffer := upd (EphemeralTypeBuffer s) p t;
     EphemeralStartTimeBuffer := upd (EphemeralStartTimeBuffer s) p now;
     EphemeralMaxLifetimeBuffer := upd (EphemeralMaxLifetimeBuffer s) p maxLifetime;
     FreeEphemeralParticleSearchStartIndex := FreeEphemeralParticleSearchStartIndex s |}.

(** [ExpireEphemeralParticle]: the slot becomes free again. *)
Definition expire (s : Pool) (p : nat) : Pool :=
  {| ShipPointCount := ShipPointCount s;
     AllPointCount := AllPointCount s;
     EphemeralTypeBuffer := upd (EphemeralTypeBuffer s) p None_;
     EphemeralStartTimeBuffer := EphemeralStartTimeBuffer s;
     EphemeralMaxLifetimeBuffer := EphemeralMaxLifetimeBuffer s;
     FreeEphemeralParticleSearchStartIndex := FreeEphemeralParticleSearchStartIndex s |}.

(** [std::numeric_limits<float>::max()], the lifetime of an air bubble. *)
Definition FloatMax : Q := 340282346638528859811704183484516925440 # 1.

(** [Points::CreateEphemeralParticleAirBubble], pool part: ask for a slot
    without stealing and return at once when there is none. *)
Definition CreateEphemeralParticleAirBubble (s : Pool) (now : Q) : Pool :=
  match FindFreeEphemeralParticle s now false with
  | (None, s') => s'
  | (Some p, s') => occupy s' p AirBubble now FloatMax
  end.

(** [Points::CreateEphemeralParticleDebris] / [...Sparkle], pool part:
    ask for a slot, stealing one if needed. *)
Definition CreateEphemeralParticleForced (s : Pool) (t : EphemeralType)
    (now maxLifetime : Q) : Pool :=
  match FindFreeEphemeralParticle s now true with
  | (None, s') => s'
  | (Some p, s') => occupy s' p t now maxLifetime
  end.

Definition in_region (s : Pool) (p : nat) : Prop :=
  (ShipPointCount s <= p < AllPointCount s)%nat.

(** Allocation traces: the points constructor (in [Points.h]) starts
    from a pool whose search index is an ephemeral slot; afterwards the
    pool changes only by allocations at the current simulation time, which
    never goes back, by the caller occupying the slot it got, and by
    expirations. *)
Inductive Reachable : Pool -> Q -> Prop :=
| R_init : forall s t,
    (ShipPointCount s < AllPointCount s)%nat ->
    in_region s (FreeEphemeralParticleSearchStartIndex s) ->
    (forall p, EphemeralStartTimeBuffer s p <= t) ->
    Reachable s t
| R_alloc : forall s t t' force kind maxLifetime p s',
    Reachable s t -> t <= t' ->
    FindFreeEphemeralParticle s t' force = (Some p, s') ->
    Reachable (occupy s' p kind t' maxLifetime) t'
| R_alloc_none : forall s t t' force s',
    Reachable s t -> t <= t' ->
    FindFreeEphemeralParticle s t' force = (None, s') ->
    Reachable s' t'
| R_expire : forall s t p,
    Reachable s t -> in_region s p -> Reachable (expire s p) t
| R_tick : forall s t t',
    Reachable s t -> t <= t' -> Reachable s t'.

End EphemeralPool.

(* ------------------------------------------------------------------ *)
(** ** Ephemeral particle state machines ([Points::UpdateEphemeralParticles]) *)

Module EphemeralParticles.
Import EphemeralPool.

(** The buffers [UpdateEphemeralParticles] reads or writes, besides the
    pool: pinning, position, the alpha channel of the color, dirtiness, and
    the per-kind fields of the [EphemeralState] union that the loop touches
    (each slot uses the fields of its own kind only). *)
Record Particles := mkParticles {
  PoolState : Pool;
  IsPinnedBuffer : nat -> bool;
  PositionX : nat -> Q;
  PositionY : nat -> Q;
  ColorAlpha : nat -> Q;
  AirBubbleCurrentDeltaY : nat -> Q;
  AirBubbleProgress : nat -> Q;
  AirBubbleVortexAmplitude : nat -> Q;
  AirBubbleNormalizedVortexAngularVelocity : nat -> Q;
  AirBubbleLastVortexValue : nat -> Q;
  SparkleProgress : nat -> Q;
  AreEphemeralPointsDirty : bool }.

(** [ExpireEphemeralParticle] on the pool. *)
Definition expire_particle (s : Particles) (p : nat) : Particles :=
  mkParticles (expire (PoolState s) p) (IsPinnedBuffer s) (PositionX s) (PositionY s)
    (ColorAlpha s) (AirBubbleCurrentDeltaY s) (AirBubbleProgress s)
    (AirBubbleVortexAmplitude s) (AirBubbleNormalizedVortexAngularVelocity s)
    (AirBubbleLastVortexValue s) (SparkleProgress s) (AreEphemeralPointsDirty s).

Definition set_dirty (s : Particles) (b : bool) : Particles :=
  mkParticles (PoolState s) (IsPinnedBuffer s) (PositionX s) (PositionY s)
    (ColorAlpha s) (AirBubbleCurrentDeltaY s) (AirBubbleProgress s)
    (AirBubbleVortexAmplitude s) (AirBubbleNormalizedVortexAngularVelocity s)
    (AirBubbleLastVortexValue s) (SparkleProgress s) b.

(** [CurrentDeltaY = deltaY; Progress = progress;] of an air bubble. *)
Definition set_air_bubble_progress (s : Particles) (p : nat) (deltaY progress : Q) : Particles :=
  mkParticles (PoolState s) (IsPinnedBuffer s) (PositionX s) (PositionY s)
    (ColorAlpha s) (upd (AirBubbleCurrentDeltaY s) p deltaY) (upd (AirBubbleProgress s) p progress)
    (AirBubbleVortexAmplitude s) (AirBubbleNormalizedVortexAngularVelocity s)
    (AirBubbleLastVortexValue s) (SparkleProgress s) (AreEphemeralPointsDirty s).

(** [position.x = x; LastVortexValue = vortexValue;] of an air bubble. *)
Definition set_air_bubble_vortex (s : Particles) (p : nat) (x vortexValue : Q) : Particles :=
  mkParticles (PoolState s) (IsPinnedBuffer s) (upd (PositionX s) p x) (PositionY s)
    (ColorAlpha s) (AirBubbleCurrentDeltaY s) (AirBubbleProgress s)
    (AirBubbleVortexAmplitude s) (AirBubbleNormalizedVortexAngularVelocity s)
    (upd (AirBubbleLastVortexValue s) p vortexValue) (SparkleProgress s)
    (AreEphemeralPointsDirty s).

Definition set_alpha (s : Particles) (p : nat) (alpha : Q) : Particles :=
  mkParticles (PoolState s) (IsPinnedBuffer s) (PositionX s) (PositionY s)
    (upd (ColorAlpha s) p alpha) (AirBubbleCurrentDeltaY s) (AirBubbleProgress s)
    (AirBubbleVortexAmplitude s) (AirBubbleNormalizedVortexAngularVelocity s)
    (AirBubbleLastVortexValue s) (SparkleProgress s) (AreEphemeralPointsDirty s).

Definition set_sparkle_progress (s : Particles) (p : nat) (progress : Q) : Particles :=
  mkParticles (PoolState s) (IsPinnedBuffer s) (PositionX s) (PositionY s)
    (ColorAlpha s) (AirBubbleCurrentDeltaY s) (AirBubbleProgress s)
    (AirBubbleVortexAmplitude s) (AirBubbleNormalizedVortexAngularVelocity s)
    (AirBubbleLastVortexValue s) (upd (SparkleProgress s) p progress)
    (AreEphemeralPointsDirty s).

Section Update.
(** [mParentWorld.GetOceanSurfaceHeightAt] and
    [PrecalcLoFreqSin.GetNearestPeriodic]. *)
Variable GetOceanSurfaceHeightAt : Q -> Q.
Variable PrecalcLoFreqSin : Q -> Q.

(** One iteration of the loop: the state machine of the particle at [p]. *)
Definition UpdateEphemeralParticle (currentSimulationTime : Q) (s : Particles) (p : nat)
    : Particles :=
  match EphemeralTypeBuffer (PoolState s) p with
  | None_ => s
  | AirBubble =>
      (* Do not advance air bubble if it's pinned *)
      if IsPinnedBuffer s p then s
      else
        let waterHeight := GetOceanSurfaceHeightAt (PositionX s p) in
        let deltaY := waterHeight - PositionY s p in
        if Qle_bool deltaY 0
        then (* Got to the surface, expire *) expire_particle s p
        else
          let s1 := set_air_bubble_progress s p deltaY
                      (-1 / (-1 + Qmin (PositionY s p) 0)) in
          let lifetime := currentSimulationTime - EphemeralStartTimeBuffer (PoolState s1) p in
          let vortexAmplitude := AirBubbleVortexAmplitude s1 p + AirBubbleProgress s1 p in
          let vortexValue :=
            vortexAmplitude
            * PrecalcLoFreqSin (AirBubbleNormalizedVortexAngularVelocity s1 p * lifetime) in
          set_air_bubble_vortex s1 p
            (PositionX s1 p + (vortexValue - AirBubbleLastVortexValue s1 p)) vortexValue
  | Debris =>
      let elapsedLifetime := currentSimulationTime - EphemeralStartTimeBuffer (PoolState s) p in
      if Qle_bool (EphemeralMaxLifetimeBuffer (PoolState s) p) elapsedLifetime
      then set_dirty (expire_particle s p) true
      else set_alpha s p
             (Qmax (1 - elapsedLifetime / EphemeralMaxLifetimeBuffer (PoolState s) p) 0)
  | Sparkle =>
      let elapsedLifetime := currentSimulationTime - EphemeralStartTimeBuffer (PoolState s) p in
      if Qle_bool (EphemeralMaxLifetimeBuffer (PoolState s) p) elapsedLifetime
      then expire_particle s p
      else set_sparkle_progress s p
             (elapsedLifetime / EphemeralMaxLifetimeBuffer (PoolState s) p)
  end.

(** [Points::UpdateEphemeralParticles]: the loop over [EphemeralPoints()],
    the slots [[ShipPointCount, AllPointCount)]. *)
Definition UpdateEphemeralParticles (currentSimulationTime : Q) (s : Particles) : Particles :=
  fold_left (UpdateEphemeralParticle currentSimulationTime)
    (seq (ShipPointCount (PoolState s))
         (AllPointCount (PoolState s) - ShipPointCount (PoolState s)))
    s.

End Update.

End EphemeralParticles.

(* ------------------------------------------------------------------ *)
(** ** Particle store: masses and detachment *)

Module Particles.

Definition vec2f := (Q * Q)%type.

(** Per-particle buffers of [Points] that [UpdateMasses] and [Detach]
    read or write, with the neighbouring ones they must leave alone.
    [ElementCount] is the number of elements [*this] iterates over. *)
Record Points := {
  ElementCount : nat;
  PositionBuffer : nat -> vec2f;
  VelocityBuffer : nat -> vec2f;
  ForceBuffer : nat -> vec2f;
  AugmentedMaterialMassBuffer : nat -> Q;
  MassBuffer : nat -> Q;
  DecayBuffer : nat -> Q;
  IntegrationFactorTimeCoefficientBuffer : nat -> Q;
  IntegrationFactorBuffer : nat -> vec2f;
  MaterialWaterVolumeFillBuffer : nat -> Q;
  WaterBuffer : nat -> Q;
  TemperatureBuffer : nat -> Q;
  IsPinnedBuffer : nat -> bool;
  ConnectedSpringsBuffer : nat -> list nat }.

Definition set_mass_and_integration_factor (s : Points) (i : nat) (m : Q) (f : vec2f)
    : Points :=
  {| ElementCount := ElementCount s;
     PositionBuffer := PositionBuffer s;
     VelocityBuffer := VelocityBuffer s;
     ForceBuffer := ForceBuffer s;
     AugmentedMaterialMassBuffer := AugmentedMaterialMassBuffer s;
     MassBuffer := upd (MassBuffer s) i m;
     DecayBuffer := DecayBuffer s;
     IntegrationFactorTimeCoefficientBuffer := IntegrationFactorTimeCoefficientBuffer s;
     IntegrationFactorBuffer := upd (IntegrationFactorBuffer s) i f;
     MaterialWaterVolumeFillBuffer := MaterialWaterVolumeFillBuffer s;
     WaterBuffer := WaterBuffer s;
     TemperatureBuffer := TemperatureBuffer s;
     IsPinnedBuffer := IsPinnedBuffer s;
     ConnectedSpringsBuffer := ConnectedSpringsBuffer s |}.

Definition set_velocity (s : Points) (i : nat) (v : vec2f) : Points :=
  {| ElementCount := ElementCount s;
     PositionBuffer := PositionBuffer s;
     VelocityBuffer := upd (VelocityBuffer s) i v;
     ForceBuffer := ForceBuffer s;
     AugmentedMaterialMassBuffer := AugmentedMaterialMassBuffer s;
     MassBuffer := MassBuffer s;
     DecayBuffer := DecayBuffer s;
     IntegrationFactorTimeCoefficientBuffer := IntegrationFactorTimeCoefficientBuffer s;
     IntegrationFactorBuffer := IntegrationFactorBuffer s;
     MaterialWaterVolumeFillBuffer := MaterialWaterVolumeFillBuffer s;
     WaterBuffer := WaterBuffer s;
     TemperatureBuffer := TemperatureBuffer s;
     IsPinnedBuffer := IsPinnedBuffer s;
     ConnectedSpringsBuffer := ConnectedSpringsBuffer s |}.

(** [GameParameters::WaterMass] and the run-time [WaterDensityAdjustment]. *)
Record MassParameters := {
  WaterMass : Q;
  WaterDensityAdjustment : Q }.

(** The body of the [UpdateMasses] loop for element [i]. *)
Definition update_mass (gp : MassParameters) (s : Points) (i : nat) : Points :=
  let densityAdjustedWaterMass := WaterMass gp * WaterDensityAdjustment gp in
  let mass :=
    AugmentedMaterialMassBuffer s i
    + Qmin (WaterBuffer s i) (MaterialWaterVolumeFillBuffer s i) * densityAdjustedWaterMass in
  set_mass_and_integration_factor s i mass
    (IntegrationFactorTimeCoefficientBuffer s i / mass,
     IntegrationFactorTimeCoefficientBuffer s i / mass).

(** [Points::UpdateMasses]: [for (ElementIndex i : *this)]. *)
Definition UpdateMasses (gp : MassParameters) (s : Points) : Points :=
  fold_left (update_mass gp) (seq 0 (ElementCount s)) s.

(** [DetachOptions]: [GenerateDebris] and [FireDestroyEvent]. *)
Record DetachOptions := {
  GenerateDebris : bool;
  FireDestroyEvent : bool }.

(** The [mDetachHandler] callback the ship installs (it may be empty):
    point index, generate-debris, fire-destroy-event, current time. *)
Definition DetachHandler := nat -> bool -> bool -> Q -> Points -> Points.

(** [if (!!mDetachHandler) mDetachHandler(...)]. *)
Definition InvokeDetachHandler (handler : option DetachHandler) (s : Points)
    (pointElementIndex : nat) (detachOptions : DetachOptions)
    (currentSimulationTime : Q) : Points :=
  match handler with
  | Some h => h pointElementIndex (GenerateDebris detachOptions)
                (FireDestroyEvent detachOptions) currentSimulationTime s
  | None => s
  end.

(** [Points::Detach]. *)
Definition Detach (handler : option DetachHandler) (s : Points) (pointElementIndex : nat)
    (velocity : vec2f) (detachOptions : DetachOptions) (currentSimulationTime : Q)
    : Points :=
  (* Invoke detach handler *)
  let s1 := InvokeDetachHandler handler s pointElementIndex detachOptions
              currentSimulationTime in
  (* Imprint velocity, unless the point is pinned *)
  if negb (IsPinnedBuffer s1 pointElementIndex)
  then set_velocity s1 pointElementIndex velocity
  else s1.

End Particles.

(* ------------------------------------------------------------------ *)
(** ** Game loop ([GameController::RunGameIteration]) *)

Module GameLoop.

(** The parts of [GameController] a game iteration touches. The smoothers,
    the world and the events are kept abstract. *)
Record Controller (Smoother World Event : Type) := {
  IsPaused : bool;
  IsMoveToolEngaged : bool;
  WallClockPaused : bool;
  WallClockNow : Q;
  ParameterSmoothers : list Smoother;
  TheWorld : World;
  QueuedEvents : list Event;
  DispatchedEvents : list Event;
  TotalFrameCount : nat }.

Arguments IsPaused {_ _ _}.
Arguments IsMoveToolEngaged {_ _ _}.
Arguments WallClockPaused {_ _ _}.
Arguments WallClockNow {_ _ _}.
Arguments ParameterSmoothers {_ _ _}.
Arguments TheWorld {_ _ _}.
Arguments QueuedEvents {_ _ _}.
Arguments DispatchedEvents {_ _ _}.
Arguments TotalFrameCount {_ _ _}.
Arguments Build_Controller {_ _ _}.

(** The collaborators: [ParameterSmoother::Update(now)], [World::Update]
    (which queues the events it raises into the dispatcher) and the
    controller's own [UpdateStateMachines]. *)
Record Collaborators (Smoother World Event : Type) := {
  SmootherUpdate : Q -> Smoother -> Smoother;
  WorldUpdate : World -> World * list Event;
  UpdateStateMachines : World -> World }.

Arguments SmootherUpdate {_ _ _}.
Arguments WorldUpdate {_ _ _}.
Arguments UpdateStateMachines {_ _ _}.

Section Loop.
Context {Smoother World Event : Type}.
Variable ops : Collaborators Smoother World Event.

(** [GameController::InternalUpdate]. *)
Definition InternalUpdate (c : Controller Smoother World Event)
    : Controller Smoother World Event :=
  let now := WallClockNow c in
  (* Update parameter smoothers *)
  let smoothers := map (SmootherUpdate ops now) (ParameterSmoothers c) in
  (* Update world *)
  let '(w, raised) := WorldUpdate ops (TheWorld c) in
  let queued := QueuedEvents c ++ raised in
  (* Flush events; update state machines *)
  Build_Controller (IsPaused c) (IsMoveToolEngaged c) (WallClockPaused c)
    (WallClockNow c) smoothers (UpdateStateMachines ops w) []
    (DispatchedEvents c ++ queued) (TotalFrameCount c).

(** The render half of [RunGameIteration]: swap buffers, render, count. *)
Definition RenderFrame (c : Controller Smoother World Event)
    : Controller Smoother World Event :=
  Build_Controller (IsPaused c) (IsMoveToolEngaged c) (WallClockPaused c)
    (WallClockNow c) (ParameterSmoothers c) (TheWorld c) (QueuedEvents c)
    (DispatchedEvents c) (S (TotalFrameCount c)).

(** [GameController::RunGameIteration]. *)
Definition RunGameIteration (c : Controller Smoother World Event)
    : Controller Smoother World Event :=
  let c1 := if negb (IsPaused c) && negb (IsMoveToolEngaged c)
            then InternalUpdate c else c in
  RenderFrame c1.

(** [GameController::SetPaused]: freeze the wall clock and change state. *)
Definition SetPaused (c : Controller Smoother World Event) (isPaused : bool)
    : Controller Smoother World Event :=
  Build_Controller isPaused (IsMoveToolEngaged c) isPaused
    (WallClockNow c) (ParameterSmoothers c) (TheWorld c) (QueuedEvents c)
    (DispatchedEvents c) (TotalFrameCount c).

End Loop.

(** The spec's reading of a paused iteration: the world stays, the
    smoothers are still processed and the queued events still flushed. *)
Definition PausedIterationAsSpecified {Smoother World Event : Type}
    (ops : Collaborators Smoother World Event)
    (c : Controller Smoother World Event) : Prop :=
  let c' := RunGameIteration ops c in
  TheWorld c' = TheWorld c /\
  ParameterSmoothers c' = map (SmootherUpdate ops (WallClockNow c)) (ParameterSmoothers c) /\
  QueuedEvents c' = [] /\
  DispatchedEvents c' = DispatchedEvents c ++ QueuedEvents c.

End GameLoop.

(* ------------------------------------------------------------------ *)
(** ** Camera and zoom smoothing ([GameController::SmoothToTarget]) *)

Module Smoothing.
Local Open Scope R_scope.

(** [SmoothToTarget]: the new [currentValue], for the milliseconds
    [elapsedMillis] since [startingTime] and the constant [SmoothMillis]. *)
Definition SmoothToTarget (SmoothMillis : R) (currentValue startingValue targetValue : R)
    (elapsedMillis : nat) : R :=
  (* Amplitude - summing up pieces from zero to PI yields PI/2 *)
  let amp := (targetValue - startingValue) / (PI / 2) in
  (* X - after SmoothMillis we want PI *)
  let x := INR elapsedMillis * PI / SmoothMillis in
  let dv := amp * sin x * sin x in
  let oldCurrentValue := currentValue in
  let currentValue' := currentValue + dv in
  (* Check if we've overshot *)
  if Rlt_dec ((targetValue - oldCurrentValue) * (targetValue - currentValue')) 0
  then targetValue
  else currentValue'.

End Smoothing.

(* ------------------------------------------------------------------ *)
(** ** Ocean surface ([src/Game/OceanSurface.cpp]) *)

Module Ocean.
Local Open Scope R_scope.

(** Constants of [OceanSurface.h] and [GameParameters.h] the update uses. *)
Record OceanConstants := {
  SamplesCount : nat;
  Dx : R;
  SimulationStepTimeDuration : R;
  GravityMagnitude : R }.

Definition SWEHeightFieldOffset : R := 100.
Definition SWEWaveGenerationSamples : nat := 1.
Definition SWEBoundaryConditionsSamples : nat := 1.
Definition SWEOuterLayerSamples : nat :=
  (SWEWaveGenerationSamples + SWEBoundaryConditionsSamples)%nat.

Definition SWETotalSamples (c : OceanConstants) : nat :=
  (SWEOuterLayerSamples + SamplesCount c + SWEOuterLayerSamples)%nat.

(** [FastTruncateInt32]: the C conversion of a float to [int32_t],
    rounding toward zero. *)
Definition FastTruncateInt32 (x : R) : Z :=
  if Rle_dec 0 x then Int_part x else (- Int_part (- x))%Z.

(** *** External wave state machine *)

Inductive WavePhaseType := Rise | Fall.
Inductive ReleaseModeType := OnCue | Automatic.

Record SWEWaveStateMachine := {
  SampleIndex : Z;
  LowHeight : R;
  CurrentPhaseStartHeight : R;
  CurrentPhaseTargetHeight : R;
  CurrentHeight : R;
  CurrentProgress : R;
  StartSimulationTime : R;
  CurrentWavePhase : WavePhaseType;
  ReleaseMode : ReleaseModeType;
  SmoothingDelay : R }.

Section WaveMachine.
Variable c : OceanConstants.

(** [CalculateSmoothingDelay], on the fields it reads. *)
Definition CalculateSmoothingDelay (phase : WavePhaseType) (target current : R) : R :=
  let deltaH := Rmin (Rabs (target - current)) (SWEHeightFieldOffset / 5) in
  let delayTicks :=
    match phase with
    | Rise => -19.88881 + (147.403 / 0.6126081) * (1 - exp (-0.6126081 * deltaH))
    | Fall => 1.220013 + (7.8394 / 0.6485749) * (1 - exp (-0.6485749 * deltaH))
    end in
  Rmax delayTicks 1 * SimulationStepTimeDuration c.

(** The constructor [SWEWaveStateMachine(...)]. *)
Definition NewSWEWaveStateMachine (sampleIndex : Z) (startHeight targetHeight : R)
    (releaseMode : ReleaseModeType) (currentSimulationTime : R) : SWEWaveStateMachine :=
  {| SampleIndex := sampleIndex;
     LowHeight := startHeight;
     CurrentPhaseStartHeight := startHeight;
     CurrentPhaseTargetHeight := targetHeight;
     CurrentHeight := startHeight;
     CurrentProgress := 0;
     StartSimulationTime := currentSimulationTime;
     CurrentWavePhase := Rise;
     ReleaseMode := releaseMode;
     SmoothingDelay := CalculateSmoothingDelay Rise targetHeight startHeight |}.

(** [Restart]: rise in any case, toward the restart height. *)
Definition Restart (m : SWEWaveStateMachine) (restartHeight currentSimulationTime : R)
    : SWEWaveStateMachine :=
  {| SampleIndex := SampleIndex m;
     LowHeight := LowHeight m;
     CurrentPhaseStartHeight := CurrentHeight m;
     CurrentPhaseTargetHeight := restartHeight;
     CurrentHeight := CurrentHeight m;
     CurrentProgress := 0;
     StartSimulationTime := currentSimulationTime;
     CurrentWavePhase := Rise;
     ReleaseMode := ReleaseMode m;
     SmoothingDelay := CalculateSmoothingDelay Rise restartHeight (CurrentHeight m) |}.

(** [StartFallPhase]: fall from the current height back to the low height. *)
Definition StartFallPhase (m : SWEWaveStateMachine) (currentSimulationTime : R)
    : SWEWaveStateMachine :=
  {| SampleIndex := SampleIndex m;
     LowHeight := LowHeight m;
     CurrentPhaseStartHeight := CurrentHeight m;
     CurrentPhaseTargetHeight := LowHeight m;
     CurrentHeight := CurrentHeight m;
     CurrentProgress := 0;
     StartSimulationTime := currentSimulationTime;
     CurrentWavePhase := Fall;
     ReleaseMode := ReleaseMode m;
     SmoothingDelay := CalculateSmoothingDelay Fall (LowHeight m) (CurrentHeight m) |}.

Definition with_progress_and_height (m : SWEWaveStateMachine) (p h : R)
    : SWEWaveStateMachine :=
  {| SampleIndex := SampleIndex m;
     LowHeight := LowHeight m;
     CurrentPhaseStartHeight := CurrentPhaseStartHeight m;
     CurrentPhaseTargetHeight := CurrentPhaseTargetHeight m;
     CurrentHeight := h;
     CurrentProgress := p;
     StartSimulationTime := StartSimulationTime m;
     CurrentWavePhase := CurrentWavePhase m;
     ReleaseMode := ReleaseMode m;
     SmoothingDelay := SmoothingDelay m |}.

(** [Release]: start falling when rising, else stop altogether. *)
Definition Release (m : SWEWaveStateMachine) (currentSimulationTime : R)
    : SWEWaveStateMachine :=
  match CurrentWavePhase m with
  | Rise => StartFallPhase m currentSimulationTime
  | Fall => with_progress_and_height m 1 (CurrentHeight m)
  end.

(** The progress [Update] computes: it advances only while below 1. *)
Definition NextProgress (m : SWEWaveStateMachine) (currentSimulationTime : R) : R :=
  if Rlt_dec (CurrentProgress m) 1
  then (currentSimulationTime - StartSimulationTime m) / SmoothingDelay m
  else CurrentProgress m.

(** [SWEWaveStateMachine::Update]: the new machine and the height value
    ([None] is [std::nullopt], the machine is done). *)
Definition Update (m : SWEWaveStateMachine) (currentSimulationTime : R)
    : SWEWaveStateMachine * option R :=
  let progress := NextProgress m currentSimulationTime in
  (* Calculate sinusoidal progress *)
  let sinProgress := sin (PI / 2 * Rmin progress 1) in
  (* Calculate new height value *)
  let height := CurrentPhaseStartHeight m
                + (CurrentPhaseTargetHeight m - CurrentPhaseStartHeight m) * sinProgress in
  let m1 := with_progress_and_height m progress height in
  (* Check whether it's time to switch phase *)
  if Rle_dec 1 progress then
    match CurrentWavePhase m with
    | Rise =>
        match ReleaseMode m with
        | Automatic => (StartFallPhase m1 currentSimulationTime, Some height)
        | OnCue => (m1, Some height)
        end
    | Fall => (m1, None)
    end
  else (m1, Some height).

(** The rise curve as the specification words it, for comparison with
    [Update]: from the phase start height toward the target along [sin²]
    of the (clamped) progress. *)
Definition SpecRiseHeightSin2 (m : SWEWaveStateMachine) (currentSimulationTime : R) : R :=
  CurrentPhaseStartHeight m
  + (CurrentPhaseTargetHeight m - CurrentPhaseStartHeight m)
    * (sin (PI / 2 * Rmin (NextProgress m currentSimulationTime) 1)) ^ 2.

End WaveMachine.

(** *** Shallow-water layer *)

(** The height and velocity buffers ([SWETotalSamples + 1] cells each,
    current and next) and the optional external wave. *)
Record OceanSurface := {
  CurrentHeightField : nat -> R;
  NextHeightField : nat -> R;
  CurrentVelocityField : nat -> R;
  NextVelocityField : nat -> R;
  SWEExternalWaveStateMachine : option SWEWaveStateMachine }.

Definition mkOcean (ch nh cv nv : nat -> R) (w : option SWEWaveStateMachine) : OceanSurface :=
  {| CurrentHeightField := ch; NextHeightField := nh;
     CurrentVelocityField := cv; NextVelocityField := nv;
     SWEExternalWaveStateMachine := w |}.

Section SWE.
Variable c : OceanConstants.

(** The constructor: every cell, the extra one included, at rest. *)
Definition NewOceanSurface : OceanSurface :=
  mkOcean (fun _ => SWEHeightFieldOffset) (fun _ => SWEHeightFieldOffset)
          (fun _ => 0) (fun _ => 0) None.

(** The cells the SWE loops process:
    [for (i = SWEBoundaryConditionsSamples; i < SWETotalSamples - SWEBoundaryConditionsSamples; ++i)]. *)
Definition InteriorCells : list nat :=
  seq SWEBoundaryConditionsSamples
      (SWETotalSamples c - SWEBoundaryConditionsSamples - SWEBoundaryConditionsSamples).

(** The clamped back-traced index [prevCellIndex2] for a cell whose
    transporting velocity is [v]. *)
Definition PrevCellIndex (i : nat) (v : R) : R :=
  Rmin (Rmax 0 (INR i - v * SimulationStepTimeDuration c / Dx c))
       (INR (SWETotalSamples c - 1)%nat).

(** [prevCellIndexI] and [prevCellIndexF]. *)
Definition PrevCellIndexI (i : nat) (v : R) : Z := FastTruncateInt32 (PrevCellIndex i v).
Definition PrevCellIndexF (i : nat) (v : R) : R := PrevCellIndex i v - IZR (PrevCellIndexI i v).

(** The interpolation of [field] at the back-traced index. *)
Definition Interpolate (field : nat -> R) (i : nat) (v : R) : R :=
  (1 - PrevCellIndexF i v) * field (Z.to_nat (PrevCellIndexI i v))
  + PrevCellIndexF i v * field (Z.to_nat (PrevCellIndexI i v + 1)).

(** [AdvectHeightField]: current -> next. *)
Definition AdvectHeightField (o : OceanSurface) : OceanSurface :=
  fold_left (fun o i =>
    let v := (CurrentVelocityField o i + CurrentVelocityField o (i + 1)%nat) / 2 in
    mkOcean (CurrentHeightField o)
      (upd (NextHeightField o) i (Interpolate (CurrentHeightField o) i v))
      (CurrentVelocityField o) (NextVelocityField o) (SWEExternalWaveStateMachine o))
    InteriorCells o.

(** [AdvectVelocityField]: current -> next. *)
Definition AdvectVelocityField (o : OceanSurface) : OceanSurface :=
  fold_left (fun o i =>
    let v := CurrentVelocityField o i in
    mkOcean (CurrentHeightField o) (NextHeightField o) (CurrentVelocityField o)
      (upd (NextVelocityField o) i (Interpolate (CurrentVelocityField o) i v))
      (SWEExternalWaveStateMachine o))
    InteriorCells o.

(** [UpdateHeightField]. *)
Definition UpdateHeightField (o : OceanSurface) : OceanSurface :=
  fold_left (fun o i =>
    let h := NextHeightField o i in
    mkOcean (CurrentHeightField o)
      (upd (NextHeightField o) i
         (h - h * (NextVelocityField o (i + 1)%nat - NextVelocityField o i) / Dx c
                * SimulationStepTimeDuration c))
      (CurrentVelocityField o) (NextVelocityField o) (SWEExternalWaveStateMachine o))
    InteriorCells o.

(** [UpdateVelocityField]. *)
Definition UpdateVelocityField (o : OceanSurface) : OceanSurface :=
  fold_left (fun o i =>
    mkOcean (CurrentHeightField o) (NextHeightField o) (CurrentVelocityField o)
      (upd (NextVelocityField o) i
         (NextVelocityField o i
          + GravityMagnitude c * (NextHeightField o (i - 1)%nat - NextHeightField o i) / Dx c
            * SimulationStepTimeDuration c))
      (SWEExternalWaveStateMachine o))
    InteriorCells o.

(** The reflective boundary conditions on the next height field
    ([SWEBoundaryConditionsSamples] is 1, so the loop runs once). *)
Definition SetBoundaryConditions (o : OceanSurface) : OceanSurface :=
  let S := SWETotalSamples c in
  let nh1 := upd (NextHeightField o) 0 (NextHeightField o 1) in
  let nh2 := upd nh1 (S - 1)%nat (nh1 (S - 1 - 1)%nat) in
  mkOcean (CurrentHeightField o) nh2 (CurrentVelocityField o) (NextVelocityField o)
    (SWEExternalWaveStateMachine o).

Definition SwapBuffers (o : OceanSurface) : OceanSurface :=
  mkOcean (NextHeightField o) (CurrentHeightField o)
    (NextVelocityField o) (CurrentVelocityField o) (SWEExternalWaveStateMachine o).

(** Step 2, advance the external wave: it writes its height into the
    current height field at the cell it returns from [GetSampleIndex] (the
    accessor of [OceanSurface.h], read here as the stored sample index), or
    is reset when done. *)
Definition AdvanceExternalWave (o : OceanSurface) (currentSimulationTime : R) : OceanSurface :=
  match SWEExternalWaveStateMachine o with
  | None => o
  | Some m =>
      match Update c m currentSimulationTime with
      | (_, None) =>
          mkOcean (CurrentHeightField o) (NextHeightField o)
            (CurrentVelocityField o) (NextVelocityField o) None
      | (m', Some h) =>
          mkOcean (upd (CurrentHeightField o) (Z.to_nat (SampleIndex m')) h)
            (NextHeightField o) (CurrentVelocityField o) (NextVelocityField o) (Some m')
      end
  end.

(** [OceanSurface::Update], steps 2 to 4 (step 5 derives the render
    samples from the new current height field into a separate buffer). *)
Definition OceanUpdate (o : OceanSurface) (currentSimulationTime : R) : OceanSurface :=
  SwapBuffers
    (SetBoundaryConditions
       (UpdateVelocityField
          (UpdateHeightField
             (AdvectVelocityField
                (AdvectHeightField
                   (AdvanceExternalWave o currentSimulationTime)))))).

(** [OceanSurface::AdjustTo]: start, restart or release the external wave.
    The release branch asserts [!!mSWEExternalWaveStateMachine] and then
    calls [Release] through the pointer: with no wave the C++ aborts (or,
    without assertions, dereferences a null pointer). This branch of the
    model returns the surface as it was; see [AdjustToAssert]. *)
Definition AdjustTo (o : OceanSurface) (worldCoordinates : option (R * R))
    (currentSimulationTime : R) (sampleIndexI : Z) : OceanSurface :=
  let w :=
    match worldCoordinates with
    | Some (_, y) =>
        let targetHeight := y / 50 + SWEHeightFieldOffset in
        match SWEExternalWaveStateMachine o with
        | None =>
            Some (NewSWEWaveStateMachine c sampleIndexI
                    (CurrentHeightField o (SWEOuterLayerSamples + Z.to_nat sampleIndexI)%nat)
                    targetHeight OnCue currentSimulationTime)
        | Some m => Some (Restart c m targetHeight currentSimulationTime)
        end
    | None =>
        match SWEExternalWaveStateMachine o with
        | Some m => Some (Release c m currentSimulationTime)
        | None => None
        end
    end in
  mkOcean (CurrentHeightField o) (NextHeightField o)
    (CurrentVelocityField o) (NextVelocityField o) w.

(** The assertion [assert(!!mSWEExternalWaveStateMachine)] that
    [OceanSurface::AdjustTo] makes before releasing the wave: it fails
    exactly on a release with no wave. *)
Definition AdjustToAssert (o : OceanSurface) (worldCoordinates : option (R * R)) : bool :=
  match worldCoordinates, SWEExternalWaveStateMachine o with
  | None, None => false
  | _, _ => true
  end.

(** States the ocean surface goes through: construction, updates, and
    user adjustments between updates (the [sampleIndexI] of a new wave is
    computed by [AdjustTo] from the world x coordinate). *)
Inductive OceanReachable : OceanSurface -> Prop :=
| O_init : OceanReachable NewOceanSurface
| O_update : forall o t, OceanReachable o -> OceanReachable (OceanUpdate o t)
| O_adjust : forall o wc t si, OceanReachable o -> OceanReachable (AdjustTo o wc t si).

(** *** Step 5 of [OceanSurface::Update]: the render samples *)

(** A render sample: its value and the difference to the next one. *)
Record Sample := mkSample {
  SampleValue : R;
  SampleValuePlusOneMinusSampleValue : R }.

(** [mSamples[i].SampleValue = v] *)
Definition set_sample_value (samples : nat -> Sample) (i : nat) (v : R) : nat -> Sample :=
  upd samples i (mkSample v (SampleValuePlusOneMinusSampleValue (samples i))).

(** [mSamples[i].SampleValuePlusOneMinusSampleValue = d] *)
Definition set_sample_delta (samples : nat -> Sample) (i : nat) (d : R) : nat -> Sample :=
  upd samples i (mkSample (SampleValue (samples i)) d).

(** The wind quantities step 5 reads: [wind.GetCurrentWindSpeed().length()],
    [wind.GetMaxSpeedMagnitude()], [wind.GetBaseSpeedMagnitude()] and
    [gameParameters.WindSpeedBase]. *)
Record WindInput := {
  CurrentWindSpeedLength : R;
  MaxSpeedMagnitude : R;
  BaseSpeedMagnitude : R;
  WindSpeedBase : R }.

Definition RawWindNormalizedIncisiveness (w : WindInput) : R :=
  let windSpeedGustRelativeAmplitude := MaxSpeedMagnitude w - BaseSpeedMagnitude w in
  if Req_dec_T windSpeedGustRelativeAmplitude 0 then 0
  else Rmax 0 (CurrentWindSpeedLength w - Rabs (BaseSpeedMagnitude w))
       / Rabs windSpeedGustRelativeAmplitude.

Definition WindRipplesTimeFrequency (w : WindInput) : R :=
  if Rle_dec 0 (WindSpeedBase w) then 128 else -128.

(** [WindGustRippleSpatialFrequency] *)
Definition WindGustRippleSpatialFrequency : R := 0.5.

(** [SWEHeightFieldAmplification] *)
Definition SWEHeightFieldAmplification : R := 50.

(** The loop over the samples [1 .. SamplesCount - 1], carrying the
    samples, [x] and [previousSampleValue]. *)
Definition GenerateSampleStep (o : OceanSurface) (currentSimulationTime windRipplesTimeFrequency
    windRipplesWaveHeight : R) (acc : (nat -> Sample) * R * R) (i : nat)
    : (nat -> Sample) * R * R :=
  let '(samples, x, previousSampleValue) := acc in
  let rippleValue := sin (x * WindGustRippleSpatialFrequency
                          - currentSimulationTime * windRipplesTimeFrequency) in
  let sampleValue :=
    (CurrentHeightField o (SWEOuterLayerSamples + i) - SWEHeightFieldOffset)
      * SWEHeightFieldAmplification
    + rippleValue * windRipplesWaveHeight in
  let samples1 := set_sample_value samples i sampleValue in
  let samples2 := set_sample_delta samples1 (i - 1)%nat (sampleValue - previousSampleValue) in
  (samples2, x + Dx c, sampleValue).

(** Step 5: the samples from the (new) current height field and the wind
    ripples; [smoothedWindNormalizedIncisiveness] is what
    [mWindIncisivenessRunningAverage.Update] returns for the raw
    incisiveness of [w]. *)
Definition GenerateSamples (o : OceanSurface) (samples : nat -> Sample) (w : WindInput)
    (smoothedWindNormalizedIncisiveness : R) (currentSimulationTime : R) : nat -> Sample :=
  let windRipplesTimeFrequency := WindRipplesTimeFrequency w in
  let windRipplesWaveHeight := 0.7 * smoothedWindNormalizedIncisiveness in
  (* sample index = 0 *)
  let rippleValue := sin (- currentSimulationTime * windRipplesTimeFrequency) in
  let previousSampleValue :=
    (CurrentHeightField o (SWEOuterLayerSamples + 0) - SWEHeightFieldOffset)
      * SWEHeightFieldAmplification
    + rippleValue * windRipplesWaveHeight in
  let samples0 := set_sample_value samples 0 previousSampleValue in
  (* sample index = 1...SamplesCount - 1 *)
  let '(samples1, _, _) :=
    fold_left (GenerateSampleStep o currentSimulationTime windRipplesTimeFrequency
                 windRipplesWaveHeight)
      (seq 1 (SamplesCount c - 1)%nat) (samples0, Dx c, previousSampleValue) in
  (* Populate last delta *)
  let samples2 := set_sample_delta samples1 (SamplesCount c - 1)%nat 0 in
  (* Populate extra sample - same value as last sample *)
  let samples3 := set_sample_value samples2 (SamplesCount c)
                    (SampleValue (samples2 (SamplesCount c - 1)%nat)) in
  set_sample_delta samples3 (SamplesCount c) 0.

End SWE.

End Ocean.

(* ------------------------------------------------------------------ *)
(** ** Combustion ([Points::UpdateCombustionLowFrequency] and
    [Points::UpdateCombustionHighFrequency]) *)

Module Combustion.

Inductive StateType :=
| NotBurning
| Developing_1
| Developing_2
| Burning
| Extinguishing_Consumed
| Extinguishing_Smothered.

(** [CombustionState]: the state and the flame parameters of a point. *)
Record CombustionState := mkCombustionState {
  State : StateType;
  FlameDevelopment : Q;
  MaxFlameDevelopment : Q;
  Personality : Q }.

Definition with_state (cs : CombustionState) (st : StateType) : CombustionState :=
  mkCombustionState st (FlameDevelopment cs) (MaxFlameDevelopment cs) (Personality cs).

Definition with_flame_development (cs : CombustionState) (fd : Q) : CombustionState :=
  mkCombustionState (State cs) fd (MaxFlameDevelopment cs) (Personality cs).

(** Modelled from the spec: the default [CombustionState()] of
    [Points.h], the state of a point that does not burn. *)
Definition DefaultCombustionState : CombustionState :=
  mkCombustionState NotBurning 0 0 0.

(** The buffers of [Points] the combustion passes read or write; the
    springs buffer gives, per point, the other endpoints of its connected
    springs. *)
Record Points := mkPoints {
  ShipPointCount : nat;
  CombustionStateBuffer : nat -> CombustionState;
  TemperatureBuffer : nat -> Q;
  WaterBuffer : nat -> Q;
  DecayBuffer : nat -> Q;
  MaterialIgnitionTemperatureBuffer : nat -> Q;
  MaterialHeatCapacityBuffer : nat -> Q;
  PlaneIdBuffer : nat -> nat;
  ConnectedSpringsBuffer : nat -> list nat;
  BurningPoints : list nat }.

Definition set_combustion_state (s : Points) (p : nat) (cs : CombustionState) : Points :=
  mkPoints (ShipPointCount s) (upd (CombustionStateBuffer s) p cs) (TemperatureBuffer s)
    (WaterBuffer s) (DecayBuffer s) (MaterialIgnitionTemperatureBuffer s)
    (MaterialHeatCapacityBuffer s) (PlaneIdBuffer s) (ConnectedSpringsBuffer s)
    (BurningPoints s).

Definition set_temperature (s : Points) (p : nat) (t : Q) : Points :=
  mkPoints (ShipPointCount s) (CombustionStateBuffer s) (upd (TemperatureBuffer s) p t)
    (WaterBuffer s) (DecayBuffer s) (MaterialIgnitionTemperatureBuffer s)
    (MaterialHeatCapacityBuffer s) (PlaneIdBuffer s) (ConnectedSpringsBuffer s)
    (BurningPoints s).

Definition set_decay (s : Points) (p : nat) (d : Q) : Points :=
  mkPoints (ShipPointCount s) (CombustionStateBuffer s) (TemperatureBuffer s)
    (WaterBuffer s) (upd (DecayBuffer s) p d) (MaterialIgnitionTemperatureBuffer s)
    (MaterialHeatCapacityBuffer s) (PlaneIdBuffer s) (ConnectedSpringsBuffer s)
    (BurningPoints s).

Definition set_burning (s : Points) (l : list nat) : Points :=
  mkPoints (ShipPointCount s) (CombustionStateBuffer s) (TemperatureBuffer s)
    (WaterBuffer s) (DecayBuffer s) (MaterialIgnitionTemperatureBuffer s)
    (MaterialHeatCapacityBuffer s) (PlaneIdBuffer s) (ConnectedSpringsBuffer s) l.

(** What the passes take from outside the point store: the game
    parameters and [GameParameters] watermarks, the world's underwater test
    at each point's position, the decay factor [decayAlpha] the code
    computes from the material mass and [dt], [SmoothStep], the random
    personalities in the order of the ignitions, the combustion heat of
    the step and the directional coefficient [dirAlpha] of each spring. *)
Record Env := {
  IgnitionTemperatureAdjustment : Q;
  IgnitionTemperatureHighWatermark : Q;
  IgnitionTemperatureLowWatermark : Q;
  SmotheringWaterLowWatermark : Q;
  SmotheringWaterHighWatermark : Q;
  SmotheringDecayLowWatermark : Q;
  SmotheringDecayHighWatermark : Q;
  IsUnderwater : nat -> bool;
  DecayAlpha : nat -> Q;
  SmoothStep : Q -> Q -> Q -> Q;
  RandomNormalizedReal : nat -> Q;
  EffectiveCombustionHeat : Q;
  DirAlpha : nat -> nat -> Q }.

Definition Qltb (x y : Q) : bool := negb (Qle_bool y x).

(** A candidate for ignition: the point and its key. *)
Definition Candidate : Type := (nat * Q)%type.

(** The loop [for (p = pointOffset; p < mShipPointCount; p += pointStride)];
    [count] iterations are enough once the stride is at least 1. *)
Fixpoint StrideIndices (fuel p stride count : nat) : list nat :=
  match fuel with
  | O => []
  | S f => if (p <? count)%nat then p :: StrideIndices f (p + stride) stride count else []
  end.

Definition PointIndices (offset stride count : nat) : list nat :=
  StrideIndices count offset stride count.

(** [std::lower_bound] by plane ID followed by [insert]. *)
Fixpoint InsertByPlaneId (planeId : nat -> nat) (p : nat) (l : list nat) : list nat :=
  match l with
  | [] => [p]
  | q :: l' => if (planeId q <? planeId p)%nat then q :: InsertByPlaneId planeId p l' else p :: l
  end.

(** [std::find] followed by [erase]. *)
Fixpoint EraseFirst (p : nat) (l : list nat) : list nat :=
  match l with
  | [] => []
  | q :: l' => if (q =? p)%nat then l' else q :: EraseFirst p l'
  end.

(** The contract of [std::nth_element(first, first + n, last, comp)] with
    [comp] ordering by decreasing key: a permutation of the range, no
    element after position [n] with a key greater than one before it. *)
Definition NthElementSpec (n : nat) (l l' : list Candidate) : Prop :=
  Permutation l l' /\
  forall i j d, (i < n)%nat -> (n <= j < length l')%nat -> snd (nth j l' d) <= snd (nth i l' d).

Section Passes.
Variable e : Env.

Definition EffectiveIgnitionTemperature (s : Points) (p : nat) : Q :=
  MaterialIgnitionTemperatureBuffer s p * IgnitionTemperatureAdjustment e.

Definition IsIgnitionCandidate (s : Points) (p : nat) : bool :=
  Qle_bool (EffectiveIgnitionTemperature s p + IgnitionTemperatureHighWatermark e)
           (TemperatureBuffer s p)
  && negb (IsUnderwater e p)
  && Qltb (WaterBuffer s p) (SmotheringWaterLowWatermark e)
  && Qltb (SmotheringDecayHighWatermark e) (DecayBuffer s p).

Definition IgnitionKey (s : Points) (p : nat) : Q :=
  (TemperatureBuffer s p - EffectiveIgnitionTemperature s p) / EffectiveIgnitionTemperature s p.

(** Decay of a burning point and of its spring neighbours. *)
Definition DecayPointAndNeighbors (s : Points) (p : nat) : Points :=
  let decayAlpha := DecayAlpha e p in
  fold_left (fun s q => set_decay s q (DecayBuffer s q * decayAlpha))
    (ConnectedSpringsBuffer s p)
    (set_decay s p (DecayBuffer s p * decayAlpha)).

(** One iteration of the candidate loop of the low-frequency pass. *)
Definition LowFrequencyVisit (acc : Points * list Candidate) (p : nat)
    : Points * list Candidate :=
  let (s, candidates) := acc in
  let cs := CombustionStateBuffer s p in
  match State cs with
  | NotBurning =>
      if IsIgnitionCandidate s p
      then (s, candidates ++ [(p, IgnitionKey s p)])
      else (s, candidates)
  | Burning =>
      if Qle_bool (TemperatureBuffer s p)
                  (EffectiveIgnitionTemperature s p + IgnitionTemperatureLowWatermark e)
         || Qltb (DecayBuffer s p) (SmotheringDecayLowWatermark e)
      then (set_combustion_state s p (with_state cs Extinguishing_Consumed), candidates)
      else (DecayPointAndNeighbors s p, candidates)
  | _ => (s, candidates)
  end.

Definition LowFrequencyScan (offset stride : nat) (s : Points) : Points * list Candidate :=
  fold_left LowFrequencyVisit (PointIndices offset stride (ShipPointCount s)) (s, []).

(** [maxPoints], with [choice] the draw of [Choose(6)]. *)
Definition MaxIgnitions (MaxBurningParticles choice : nat) (s : Points)
    (candidates : list Candidate) : nat :=
  Nat.min
    (Nat.min (4 + choice)
       (if (length (BurningPoints s) <? MaxBurningParticles)%nat
        then MaxBurningParticles - length (BurningPoints s) else 0))
    (length candidates).

(** Ignition of the [i]-th selected candidate. *)
Definition Ignite (i : nat) (p : nat) (key : Q) (s : Points) : Points :=
  let flameDevelopment := (1#10) + (1#2) * SmoothStep e 0 2 key in
  let personality := RandomNormalizedReal e i in
  let deltaSizeDueToConnectedSprings :=
    inject_Z (Z.of_nat (length (ConnectedSpringsBuffer s p))) * (1#16) in
  let maxFlameDevelopment :=
    Qmax ((1#4) + deltaSizeDueToConnectedSprings + (1#2) * personality) flameDevelopment in
  let s1 := set_combustion_state s p
              (mkCombustionState Developing_1 flameDevelopment maxFlameDevelopment personality) in
  set_burning s1 (InsertByPlaneId (PlaneIdBuffer s1) p (BurningPoints s1)).

Fixpoint IgniteAll (i : nat) (l : list Candidate) (s : Points) : Points :=
  match l with
  | [] => s
  | (p, key) :: l' => IgniteAll (S i) l' (Ignite i p key s)
  end.

(** [UpdateCombustionLowFrequency]; [NthElement] is the arrangement
    [std::nth_element] makes of the candidates. *)
Definition UpdateCombustionLowFrequency (MaxBurningParticles choice : nat)
    (NthElement : nat -> list Candidate -> list Candidate)
    (offset stride : nat) (s : Points) : Points :=
  let scan := LowFrequencyScan offset stride s in
  let candidates := snd scan in
  let maxPoints := MaxIgnitions MaxBurningParticles choice (fst scan) candidates in
  IgniteAll 0 (firstn maxPoints (NthElement maxPoints candidates)) (fst scan).

(** Modelled from the spec: [SmotherCombustion] (declared in [Points.h])
    turns the combustion into extinction by smothering. *)
Definition SmotherCombustion (s : Points) (p : nat) : Points :=
  set_combustion_state s p (with_state (CombustionStateBuffer s p) Extinguishing_Smothered).

(** Heat of a burning point: its own temperature fixed, heat into each
    spring neighbour. *)
Definition GenerateHeat (s : Points) (p : nat) : Points :=
  fold_left (fun s q =>
      set_temperature s q
        (TemperatureBuffer s q
         + EffectiveCombustionHeat e * DirAlpha e p q / MaterialHeatCapacityBuffer s q))
    (ConnectedSpringsBuffer s p)
    (set_temperature s p (EffectiveIgnitionTemperature s p * (11#10))).

Definition IsSmotherable (st : StateType) : bool :=
  match st with
  | Developing_1 | Developing_2 | Burning | Extinguishing_Consumed => true
  | _ => false
  end.

(** First half of an iteration of the high-frequency loop: smothering
    check and heat generation. *)
Definition HighFrequencyCheck (s : Points) (p : nat) : Points :=
  let st := State (CombustionStateBuffer s p) in
  if IsSmotherable st
     && (IsUnderwater e p || Qltb (SmotheringWaterHighWatermark e) (WaterBuffer s p))
  then SmotherCombustion s p
  else match st with
       | Burning => GenerateHeat s p
       | _ => s
       end.

(** The flame development an extinguishing point is brought down to. *)
Definition ExtinguishedFlameDevelopment (cs : CombustionState) : Q :=
  match State cs with
  | Extinguishing_Consumed =>
      FlameDevelopment cs
      - (1#16) * (MaxFlameDevelopment cs - FlameDevelopment cs + (1#100))
  | _ => FlameDevelopment cs - (3#10) * FlameDevelopment cs
  end.

(** Second half: the development state machine ([switch]). *)
Definition HighFrequencyDevelop (s : Points) (p : nat) : Points :=
  let cs := CombustionStateBuffer s p in
  match State cs with
  | Developing_1 =>
      let fd := FlameDevelopment cs + (21#200) * FlameDevelopment cs in
      if Qltb (MaxFlameDevelopment cs + (1#5)) fd
      then set_combustion_state s p (with_state (with_flame_development cs fd) Developing_2)
      else set_combustion_state s p (with_flame_development cs fd)
  | Developing_2 =>
      let extra := FlameDevelopment cs - MaxFlameDevelopment cs in
      let extra' := extra - (1#5) * extra in
      if Qltb extra' (1#50)
      then set_combustion_state s p
             (with_state (with_flame_development cs (MaxFlameDevelopment cs)) Burning)
      else set_combustion_state s p (with_flame_development cs (MaxFlameDevelopment cs + extra'))
  | Extinguishing_Consumed | Extinguishing_Smothered =>
      let fd := ExtinguishedFlameDevelopment cs in
      if Qle_bool fd (1#50)
      then set_burning
             (set_combustion_state s p (with_state (with_flame_development cs fd) NotBurning))
             (EraseFirst p (BurningPoints s))
      else set_combustion_state s p (with_flame_development cs fd)
  | Burning | NotBurning => s
  end.

Definition HighFrequencyVisit (s : Points) (p : nat) : Points :=
  HighFrequencyDevelop (HighFrequencyCheck s p) p.

(** The iterations of the loop [for (auto const pointIndex : mBurningPoints)]
    of [UpdateCombustionHighFrequency], one [HighFrequencyVisit] per entry
    it reads, [visited] being the entries read, in order. The body erases
    from the vector the range-for iterates (on extinction); from then on
    its iterators are invalidated, and in practice it skips the entry that
    moved into the erased slot and reads the stale last slot. The points
    the loop visits are therefore not determined by the burning list, and
    the pass is modelled by its visits of whatever points it reads; the
    reachable states below likewise allow a visit of any point. *)
Definition HighFrequencyIterations (visited : list nat) (s : Points) : Points :=
  fold_left HighFrequencyVisit visited s.

End Passes.

Definition IsDevelopingOrBurning (cs : CombustionState) : bool :=
  match State cs with
  | Developing_1 | Developing_2 | Burning => true
  | _ => false
  end.

(** Number of points among [0, n) in a Developing or Burning state. *)
Definition ActiveCount (s : Points) (n : nat) : nat :=
  length (filter (fun p => IsDevelopingOrBurning (CombustionStateBuffer s p)) (seq 0 n)).

(** States of the combustion buffers: a fresh ship, the two passes (any
    random draw, any arrangement of the candidates), single visits of the
    high-frequency loop, the depth sort of the burning list, the reset of
    an ephemeral particle's combustion state on creation, and any other
    code, which changes neither a combustion state nor the burning list
    ([OnOrphaned] changes a flame development, the physics changes
    temperatures, water and decay). *)
Inductive Reachable (MaxBurningParticles : nat) : Points -> Prop :=
| R_init : forall s,
    BurningPoints s = [] ->
    (forall p, State (CombustionStateBuffer s p) = NotBurning) ->
    Reachable MaxBurningParticles s
| R_low_frequency : forall e choice nthElement offset stride s,
    Reachable MaxBurningParticles s ->
    Reachable MaxBurningParticles
      (UpdateCombustionLowFrequency e MaxBurningParticles choice nthElement offset stride s)
| R_high_frequency_visit : forall e s p,
    Reachable MaxBurningParticles s ->
    Reachable MaxBurningParticles (HighFrequencyVisit e s p)
| R_reorder : forall s l,
    Reachable MaxBurningParticles s ->
    Permutation (BurningPoints s) l ->
    Reachable MaxBurningParticles (set_burning s l)
| R_ephemeral_reset : forall s p,
    Reachable MaxBurningParticles s ->
    (ShipPointCount s <= p)%nat ->
    Reachable MaxBurningParticles (set_combustion_state s p DefaultCombustionState)
| R_other : forall s s',
    Reachable MaxBurningParticles s ->
    ShipPointCount s' = ShipPointCount s ->
    BurningPoints s' = BurningPoints s ->
    (forall p, State (CombustionStateBuffer s' p) = State (CombustionStateBuffer s p)) ->
    Reachable MaxBurningParticles s'.

(** The order [ReorderBurningPointsForDepth] sorts the burning list in
    ([std::sort] with [mPlaneIdBuffer[p1] < mPlaneIdBuffer[p2]]), which the
    insertions of [UpdateCombustionLowFrequency] keep: no entry has a
    greater plane ID than the one after it. *)
Definition SortedByPlaneId (s : Points) : Prop :=
  Sorted (fun p1 p2 => (PlaneIdBuffer s p1 <= PlaneIdBuffer s p2)%nat) (BurningPoints s).

(** [ReorderBurningPointsForDepth]: [std::sort] gives some sorted
    arrangement of the burning list (not a stable one). *)
Definition ReorderBurningPointsForDepth (s s' : Points) : Prop :=
  exists l, s' = set_burning s l /\ Permutation (BurningPoints s) l /\
            Sorted (fun p1 p2 => (PlaneIdBuffer s p1 <= PlaneIdBuffer s p2)%nat) l.

End Combustion.

(* ================================================================== *)
(** * Proofs *)

Lemma upd_eq {A} (f : nat -> A) i v : upd f i v i = v.
Proof. unfold upd. now rewrite Nat.eqb_refl. Qed.

Lemma upd_neq {A} (f : nat -> A) i j v : j <> i -> upd f i v j = f j.
Proof. intros H. unfold upd. destruct (Nat.eqb_spec j i); congruence. Qed.

(** ** Ephemeral pool *)

Module EphemeralPoolProofs.
Import EphemeralPool.

Section Cyclic.
Variable s : Pool.
Let n := (AllPointCount s - ShipPointCount s)%nat.
Let start := FreeEphemeralParticleSearchStartIndex s.
Hypothesis Hstart : in_region s start.

(** The [k]-th slot the search loop visits. *)
Definition cyc (k : nat) : nat :=
  (ShipPointCount s + (start - ShipPointCount s + k) mod n)%nat.

Lemma n_pos : (0 < n)%nat.
Proof. unfold n; destruct Hstart; lia. Qed.

Lemma cyc_region k : in_region s (cyc k).
Proof.
  pose proof n_pos. unfold in_region, cyc.
  pose proof (Nat.mod_upper_bound (start - ShipPointCount s + k) n ltac:(lia)).
  unfold n in *; lia.
Qed.

Lemma cyc_0 : cyc 0 = start.
Proof.
  pose proof n_pos. unfold cyc. rewrite Nat.add_0_r, Nat.mod_small.
  - destruct Hstart; lia.
  - unfold n; destruct Hstart; lia.
Qed.

Lemma wrap_cyc k : wrap s (cyc k + 1) = cyc (S k).
Proof.
  pose proof n_pos as Hn. unfold wrap, cyc.
  set (a := (start - ShipPointCount s + k)%nat).
  replace (start - ShipPointCount s + S k)%nat with (a + 1)%nat by (unfold a; lia).
  rewrite <- (Nat.Div0.add_mod_idemp_l a 1 n) by lia.
  pose proof (Nat.mod_upper_bound a n ltac:(lia)).
  destruct (Nat.eq_dec (a mod n + 1) n) as [E|E].
  - rewrite E, Nat.Div0.mod_same by lia.
    replace (AllPointCount s <=? ShipPointCount s + a mod n + 1) with true.
    + lia.
    + symmetry; apply Nat.leb_le; unfold n in *; lia.
  - rewrite (Nat.mod_small (a mod n + 1)) by lia.
    replace (AllPointCount s <=? ShipPointCount s + a mod n + 1) with false.
    + lia.
    + symmetry; apply Nat.leb_gt; unfold n in *; lia.
Qed.

Lemma cyc_ne_start k : (0 < k < n)%nat -> cyc k <> start.
Proof.
  intros Hk. pose proof n_pos. unfold cyc.
  set (a := (start - ShipPointCount s)%nat).
  assert (Ha : (a < n)%nat) by (unfold a, n; destruct Hstart; lia).
  pose proof (Nat.div_mod_eq (a + k) n).
  pose proof (Nat.mod_upper_bound (a + k) n ltac:(lia)).
  set (q := ((a + k) / n)%nat) in *.
  set (r := ((a + k) mod n)%nat) in *.
  assert (q = 0 \/ q = 1)%nat as [Hq|Hq] by nia;
    rewrite Hq in *; destruct Hstart; unfold a in *; lia.
Qed.

Lemma cyc_n : cyc n = start.
Proof.
  pose proof n_pos. unfold cyc.
  replace (start - ShipPointCount s + n)%nat
    with ((start - ShipPointCount s) + 1 * n)%nat by lia.
  rewrite Nat.Div0.mod_add, Nat.mod_small by (unfold n; destruct Hstart; lia).
  destruct Hstart; lia.
Qed.

Lemma cyc_surj q : in_region s q -> exists k, (k < n)%nat /\ cyc k = q.
Proof.
  intros Hq. pose proof n_pos.
  set (a := (start - ShipPointCount s)%nat).
  set (b := (q - ShipPointCount s)%nat).
  assert (Ha : (a < n)%nat) by (unfold a, n; destruct Hstart; lia).
  assert (Hb : (b < n)%nat) by (unfold b, n; destruct Hq; lia).
  exists ((b + n - a) mod n)%nat. split.
  - apply Nat.mod_upper_bound; lia.
  - unfold cyc. fold a.
    rewrite Nat.Div0.add_mod_idemp_r by lia.
    replace (a + (b + n - a))%nat with (b + 1 * n)%nat by lia.
    rewrite Nat.Div0.mod_add, Nat.mod_small by lia.
    unfold b; destruct Hq; lia.
Qed.

Definition lifetime (now : Q) (p : nat) : Q := now - EphemeralStartTimeBuffer s p.

Lemma lifetime_unfold now p : now - EphemeralStartTimeBuffer s p = lifetime now p.
Proof. reflexivity. Qed.

(** The search loop started at the [k]-th slot with [m] iterations left. *)
Lemma scan_spec : forall m k now o olt,
  (k + m = n)%nat -> (0 < m)%nat ->
  (forall q, scan m s now (cyc k) o olt = Found q ->
     in_region s q /\ EphemeralTypeBuffer s q = None_) /\
  (forall o', scan m s now (cyc k) o olt = WentAround o' ->
     (forall j, (k <= j < n)%nat -> EphemeralTypeBuffer s (cyc j) <> None_) /\
     ((forall j, (k <= j < n)%nat -> 0 <= lifetime now (cyc j)) ->
      (o = None -> olt = 0) ->
      (forall q, o = Some q -> in_region s q /\ olt = lifetime now q) ->
      exists q, o' = Some q /\ in_region s q /\ olt <= lifetime now q /\
        forall j, (k <= j < n)%nat -> lifetime now (cyc j) <= lifetime now q)).
Proof.
  induction m as [|m IH]; intros k now o olt Hkm Hm; [lia|].
  cbn [scan]. rewrite wrap_cyc, lifetime_unfold.
  destruct (is_none (EphemeralTypeBuffer s (cyc k))) eqn:Et.
  { split.
    - intros q Hq; injection Hq as <-. split; [apply cyc_region|].
      destruct (EphemeralTypeBuffer s (cyc k)); easy.
    - intros o' Hq; discriminate. }
  assert (Hocc : EphemeralTypeBuffer s (cyc k) <> None_)
    by (intros E; rewrite E in Et; discriminate).
  (* the oldest particle after looking at slot [cyc k] *)
  assert (Hstep : forall o1 olt1,
    (if Qle_bool olt (lifetime now (cyc k))
     then (Some (cyc k), lifetime now (cyc k)) else (o, olt)) = (o1, olt1) ->
    0 <= lifetime now (cyc k) ->
    (o = None -> olt = 0) ->
    (forall q, o = Some q -> in_region s q /\ olt = lifetime now q) ->
    olt <= olt1 /\ lifetime now (cyc k) <= olt1 /\
    (o1 = None -> olt1 = 0) /\
    (exists q, o1 = Some q /\ in_region s q /\ olt1 = lifetime now q)).
  { intros o1 olt1 Hp H0 Hnone Hsome.
    destruct (Qle_bool olt (lifetime now (cyc k))) eqn:Hle.
    - injection Hp as <- <-. apply Qle_bool_iff in Hle.
      repeat split; [exact Hle|apply Qle_refl|discriminate|].
      exists (cyc k); split; [reflexivity|]; split; [apply cyc_region|reflexivity].
    - injection Hp as <- <-.
      assert (Hgt : lifetime now (cyc k) < olt).
      { apply Qnot_le_lt. intros Hc. apply Qle_bool_iff in Hc. congruence. }
      destruct o as [q|].
      + destruct (Hsome q eq_refl) as [Hq1 Hq2].
        repeat split; [apply Qle_refl|apply Qlt_le_weak; exact Hgt|discriminate|].
        exists q; split; [reflexivity|]; split; [exact Hq1|exact Hq2].
      + exfalso. rewrite (Hnone eq_refl) in Hgt.
        apply (Qlt_not_le _ _ Hgt H0). }
  destruct (if Qle_bool olt (lifetime now (cyc k))
            then (Some (cyc k), lifetime now (cyc k)) else (o, olt))
    as [o1 olt1] eqn:Hp.
  specialize (Hstep o1 olt1 eq_refl).
  destruct (Nat.eq_dec (S k) n) as [Ek|Ek].
  - rewrite Ek, cyc_n. fold start. rewrite Nat.eqb_refl.
    split; [intros q Hq; discriminate|].
    intros o' Hq; injection Hq as <-. split.
    + intros j Hj. replace j with k by lia. exact Hocc.
    + intros Hlt Hnone Hsome.
      destruct (Hstep (Hlt k ltac:(lia)) Hnone Hsome) as (H1 & H2 & _ & q & -> & Hq1 & Hq2).
      exists q. split; [reflexivity|]. split; [exact Hq1|].
      rewrite <- Hq2. split; [exact H1|].
      intros j Hj. replace j with k by lia. exact H2.
  - assert (Hne : Nat.eqb (cyc (S k)) start = false)
      by (apply Nat.eqb_neq, cyc_ne_start; lia).
    fold start. rewrite Hne.
    destruct (IH (S k) now o1 olt1 ltac:(lia) ltac:(lia)) as [IH1 IH2].
    split; [exact IH1|].
    intros o' Hq. destruct (IH2 o' Hq) as [IHa IHb]. split.
    + intros j Hj. destruct (Nat.eq_dec j k) as [->|Hjk]; [exact Hocc|].
      apply IHa; lia.
    + intros Hlt Hnone Hsome.
      destruct (Hstep (Hlt k ltac:(lia)) Hnone Hsome) as (H1 & H2 & H3 & q1 & Hq1 & Hq1r & Hq1l).
      destruct IHb as (q & Hqo & Hqr & Hq3 & Hq4).
      * intros j Hj; apply Hlt; lia.
      * exact H3.
      * intros q' E; rewrite Hq1 in E; injection E as <-. split; assumption.
      * exists q. split; [exact Hqo|]. split; [exact Hqr|].
        split; [eapply Qle_trans; eassumption|].
        intros j Hj. destruct (Nat.eq_dec j k) as [->|Hjk].
        -- eapply Qle_trans; eassumption.
        -- apply Hq4; lia.
Qed.

End Cyclic.

(** The whole search from [FreeEphemeralParticleSearchStartIndex]. *)
Lemma scan_full s now :
  in_region s (FreeEphemeralParticleSearchStartIndex s) ->
  (forall q, scan (AllPointCount s - ShipPointCount s) s now
               (FreeEphemeralParticleSearchStartIndex s) None 0 = Found q ->
     in_region s q /\ EphemeralTypeBuffer s q = None_) /\
  (forall o', scan (AllPointCount s - ShipPointCount s) s now
               (FreeEphemeralParticleSearchStartIndex s) None 0 = WentAround o' ->
     (forall q, in_region s q -> EphemeralTypeBuffer s q <> None_) /\
     ((forall q, in_region s q -> EphemeralStartTimeBuffer s q <= now) ->
      exists p, o' = Some p /\ in_region s p /\
        forall q, in_region s q ->
          now - EphemeralStartTimeBuffer s q <= now - EphemeralStartTimeBuffer s p)).
Proof.
  intros Hstart.
  pose proof (n_pos s Hstart) as Hn.
  destruct (scan_spec s Hstart (AllPointCount s - ShipPointCount s) 0 now None 0
              ltac:(lia) Hn) as [H1 H2].
  rewrite (cyc_0 s Hstart) in H1, H2.
  split; [exact H1|].
  intros o' Ho. destruct (H2 o' Ho) as [Ha Hb]. split.
  - intros q Hq. destruct (cyc_surj s Hstart q Hq) as (k & Hk & <-). apply Ha; lia.
  - intros Ht. destruct Hb as (p & -> & Hp & _ & Hmax).
    + intros j Hj. unfold lifetime. specialize (Ht _ (cyc_region s Hstart j)). lra.
    + reflexivity.
    + discriminate.
    + exists p. split; [reflexivity|]. split; [exact Hp|].
      intros q Hq. destruct (cyc_surj s Hstart q Hq) as (k & Hk & <-).
      apply (Hmax k); lia.
Qed.

(** What an allocation does to the pool, when the search index is an
    ephemeral slot and no start time lies in the future. *)
Lemma FindFree_result s now force :
  in_region s (FreeEphemeralParticleSearchStartIndex s) ->
  (forall q, in_region s q -> EphemeralStartTimeBuffer s q <= now) ->
  (forall p, fst (FindFreeEphemeralParticle s now force) = Some p -> in_region s p) /\
  in_region s (FreeEphemeralParticleSearchStartIndex (snd (FindFreeEphemeralParticle s now force))) /\
  ShipPointCount (snd (FindFreeEphemeralParticle s now force)) = ShipPointCount s /\
  AllPointCount (snd (FindFreeEphemeralParticle s now force)) = AllPointCount s /\
  EphemeralTypeBuffer (snd (FindFreeEphemeralParticle s now force)) = EphemeralTypeBuffer s /\
  EphemeralStartTimeBuffer (snd (FindFreeEphemeralParticle s now force)) = EphemeralStartTimeBuffer s.
Proof.
  intros Hstart Ht.
  destruct (scan_full s now Hstart) as [Hf Hw].
  assert (Hwrap : forall p, in_region s p -> in_region s (wrap s (p + 1))).
  { intros p [Hp1 Hp2]. unfold wrap, in_region.
    destruct (AllPointCount s <=? p + 1) eqn:E;
      [apply Nat.leb_le in E | apply Nat.leb_gt in E]; destruct Hstart; lia. }
  unfold FindFreeEphemeralParticle.
  destruct (scan _ s now _ None 0) as [q|o'] eqn:Hs.
  - destruct (Hf q eq_refl) as [Hq _]. cbn.
    split; [intros p0 E; injection E as <-; exact Hq|].
    split; [apply Hwrap; exact Hq|]. auto.
  - destruct (Hw o' eq_refl) as [_ Hb]. destruct force; cbn.
    + destruct (Hb Ht) as (p & -> & Hp & _). cbn.
      split; [intros p0 E; injection E as <-; exact Hp|].
      split; [apply Hwrap; exact Hp|]. auto.
    + split; [intros p0 E; discriminate|]. auto.
Qed.

(** The invariant of every reachable pool. *)
Lemma Reachable_inv s t :
  Reachable s t ->
  (ShipPointCount s < AllPointCount s)%nat /\
  in_region s (FreeEphemeralParticleSearchStartIndex s) /\
  (forall p, EphemeralStartTimeBuffer s p <= t).
Proof.
  induction 1 as [s t Hn Hs Ht
                 | s t t' force kind ml p s' _ IH Htt' Hf
                 | s t t' force s' _ IH Htt' Hf
                 | s t p _ IH Hp
                 | s t t' _ IH Htt'].
  - auto.
  - destruct IH as (Hn & Hs & Ht).
    assert (Ht' : forall q, in_region s q -> EphemeralStartTimeBuffer s q <= t')
      by (intros q _; eapply Qle_trans; [apply Ht|exact Htt']).
    destruct (FindFree_result s t' force Hs Ht') as (_ & H2 & H3 & H4 & _ & H6).
    rewrite Hf in H2, H3, H4, H6; cbn in H2, H3, H4, H6.
    unfold occupy, in_region in *; cbn. repeat split; try lia.
    intros q. unfold upd. destruct (Nat.eqb q p); [apply Qle_refl|].
    rewrite H6. eapply Qle_trans; [apply Ht|exact Htt'].
  - destruct IH as (Hn & Hs & Ht).
    assert (Ht' : forall q, in_region s q -> EphemeralStartTimeBuffer s q <= t')
      by (intros q _; eapply Qle_trans; [apply Ht|exact Htt']).
    destruct (FindFree_result s t' force Hs Ht') as (_ & H2 & H3 & H4 & _ & H6).
    rewrite Hf in H2, H3, H4, H6; cbn in H2, H3, H4, H6.
    unfold in_region in *. repeat split; try lia.
    intros q. rewrite H6. eapply Qle_trans; [apply Ht|exact Htt'].
  - destruct IH as (Hn & Hs & Ht). unfold expire, in_region in *; cbn. auto.
  - destruct IH as (Hn & Hs & Ht). split; [exact Hn|]. split; [exact Hs|].
    intros q. eapply Qle_trans; [apply Ht|exact Htt'].
Qed.

(** C3: an allocation request on a reachable pool at the current
    simulation time returns a free ephemeral slot when there is one; when
    there is none it returns no index without touching the pool unless
    [force] is set (and the air-bubble spawn is then dropped), and with
    [force] it returns the occupied slot with the greatest
    [now - start_time] among all ephemeral slots. *)
Theorem FindFreeEphemeralParticle_allocation (s : Pool) (t now : Q) :
  Reachable s t -> t <= now ->
  ((exists q, in_region s q /\ EphemeralTypeBuffer s q = None_) ->
   forall force, exists p,
     fst (FindFreeEphemeralParticle s now force) = Some p /\
     in_region s p /\ EphemeralTypeBuffer s p = None_) /\
  ((forall q, in_region s q -> EphemeralTypeBuffer s q <> None_) ->
   FindFreeEphemeralParticle s now false = (None, s) /\
   CreateEphemeralParticleAirBubble s now = s) /\
  ((forall q, in_region s q -> EphemeralTypeBuffer s q <> None_) ->
   exists p,
     fst (FindFreeEphemeralParticle s now true) = Some p /\ in_region s p /\
     forall q, in_region s q ->
       now - EphemeralStartTimeBuffer s q <= now - EphemeralStartTimeBuffer s p).
Proof.
  intros Hr Htn. destruct (Reachable_inv s t Hr) as (_ & Hstart & Ht).
  assert (Hnow : forall q, in_region s q -> EphemeralStartTimeBuffer s q <= now)
    by (intros q _; eapply Qle_trans; [apply Ht|exact Htn]).
  destruct (scan_full s now Hstart) as [Hf Hw].
  split; [|split].
  - intros (q & Hq & Hfree) force. unfold FindFreeEphemeralParticle.
    destruct (scan _ s now _ None 0) as [p|o'] eqn:Hs.
    + exists p. split; [reflexivity|]. apply Hf; reflexivity.
    + exfalso. destruct (Hw o' eq_refl) as [Hocc _]. exact (Hocc q Hq Hfree).
  - intros Hall.
    assert (E : FindFreeEphemeralParticle s now false = (None, s)).
    { unfold FindFreeEphemeralParticle.
      destruct (scan _ s now _ None 0) as [p|o'] eqn:Hs; [|reflexivity].
      exfalso. destruct (Hf p eq_refl) as [Hp Hfree]. exact (Hall p Hp Hfree). }
    split; [exact E|]. unfold CreateEphemeralParticleAirBubble. now rewrite E.
  - intros Hall. unfold FindFreeEphemeralParticle.
    destruct (scan _ s now _ None 0) as [p|o'] eqn:Hs.
    + exfalso. destruct (Hf p eq_refl) as [Hp Hfree]. exact (Hall p Hp Hfree).
    + destruct (Hw o' eq_refl) as [_ Hb]. destruct (Hb Hnow) as (p & -> & Hp & Hmax).
      exists p. split; [reflexivity|]. split; assumption.
Qed.

(** A small pool: ship points [0, 2), ephemeral slots [2, 4); slot 2
    holds debris started at time 1, slot 3 is free. *)
Definition pool_example : Pool :=
  {| ShipPointCount := 2;
     AllPointCount := 4;
     EphemeralTypeBuffer := fun p => if Nat.eqb p 2 then Debris else None_;
     EphemeralStartTimeBuffer := fun p => if Nat.eqb p 2 then 1 else 0;
     EphemeralMaxLifetimeBuffer := fun _ => 0;
     FreeEphemeralParticleSearchStartIndex := 2 |}.

Lemma pool_example_reachable : Reachable pool_example 1.
Proof.
  apply R_init.
  - cbn; lia.
  - unfold in_region; cbn; lia.
  - intros p; cbn; destruct (Nat.eqb p 2); cbv; discriminate.
Defined.

Lemma FindFreeEphemeralParticle_allocation_witness :
  Reachable pool_example 1 /\ 1 <= 2 /\
  FindFreeEphemeralParticle pool_example 2 false = (Some 3%nat, set_search_start pool_example 2) /\
  (exists p, fst (FindFreeEphemeralParticle pool_example 2 false) = Some p /\
     in_region pool_example p /\ EphemeralTypeBuffer pool_example p = None_).
Proof.
  split; [exact pool_example_reachable|]. split; [cbv; discriminate|].
  split; [reflexivity|].
  apply (FindFreeEphemeralParticle_allocation pool_example 1 2
           pool_example_reachable ltac:(cbv; discriminate)).
  - exists 3%nat. split; [unfold in_region; cbn; lia|reflexivity].
Defined.

(** C10: the free-slot search index always lies in the ephemeral region,
    before an allocation and after it, whether the allocation finds a
    free slot, steals one or fails. *)
Theorem search_start_in_region (s : Pool) (t now : Q) (force : bool) :
  Reachable s t -> t <= now ->
  in_region s (FreeEphemeralParticleSearchStartIndex s) /\
  in_region (snd (FindFreeEphemeralParticle s now force))
    (FreeEphemeralParticleSearchStartIndex (snd (FindFreeEphemeralParticle s now force))).
Proof.
  intros Hr Htn. destruct (Reachable_inv s t Hr) as (_ & Hstart & Ht).
  assert (Hnow : forall q, in_region s q -> EphemeralStartTimeBuffer s q <= now)
    by (intros q _; eapply Qle_trans; [apply Ht|exact Htn]).
  destruct (FindFree_result s now force Hstart Hnow) as (_ & H2 & H3 & H4 & _).
  split; [exact Hstart|].
  unfold in_region in *. rewrite H3, H4. exact H2.
Qed.

(** Every pool the allocator produces is reachable again, so the index
    stays in the region along whole allocation sequences. *)
Lemma search_start_in_region_witness :
  Reachable pool_example 1 /\ 1 <= 2 /\
  in_region pool_example (FreeEphemeralParticleSearchStartIndex pool_example) /\
  in_region (snd (FindFreeEphemeralParticle pool_example 2 true))
    (FreeEphemeralParticleSearchStartIndex (snd (FindFreeEphemeralParticle pool_example 2 true))).
Proof.
  split; [exact pool_example_reachable|]. split; [cbv; discriminate|].
  apply (search_start_in_region pool_example 1 2 true
           pool_example_reachable ltac:(cbv; discriminate)).
Defined.

End EphemeralPoolProofs.

(** ** Masses and detachment *)

Module ParticlesProofs.
Import Particles.

Lemma fold_update_mass_out gp l s i :
  ~ In i l ->
  MassBuffer (fold_left (update_mass gp) l s) i = MassBuffer s i /\
  IntegrationFactorBuffer (fold_left (update_mass gp) l s) i = IntegrationFactorBuffer s i.
Proof.
  revert s. induction l as [|j l IH]; intros s Hi; [auto|].
  cbn [fold_left]. destruct (IH (update_mass gp s j)) as [H1 H2].
  { intros Hc; apply Hi; right; exact Hc. }
  rewrite H1, H2. unfold update_mass, set_mass_and_integration_factor; cbn.
  rewrite !upd_neq by (intros ->; apply Hi; left; reflexivity). auto.
Qed.

(** Every field but the mass and the integration factor passes through. *)
Lemma fold_update_mass_frame gp l s :
  let s' := fold_left (update_mass gp) l s in
  ElementCount s' = ElementCount s /\ PositionBuffer s' = PositionBuffer s /\
  VelocityBuffer s' = VelocityBuffer s /\ ForceBuffer s' = ForceBuffer s /\
  AugmentedMaterialMassBuffer s' = AugmentedMaterialMassBuffer s /\
  DecayBuffer s' = DecayBuffer s /\
  IntegrationFactorTimeCoefficientBuffer s' = IntegrationFactorTimeCoefficientBuffer s /\
  MaterialWaterVolumeFillBuffer s' = MaterialWaterVolumeFillBuffer s /\
  WaterBuffer s' = WaterBuffer s /\ TemperatureBuffer s' = TemperatureBuffer s /\
  IsPinnedBuffer s' = IsPinnedBuffer s /\ ConnectedSpringsBuffer s' = ConnectedSpringsBuffer s.
Proof.
  revert s. induction l as [|j l IH]; intros s; cbn [fold_left].
  - repeat split.
  - destruct (IH (update_mass gp s j)) as (H1 & H2 & H3 & H4 & H5 & H6 & H7 & H8 & H9 & H10 & H11 & H12).
    rewrite H1, H2, H3, H4, H5, H6, H7, H8, H9, H10, H11, H12.
    repeat split.
Qed.

Lemma fold_update_mass_in gp l s i :
  In i l -> NoDup l ->
  let s' := fold_left (update_mass gp) l s in
  let mass := AugmentedMaterialMassBuffer s i
     + Qmin (WaterBuffer s i) (MaterialWaterVolumeFillBuffer s i)
       * (WaterMass gp * WaterDensityAdjustment gp) in
  MassBuffer s' i = mass /\
  IntegrationFactorBuffer s' i =
    (IntegrationFactorTimeCoefficientBuffer s i / mass,
     IntegrationFactorTimeCoefficientBuffer s i / mass).
Proof.
  revert s. induction l as [|j l IH]; intros s Hi Hnd; [destruct Hi|].
  cbn [fold_left]. inversion Hnd as [|? ? Hj Hnd']; subst.
  destruct Hi as [->|Hi].
  - destruct (fold_update_mass_out gp l (update_mass gp s i) i Hj) as [H1 H2].
    rewrite H1, H2. unfold update_mass, set_mass_and_integration_factor; cbn.
    rewrite !upd_eq. auto.
  - destruct (IH (update_mass gp s j) Hi Hnd') as [H1 H2]. cbn zeta in H1, H2.
    rewrite H1, H2. unfold update_mass, set_mass_and_integration_factor; cbn. auto.
Qed.

(** C6: [UpdateMasses] sets the current mass of every element it iterates
    over to augmented material mass plus [min(water, water-volume-fill)]
    times the density-adjusted water mass, sets its integration factor to
    the time coefficient over that mass, and changes no other field. *)
Theorem UpdateMasses_spec (gp : MassParameters) (s : Points) :
  let s' := UpdateMasses gp s in
  (forall i, (i < ElementCount s)%nat ->
     let mass := AugmentedMaterialMassBuffer s i
        + Qmin (WaterBuffer s i) (MaterialWaterVolumeFillBuffer s i)
          * (WaterMass gp * WaterDensityAdjustment gp) in
     MassBuffer s' i = mass /\
     IntegrationFactorBuffer s' i =
       (IntegrationFactorTimeCoefficientBuffer s i / mass,
        IntegrationFactorTimeCoefficientBuffer s i / mass)) /\
  (forall i, (ElementCount s <= i)%nat ->
     MassBuffer s' i = MassBuffer s i /\
     IntegrationFactorBuffer s' i = IntegrationFactorBuffer s i) /\
  ElementCount s' = ElementCount s /\ PositionBuffer s' = PositionBuffer s /\
  VelocityBuffer s' = VelocityBuffer s /\ ForceBuffer s' = ForceBuffer s /\
  AugmentedMaterialMassBuffer s' = AugmentedMaterialMassBuffer s /\
  DecayBuffer s' = DecayBuffer s /\
  IntegrationFactorTimeCoefficientBuffer s' = IntegrationFactorTimeCoefficientBuffer s /\
  MaterialWaterVolumeFillBuffer s' = MaterialWaterVolumeFillBuffer s /\
  WaterBuffer s' = WaterBuffer s /\ TemperatureBuffer s' = TemperatureBuffer s /\
  IsPinnedBuffer s' = IsPinnedBuffer s /\ ConnectedSpringsBuffer s' = ConnectedSpringsBuffer s.
Proof.
  cbv zeta. unfold UpdateMasses. split; [|split].
  - intros i Hi. apply fold_update_mass_in.
    + apply in_seq; lia.
    + apply seq_NoDup.
  - intros i Hi. apply fold_update_mass_out. rewrite in_seq. lia.
  - apply fold_update_mass_frame.
Qed.

(** Two elements: a dry one and a soaked, pinned one. *)
Definition points_example : Points :=
  {| ElementCount := 2;
     PositionBuffer := fun _ => (0, 0);
     VelocityBuffer := fun _ => (0, 0);
     ForceBuffer := fun _ => (0, 0);
     AugmentedMaterialMassBuffer := fun _ => 10;
     MassBuffer := fun _ => 10;
     DecayBuffer := fun _ => 1;
     IntegrationFactorTimeCoefficientBuffer := fun _ => 2;
     IntegrationFactorBuffer := fun _ => (0, 0);
     MaterialWaterVolumeFillBuffer := fun _ => 1;
     WaterBuffer := fun i => if Nat.eqb i 1 then 3 else 0;
     TemperatureBuffer := fun _ => 298;
     IsPinnedBuffer := fun i => Nat.eqb i 1;
     ConnectedSpringsBuffer := fun _ => [] |}.

Definition mass_parameters_example : MassParameters :=
  {| WaterMass := 1000; WaterDensityAdjustment := 1 |}.

Lemma UpdateMasses_spec_witness :
  (1 < ElementCount points_example)%nat /\
  MassBuffer (UpdateMasses mass_parameters_example points_example) 1 = 10 + Qmin 3 1 * (1000 * 1).
Proof.
  split; [cbn; lia|].
  apply (proj1 (UpdateMasses_spec mass_parameters_example points_example) 1%nat).
  cbn; lia.
Defined.

(** C7: [Detach] runs the detach handler first (when one is installed),
    then imprints the given velocity on the particle if and only if it is
    not pinned; a pinned particle keeps its velocity, no other particle's
    velocity and no other field changes, and the call is total. *)
Theorem Detach_spec (handler : option DetachHandler) (s : Points) (i : nat)
    (v : vec2f) (opts : DetachOptions) (now : Q) :
  let s1 := InvokeDetachHandler handler s i opts now in
  let s' := Detach handler s i v opts now in
  VelocityBuffer s' i = (if IsPinnedBuffer s1 i then VelocityBuffer s1 i else v) /\
  (forall j, j <> i -> VelocityBuffer s' j = VelocityBuffer s1 j) /\
  ElementCount s' = ElementCount s1 /\ PositionBuffer s' = PositionBuffer s1 /\
  ForceBuffer s' = ForceBuffer s1 /\
  AugmentedMaterialMassBuffer s' = AugmentedMaterialMassBuffer s1 /\
  MassBuffer s' = MassBuffer s1 /\ DecayBuffer s' = DecayBuffer s1 /\
  IntegrationFactorTimeCoefficientBuffer s' = IntegrationFactorTimeCoefficientBuffer s1 /\
  IntegrationFactorBuffer s' = IntegrationFactorBuffer s1 /\
  MaterialWaterVolumeFillBuffer s' = MaterialWaterVolumeFillBuffer s1 /\
  WaterBuffer s' = WaterBuffer s1 /\ TemperatureBuffer s' = TemperatureBuffer s1 /\
  IsPinnedBuffer s' = IsPinnedBuffer s1 /\
  ConnectedSpringsBuffer s' = ConnectedSpringsBuffer s1.
Proof.
  cbv zeta. unfold Detach.
  set (s1 := InvokeDetachHandler handler s i opts now).
  destruct (IsPinnedBuffer s1 i) eqn:Hp; cbn [negb].
  - repeat split; reflexivity.
  - unfold set_velocity; cbn. rewrite upd_eq. split; [reflexivity|].
    split; [intros j Hj; apply upd_neq; exact Hj|]. repeat split.
Qed.

(** A handler that cuts all springs of the detached point. *)
Definition sever_springs : DetachHandler :=
  fun i _ _ _ s =>
    {| ElementCount := ElementCount s;
       PositionBuffer := PositionBuffer s;
       VelocityBuffer := VelocityBuffer s;
       ForceBuffer := ForceBuffer s;
       AugmentedMaterialMassBuffer := AugmentedMaterialMassBuffer s;
       MassBuffer := MassBuffer s;
       DecayBuffer := DecayBuffer s;
       IntegrationFactorTimeCoefficientBuffer := IntegrationFactorTimeCoefficientBuffer s;
       IntegrationFactorBuffer := IntegrationFactorBuffer s;
       MaterialWaterVolumeFillBuffer := MaterialWaterVolumeFillBuffer s;
       WaterBuffer := WaterBuffer s;
       TemperatureBuffer := TemperatureBuffer s;
       IsPinnedBuffer := IsPinnedBuffer s;
       ConnectedSpringsBuffer := upd (ConnectedSpringsBuffer s) i [] |}.

Lemma Detach_spec_witness :
  (0 <> 1)%nat /\
  VelocityBuffer (Detach (Some sever_springs) points_example 1 (5, 5)
                    {| GenerateDebris := true; FireDestroyEvent := false |} 0) 0
  = VelocityBuffer (InvokeDetachHandler (Some sever_springs) points_example 1
                    {| GenerateDebris := true; FireDestroyEvent := false |} 0) 0.
Proof.
  split; [lia|].
  apply (proj1 (proj2 (Detach_spec (Some sever_springs) points_example 1 (5, 5)
           {| GenerateDebris := true; FireDestroyEvent := false |} 0)) 0%nat).
  lia.
Defined.

End ParticlesProofs.

(** ** Game loop *)

Module GameLoopProofs.
Import GameLoop.

(** Counters for smoothers and world; events are numbers. *)
Definition counting_ops : Collaborators nat nat nat :=
  {| SmootherUpdate := fun _ x => S x;
     WorldUpdate := fun w => (S w, [w]);
     UpdateStateMachines := fun w => w |}.

(** A paused controller with one smoother and one event waiting. *)
Definition paused_controller : Controller nat nat nat :=
  Build_Controller true false true 5 [0%nat] 0%nat [7%nat] [] 0.

(** C4, refuted as stated: in a paused iteration the smoother is not
    processed and the queued event is not flushed. *)
Lemma paused_iteration_counterexample :
  ~ PausedIterationAsSpecified counting_ops paused_controller.
Proof.
  unfold PausedIterationAsSpecified. cbn. intros (_ & H & _). discriminate.
Qed.

(** C4, amended: while paused, or while the move tool is engaged, a game
    iteration skips [InternalUpdate] altogether: smoothers, world and event
    queue are left as they are and only a frame is rendered; [SetPaused]
    freezes the wall clock together with the paused flag. *)
Theorem paused_iteration_only_renders {Smoother World Event : Type}
    (ops : Collaborators Smoother World Event)
    (c : Controller Smoother World Event) :
  (IsPaused c = true \/ IsMoveToolEngaged c = true ->
   let c' := RunGameIteration ops c in
   TheWorld c' = TheWorld c /\ ParameterSmoothers c' = ParameterSmoothers c /\
   QueuedEvents c' = QueuedEvents c /\ DispatchedEvents c' = DispatchedEvents c /\
   WallClockNow c' = WallClockNow c /\ TotalFrameCount c' = S (TotalFrameCount c)) /\
  (forall b, WallClockPaused (SetPaused c b) = b /\ IsPaused (SetPaused c b) = b) /\
  (IsPaused c = false -> IsMoveToolEngaged c = false ->
   RunGameIteration ops c = RenderFrame (InternalUpdate ops c)).
Proof.
  split; [|split].
  - intros H. unfold RunGameIteration.
    destruct H as [H|H]; rewrite H; [|rewrite andb_false_r]; cbn;
      repeat split.
  - intros b; split; reflexivity.
  - intros H1 H2. unfold RunGameIteration. now rewrite H1, H2.
Qed.

Lemma paused_iteration_only_renders_witness :
  (IsPaused paused_controller = true \/ IsMoveToolEngaged paused_controller = true) /\
  QueuedEvents (RunGameIteration counting_ops paused_controller) = [7%nat].
Proof.
  split; [left; reflexivity|].
  apply (paused_iteration_only_renders counting_ops paused_controller).
  left; reflexivity.
Defined.

End GameLoopProofs.

(** ** Ocean surface *)

Module OceanProofs.
Import Ocean.
Local Open Scope R_scope.

Lemma SWETotalSamples_ge_4 c : (4 <= SWETotalSamples c)%nat.
Proof. unfold SWETotalSamples, SWEOuterLayerSamples, SWEWaveGenerationSamples, SWEBoundaryConditionsSamples. lia. Qed.

(** The clamped index lies in [[0, SWETotalSamples - 1]]. *)
Lemma PrevCellIndex_bounds c i v :
  0 <= PrevCellIndex c i v <= INR (SWETotalSamples c - 1).
Proof.
  unfold PrevCellIndex. pose proof (pos_INR (SWETotalSamples c - 1)).
  split.
  - apply Rmin_glb; [apply Rmax_l | exact H].
  - apply Rmin_r.
Qed.

(** C9: for every cell and every velocity, the integral part of the
    clamped back-traced index is in [[0, SWETotalSamples - 1]], so both
    interpolation reads hit one of the [SWETotalSamples + 1] allocated
    cells, and the fractional part is in [[0, 1)]. *)
Theorem advection_reads_in_bounds (c : OceanConstants) (i : nat) (v : R) :
  (0 <= PrevCellIndexI c i v)%Z /\
  (PrevCellIndexI c i v <= Z.of_nat (SWETotalSamples c - 1))%Z /\
  (Z.to_nat (PrevCellIndexI c i v) < SWETotalSamples c + 1)%nat /\
  (Z.to_nat (PrevCellIndexI c i v + 1) < SWETotalSamples c + 1)%nat /\
  0 <= PrevCellIndexF c i v < 1.
Proof.
  pose proof (SWETotalSamples_ge_4 c) as H4.
  destruct (PrevCellIndex_bounds c i v) as [H0 H1].
  unfold PrevCellIndexF, PrevCellIndexI, FastTruncateInt32.
  set (x := PrevCellIndex c i v) in *.
  destruct (Rle_dec 0 x) as [_|Hn]; [|exfalso; exact (Hn H0)].
  destruct (base_Int_part x) as [Hlo Hhi].
  assert (Hz0 : (0 <= Int_part x)%Z).
  { assert (Hm : (-1 < Int_part x)%Z) by (apply lt_IZR; Lra.lra). lia. }
  assert (Hz1 : (Int_part x <= Z.of_nat (SWETotalSamples c - 1))%Z).
  { apply le_IZR. rewrite <- INR_IZR_INZ. Lra.lra. }
  split; [exact Hz0|]. split; [exact Hz1|].
  split; [lia|]. split; [lia|].
  Lra.lra.
Qed.

(** A loop over the interior cells leaves a buffer cell alone when no
    iteration writes it. *)
Lemma fold_frame (body : OceanSurface -> nat -> OceanSurface)
    (proj : OceanSurface -> nat -> R) (j : nat) :
  (forall o i, i <> j -> proj (body o i) j = proj o j) ->
  forall l o, ~ In j l -> proj (fold_left body l o) j = proj o j.
Proof.
  intros Hb l. induction l as [|i l IH]; intros o Hj; [reflexivity|].
  cbn [fold_left]. rewrite IH by (intros Hc; apply Hj; right; exact Hc).
  apply Hb. intros ->. apply Hj. left; reflexivity.
Qed.

Lemma boundary_not_interior c :
  ~ In 0%nat (InteriorCells c) /\ ~ In (SWETotalSamples c - 1)%nat (InteriorCells c).
Proof.
  unfold InteriorCells, SWEBoundaryConditionsSamples. rewrite !in_seq.
  pose proof (SWETotalSamples_ge_4 c). lia.
Qed.

(** Velocities are 0 at both boundary cells, in both buffers. *)
Definition VelocityBoundaryZero (c : OceanConstants) (o : OceanSurface) : Prop :=
  let S := SWETotalSamples c in
  CurrentVelocityField o 0 = 0 /\ CurrentVelocityField o (S - 1)%nat = 0 /\
  NextVelocityField o 0 = 0 /\ NextVelocityField o (S - 1)%nat = 0.

(** A loop whose every iteration leaves a whole buffer alone leaves it alone. *)
Lemma fold_preserve (body : OceanSurface -> nat -> OceanSurface)
    (proj : OceanSurface -> nat -> R) :
  (forall o i, proj (body o i) = proj o) ->
  forall l o, proj (fold_left body l o) = proj o.
Proof.
  intros Hb l. induction l as [|i l IH]; intros o; [reflexivity|].
  cbn [fold_left]. rewrite IH. apply Hb.
Qed.

Ltac cell_frame :=
  let o := fresh "o" in let i := fresh "i" in let Hi := fresh "Hi" in
  intros o i Hi; cbn [mkOcean CurrentHeightField NextHeightField
                      CurrentVelocityField NextVelocityField];
  apply upd_neq; intros ->; apply Hi; reflexivity.

Lemma AdvectHeightField_frame c o j :
  ~ In j (InteriorCells c) ->
  CurrentHeightField (AdvectHeightField c o) = CurrentHeightField o /\
  NextHeightField (AdvectHeightField c o) j = NextHeightField o j /\
  CurrentVelocityField (AdvectHeightField c o) = CurrentVelocityField o /\
  NextVelocityField (AdvectHeightField c o) = NextVelocityField o.
Proof.
  intros Hj. unfold AdvectHeightField.
  split; [|split; [|split]].
  - apply fold_preserve. reflexivity.
  - apply fold_frame; [cell_frame | exact Hj].
  - apply fold_preserve. reflexivity.
  - apply fold_preserve. reflexivity.
Qed.

Lemma AdvectVelocityField_frame c o j :
  ~ In j (InteriorCells c) ->
  CurrentHeightField (AdvectVelocityField c o) = CurrentHeightField o /\
  NextHeightField (AdvectVelocityField c o) = NextHeightField o /\
  CurrentVelocityField (AdvectVelocityField c o) = CurrentVelocityField o /\
  NextVelocityField (AdvectVelocityField c o) j = NextVelocityField o j.
Proof.
  intros Hj. unfold AdvectVelocityField.
  split; [|split; [|split]].
  - apply fold_preserve. reflexivity.
  - apply fold_preserve. reflexivity.
  - apply fold_preserve. reflexivity.
  - apply fold_frame; [cell_frame | exact Hj].
Qed.

Lemma UpdateHeightField_frame c o j :
  ~ In j (InteriorCells c) ->
  CurrentHeightField (UpdateHeightField c o) = CurrentHeightField o /\
  NextHeightField (UpdateHeightField c o) j = NextHeightField o j /\
  CurrentVelocityField (UpdateHeightField c o) = CurrentVelocityField o /\
  NextVelocityField (UpdateHeightField c o) = NextVelocityField o.
Proof.
  intros Hj. unfold UpdateHeightField.
  split; [|split; [|split]].
  - apply fold_preserve. reflexivity.
  - apply fold_frame; [cell_frame | exact Hj].
  - apply fold_preserve. reflexivity.
  - apply fold_preserve. reflexivity.
Qed.

Lemma UpdateVelocityField_frame c o j :
  ~ In j (InteriorCells c) ->
  CurrentHeightField (UpdateVelocityField c o) = CurrentHeightField o /\
  NextHeightField (UpdateVelocityField c o) = NextHeightField o /\
  CurrentVelocityField (UpdateVelocityField c o) = CurrentVelocityField o /\
  NextVelocityField (UpdateVelocityField c o) j = NextVelocityField o j.
Proof.
  intros Hj. unfold UpdateVelocityField.
  split; [|split; [|split]].
  - apply fold_preserve. reflexivity.
  - apply fold_preserve. reflexivity.
  - apply fold_preserve. reflexivity.
  - apply fold_frame; [cell_frame | exact Hj].
Qed.

Lemma AdvanceExternalWave_velocity c o t :
  CurrentVelocityField (AdvanceExternalWave c o t) = CurrentVelocityField o /\
  NextVelocityField (AdvanceExternalWave c o t) = NextVelocityField o.
Proof.
  unfold AdvanceExternalWave.
  destruct (SWEExternalWaveStateMachine o) as [m|]; [|auto].
  destruct (Update c m t) as [m' [h|]]; cbn; auto.
Qed.

(** The four SWE loops and the wave step never write a velocity at a
    boundary cell. *)
Lemma velocity_boundary_step c o t j :
  ~ In j (InteriorCells c) ->
  let o2 := UpdateVelocityField c (UpdateHeightField c (AdvectVelocityField c
              (AdvectHeightField c (AdvanceExternalWave c o t)))) in
  CurrentVelocityField o2 j = CurrentVelocityField o j /\
  NextVelocityField o2 j = NextVelocityField o j.
Proof.
  intros Hj. cbv zeta.
  destruct (AdvanceExternalWave_velocity c o t) as [W1 W2].
  destruct (AdvectHeightField_frame c (AdvanceExternalWave c o t) j Hj) as (_ & _ & A1 & A2).
  set (o1 := AdvectHeightField c (AdvanceExternalWave c o t)) in *.
  destruct (AdvectVelocityField_frame c o1 j Hj) as (_ & _ & B1 & B2).
  set (o2 := AdvectVelocityField c o1) in *.
  destruct (UpdateHeightField_frame c o2 j Hj) as (_ & _ & C1 & C2).
  set (o3 := UpdateHeightField c o2) in *.
  destruct (UpdateVelocityField_frame c o3 j Hj) as (_ & _ & D1 & D2).
  rewrite D1, D2, C1, C2, B1, B2, A1, A2, W1, W2. split; reflexivity.
Qed.

Lemma OceanUpdate_velocity_boundary c o t :
  VelocityBoundaryZero c o -> VelocityBoundaryZero c (OceanUpdate c o t).
Proof.
  intros (H1 & H2 & H3 & H4).
  destruct (boundary_not_interior c) as [B0 B1].
  destruct (velocity_boundary_step c o t 0 B0) as [E1 E2].
  destruct (velocity_boundary_step c o t _ B1) as [E3 E4].
  unfold VelocityBoundaryZero, OceanUpdate, SwapBuffers, SetBoundaryConditions.
  cbn [mkOcean CurrentVelocityField NextVelocityField].
  rewrite E1, E2, E3, E4. auto.
Qed.

(** The reflective boundary conditions followed by the swap mirror the
    end cells of the new current height field. *)
Lemma OceanUpdate_height_mirror c o t :
  let o' := OceanUpdate c o t in
  let S := SWETotalSamples c in
  CurrentHeightField o' 0 = CurrentHeightField o' 1 /\
  CurrentHeightField o' (S - 1)%nat = CurrentHeightField o' (S - 2)%nat.
Proof.
  cbv zeta. pose proof (SWETotalSamples_ge_4 c) as H4.
  unfold OceanUpdate, SwapBuffers, SetBoundaryConditions.
  cbn [mkOcean CurrentHeightField NextHeightField]. cbv zeta. unfold upd.
  split; repeat match goal with |- context [Nat.eqb ?a ?b] => destruct (Nat.eqb_spec a b) end;
    try lia; try reflexivity; f_equal; lia.
Qed.

Lemma AdjustTo_velocity c o wc t si :
  VelocityBoundaryZero c o -> VelocityBoundaryZero c (AdjustTo c o wc t si).
Proof. intros H. exact H. Qed.

Lemma OceanReachable_velocity_boundary c o :
  OceanReachable c o -> VelocityBoundaryZero c o.
Proof.
  induction 1.
  - unfold VelocityBoundaryZero, NewOceanSurface, mkOcean. cbn. auto.
  - apply OceanUpdate_velocity_boundary. assumption.
  - apply AdjustTo_velocity. assumption.
Qed.

(** C5: after every completed update of a reachable ocean surface, the
    external-wave write included, the new current height field mirrors its
    first interior cell at the left end and its last interior cell at the
    right end, and the current and next velocity fields are exactly 0 at
    both boundary cells [0] and [SWETotalSamples - 1]. *)
Theorem ocean_boundary_invariant (c : OceanConstants) (o : OceanSurface) (t : R) :
  OceanReachable c o ->
  let o' := OceanUpdate c o t in
  let S := SWETotalSamples c in
  CurrentHeightField o' 0 = CurrentHeightField o' 1 /\
  CurrentHeightField o' (S - 1)%nat = CurrentHeightField o' (S - 2)%nat /\
  CurrentVelocityField o' 0 = 0 /\ CurrentVelocityField o' (S - 1)%nat = 0 /\
  NextVelocityField o' 0 = 0 /\ NextVelocityField o' (S - 1)%nat = 0.
Proof.
  intros Hr. cbv zeta.
  destruct (OceanUpdate_height_mirror c o t) as [M1 M2].
  destruct (OceanUpdate_velocity_boundary c o t (OceanReachable_velocity_boundary c o Hr))
    as (V1 & V2 & V3 & V4).
  repeat split; assumption.
Qed.

Definition ocean_example_constants : OceanConstants :=
  {| SamplesCount := 8; Dx := 1; SimulationStepTimeDuration := 1 / 64;
     GravityMagnitude := 981 / 100 |}.

(** A surface on which the user has just started an external wave at
    sample 0, so that the next update writes the wave's height into the
    height field before the boundary pass. *)
Definition ocean_wave_example : OceanSurface :=
  AdjustTo ocean_example_constants NewOceanSurface (Some (0, 50)) 0 0%Z.

Lemma ocean_boundary_invariant_witness :
  OceanReachable ocean_example_constants ocean_wave_example /\
  SWEExternalWaveStateMachine ocean_wave_example <> None /\
  let c := ocean_example_constants in
  let o' := OceanUpdate c ocean_wave_example 1 in
  let S := SWETotalSamples c in
  CurrentHeightField o' 0 = CurrentHeightField o' 1 /\
  CurrentHeightField o' (S - 1)%nat = CurrentHeightField o' (S - 2)%nat /\
  CurrentVelocityField o' 0 = 0 /\ CurrentVelocityField o' (S - 1)%nat = 0 /\
  NextVelocityField o' 0 = 0 /\ NextVelocityField o' (S - 1)%nat = 0.
Proof.
  assert (Hr : OceanReachable ocean_example_constants ocean_wave_example)
    by (apply O_adjust, O_init).
  split; [exact Hr|]. split.
  - unfold ocean_wave_example, AdjustTo, NewOceanSurface, mkOcean. cbn. discriminate.
  - apply (ocean_boundary_invariant ocean_example_constants ocean_wave_example 1 Hr).
Defined.

(** The wave of the examples: rising from 0 toward 1 over a delay of 2. *)
Definition wave_example : SWEWaveStateMachine :=
  {| SampleIndex := 0; LowHeight := 0; CurrentPhaseStartHeight := 0;
     CurrentPhaseTargetHeight := 1; CurrentHeight := 0; CurrentProgress := 0;
     StartSimulationTime := 0; CurrentWavePhase := Rise; ReleaseMode := OnCue;
     SmoothingDelay := 2 |}.

(** C8, refuted as worded: halfway through the rise (time 1 of a delay
    of 2) [Update] yields [sin (PI / 4) = 1 / sqrt 2], while a [sin²] curve
    would give [1 / 2]. *)
Lemma wave_rise_sin2_counterexample :
  snd (Update ocean_example_constants wave_example 1) = Some (1 / sqrt 2) /\
  snd (Update ocean_example_constants wave_example 1)
    <> Some (SpecRiseHeightSin2 wave_example 1).
Proof.
  assert (Hs : 0 < sqrt 2) by (apply sqrt_lt_R0; Lra.lra).
  assert (Hx : 1 / sqrt 2 * (1 / sqrt 2) = 1 / 2).
  { replace (1 / sqrt 2 * (1 / sqrt 2)) with (1 / (sqrt 2 * sqrt 2))
      by (field; Lra.lra).
    rewrite sqrt_sqrt by Lra.lra. reflexivity. }
  unfold Update, SpecRiseHeightSin2, NextProgress, wave_example.
  cbn [CurrentProgress StartSimulationTime SmoothingDelay
       CurrentPhaseStartHeight CurrentPhaseTargetHeight].
  destruct (Rlt_dec 0 1) as [_|Hn]; [|Lra.lra].
  replace ((1 - 0) / 2) with (1 / 2) by Lra.lra.
  rewrite Rmin_left by Lra.lra.
  replace (PI / 2 * (1 / 2)) with (PI / 4) by Lra.lra.
  rewrite sin_PI4.
  destruct (Rle_dec 1 (1 / 2)) as [Hle|_]; [Lra.lra|].
  cbn [snd]. split.
  - f_equal. ring.
  - intros H. injection H as H. simpl in H.
    rewrite Rmult_1_r, Hx in H.
    assert (E : 1 / sqrt 2 = 1 / 2) by Lra.lra. rewrite E in Hx. Lra.lra.
Qed.

(** C8, as the code has it: while rising, [Update] yields the height
    [start + (target - start) * sin (PI / 2 * min progress 1)], with
    progress the elapsed time since the phase start over the smoothing
    delay; a release while rising starts a fall from the current height
    toward the stored low height; completing a rise in automatic mode
    starts the same fall; a restart, in any phase, starts a rise from the
    current height toward the new target, at progress 0 from the restart
    time, with the delay recomputed for the new height difference. *)
Theorem wave_state_machine_transitions (c : OceanConstants) :
  (forall m now, CurrentWavePhase m = Rise ->
     snd (Update c m now) =
     Some (CurrentPhaseStartHeight m
           + (CurrentPhaseTargetHeight m - CurrentPhaseStartHeight m)
             * sin (PI / 2 * Rmin (NextProgress m now) 1))) /\
  (forall m now, CurrentWavePhase m = Rise ->
     let m' := Release c m now in
     CurrentWavePhase m' = Fall /\ CurrentPhaseTargetHeight m' = LowHeight m /\
     CurrentPhaseStartHeight m' = CurrentHeight m /\ CurrentProgress m' = 0) /\
  (forall m now, CurrentWavePhase m = Rise -> ReleaseMode m = Automatic ->
     1 <= NextProgress m now ->
     let m' := fst (Update c m now) in
     CurrentWavePhase m' = Fall /\ CurrentPhaseTargetHeight m' = LowHeight m /\
     CurrentPhaseStartHeight m' = CurrentPhaseTargetHeight m /\ CurrentProgress m' = 0) /\
  (forall m h now,
     let m' := Restart c m h now in
     CurrentWavePhase m' = Rise /\ CurrentPhaseStartHeight m' = CurrentHeight m /\
     CurrentPhaseTargetHeight m' = h /\ CurrentProgress m' = 0 /\
     StartSimulationTime m' = now /\
     SmoothingDelay m' = CalculateSmoothingDelay c Rise h (CurrentHeight m)).
Proof.
  split; [|split; [|split]].
  - intros m now Hr. unfold Update.
    destruct (Rle_dec 1 (NextProgress m now)); [|reflexivity].
    rewrite Hr. destruct (ReleaseMode m); reflexivity.
  - intros m now Hr. cbv zeta. unfold Release. rewrite Hr.
    cbn. repeat split; reflexivity.
  - intros m now Hr Ha Hp. cbv zeta. unfold Update.
    destruct (Rle_dec 1 (NextProgress m now)) as [_|Hn]; [|exfalso; exact (Hn Hp)].
    rewrite Hr, Ha. cbn.
    assert (Hm : Rmin (NextProgress m now) 1 = 1) by (apply Rmin_right; exact Hp).
    rewrite Hm. replace (PI / 2 * 1) with (PI / 2) by ring. rewrite sin_PI2.
    repeat split; ring.
  - intros m h now. cbv zeta. cbn. repeat split; reflexivity.
Qed.

Lemma wave_state_machine_transitions_witness :
  CurrentWavePhase wave_example = Rise /\
  snd (Update ocean_example_constants wave_example 1) =
  Some (CurrentPhaseStartHeight wave_example
        + (CurrentPhaseTargetHeight wave_example - CurrentPhaseStartHeight wave_example)
          * sin (PI / 2 * Rmin (NextProgress wave_example 1) 1)).
Proof.
  split; [reflexivity|].
  apply (proj1 (wave_state_machine_transitions ocean_example_constants) wave_example 1).
  reflexivity.
Defined.

End OceanProofs.

(* ------------------------------------------------------------------ *)
(** ** Combustion *)

Module CombustionProofs.
Import Combustion.

Ltac points_simpl :=
  cbn [set_combustion_state set_temperature set_decay set_burning
       ShipPointCount CombustionStateBuffer TemperatureBuffer WaterBuffer DecayBuffer
       MaterialIgnitionTemperatureBuffer MaterialHeatCapacityBuffer PlaneIdBuffer
       ConnectedSpringsBuffer BurningPoints fst snd
       State FlameDevelopment MaxFlameDevelopment Personality
       with_state with_flame_development] in *.

(** A loop of updates none of which touches the projected part. *)
Lemma fold_points_proj {A B} (f : Points -> A -> Points) (proj : Points -> B) :
  (forall s a, proj (f s a) = proj s) ->
  forall l s, proj (fold_left f l s) = proj s.
Proof.
  intros Hf l. induction l as [|a l IH]; intros s; [reflexivity|].
  cbn [fold_left]. rewrite IH. apply Hf.
Qed.

Ltac fold_frame_tac :=
  etransitivity; [apply fold_points_proj; intros; reflexivity | reflexivity].

Lemma DecayPointAndNeighbors_frame e s p :
  CombustionStateBuffer (DecayPointAndNeighbors e s p) = CombustionStateBuffer s /\
  BurningPoints (DecayPointAndNeighbors e s p) = BurningPoints s /\
  ShipPointCount (DecayPointAndNeighbors e s p) = ShipPointCount s.
Proof. unfold DecayPointAndNeighbors. split; [|split]; fold_frame_tac. Qed.

Lemma GenerateHeat_frame e s p :
  CombustionStateBuffer (GenerateHeat e s p) = CombustionStateBuffer s /\
  BurningPoints (GenerateHeat e s p) = BurningPoints s /\
  ShipPointCount (GenerateHeat e s p) = ShipPointCount s.
Proof. unfold GenerateHeat. split; [|split]; fold_frame_tac. Qed.

(** One iteration of the candidate loop: it leaves the burning list and
    every non-burning point alone, turns no point into a non-burning one,
    and adds at most the visited point, non-burning, to the candidates. *)
Lemma LowFrequencyVisit_spec e s c p :
  let r := LowFrequencyVisit e (s, c) p in
  BurningPoints (fst r) = BurningPoints s /\
  ShipPointCount (fst r) = ShipPointCount s /\
  (forall q, State (CombustionStateBuffer s q) = NotBurning ->
             CombustionStateBuffer (fst r) q = CombustionStateBuffer s q) /\
  (forall q, State (CombustionStateBuffer (fst r) q) = NotBurning ->
             State (CombustionStateBuffer s q) = NotBurning) /\
  (snd r = c \/
   (snd r = c ++ [(p, IgnitionKey e s p)] /\ State (CombustionStateBuffer s p) = NotBurning)).
Proof.
  cbv zeta. unfold LowFrequencyVisit. cbv beta iota zeta.
  destruct (State (CombustionStateBuffer s p)) eqn:Hp.
  - destruct (IsIgnitionCandidate e s p); cbn [fst snd];
      (split; [reflexivity|split; [reflexivity|split; [auto|split; [auto|]]]]).
    + right. auto.
    + left. reflexivity.
  - cbn [fst snd]. split; [reflexivity|split; [reflexivity|split; [auto|split; [auto|]]]].
    left; reflexivity.
  - cbn [fst snd]. split; [reflexivity|split; [reflexivity|split; [auto|split; [auto|]]]].
    left; reflexivity.
  - destruct (_ || _).
    + points_simpl.
      split; [reflexivity|split; [reflexivity|split; [|split]]].
      * intros q Hq. destruct (Nat.eq_dec q p) as [->|Hqp]; [congruence|].
        apply upd_neq. exact Hqp.
      * intros q Hq. destruct (Nat.eq_dec q p) as [->|Hqp].
        -- rewrite upd_eq in Hq. discriminate Hq.
        -- rewrite upd_neq in Hq by exact Hqp. exact Hq.
      * left; reflexivity.
    + destruct (DecayPointAndNeighbors_frame e s p) as (D1 & D2 & D3).
      cbn [fst snd]. rewrite D1, D2, D3.
      split; [reflexivity|split; [reflexivity|split; [auto|split; [auto|]]]].
      left; reflexivity.
  - cbn [fst snd]. split; [reflexivity|split; [reflexivity|split; [auto|split; [auto|]]]].
    left; reflexivity.
  - cbn [fst snd]. split; [reflexivity|split; [reflexivity|split; [auto|split; [auto|]]]].
    left; reflexivity.
Qed.

Lemma LowFrequencyVisit_fold e l : forall s c,
  let r := fold_left (LowFrequencyVisit e) l (s, c) in
  BurningPoints (fst r) = BurningPoints s /\
  ShipPointCount (fst r) = ShipPointCount s /\
  (forall q, State (CombustionStateBuffer s q) = NotBurning ->
             CombustionStateBuffer (fst r) q = CombustionStateBuffer s q) /\
  (forall q, State (CombustionStateBuffer (fst r) q) = NotBurning ->
             State (CombustionStateBuffer s q) = NotBurning) /\
  (forall x, In x (snd r) -> In x c \/ State (CombustionStateBuffer s (fst x)) = NotBurning) /\
  (NoDup (map fst c ++ l) -> NoDup (map fst (snd r))).
Proof.
  induction l as [|p l IH]; intros s c; cbv zeta; cbn [fold_left].
  - cbn [fst snd]. split; [reflexivity|split; [reflexivity|split; [auto|split; [auto|split]]]].
    + intros x Hx. left; exact Hx.
    + rewrite app_nil_r. auto.
  - pose proof (LowFrequencyVisit_spec e s c p) as Hv. cbv zeta in Hv.
    destruct (LowFrequencyVisit e (s, c) p) as [s1 c1] eqn:E.
    cbn [fst snd] in Hv. destruct Hv as (H1 & H2 & H3 & H4 & H5).
    destruct (IH s1 c1) as (I1 & I2 & I3 & I4 & I5 & I6).
    split; [congruence|]. split; [congruence|].
    split.
    { intros q Hq. rewrite I3; [apply H3; exact Hq|]. rewrite H3 by exact Hq. exact Hq. }
    split.
    { intros q Hq. apply H4, I4, Hq. }
    split.
    { intros x Hx. destruct (I5 x Hx) as [Hc|Hn].
      - destruct H5 as [->|[-> Hpn]].
        + left; exact Hc.
        + apply in_app_or in Hc. destruct Hc as [Hc|[<-|[]]].
          * left; exact Hc.
          * right; exact Hpn.
      - right. apply H4. exact Hn. }
    intros Hnd. apply I6. destruct H5 as [->|[-> _]].
    + apply NoDup_remove_1 with p. exact Hnd.
    + rewrite map_app, <- app_assoc. exact Hnd.
Qed.

Lemma StrideIndices_ge fuel : forall p stride count q,
  In q (StrideIndices fuel p stride count) -> (p <= q)%nat.
Proof.
  induction fuel as [|f IH]; intros p stride count q Hq;
    cbn [StrideIndices] in Hq; [contradiction|].
  destruct (p <? count)%nat; [|contradiction].
  destruct Hq as [->|Hq]; [lia|]. apply IH in Hq. lia.
Qed.

Lemma StrideIndices_NoDup fuel : forall p stride count,
  (0 < stride)%nat -> NoDup (StrideIndices fuel p stride count).
Proof.
  induction fuel as [|f IH]; intros p stride count Hs;
    cbn [StrideIndices]; [constructor|].
  destruct (p <? count)%nat; [|constructor].
  constructor.
  - intros Hin. apply StrideIndices_ge in Hin. lia.
  - apply IH. exact Hs.
Qed.

(** The candidate loop as a whole. *)
Lemma LowFrequencyScan_spec e offset stride s :
  let r := LowFrequencyScan e offset stride s in
  BurningPoints (fst r) = BurningPoints s /\
  ShipPointCount (fst r) = ShipPointCount s /\
  (forall q, State (CombustionStateBuffer s q) = NotBurning ->
             CombustionStateBuffer (fst r) q = CombustionStateBuffer s q) /\
  (forall q, State (CombustionStateBuffer (fst r) q) = NotBurning ->
             State (CombustionStateBuffer s q) = NotBurning) /\
  (forall x, In x (snd r) -> State (CombustionStateBuffer s (fst x)) = NotBurning) /\
  ((0 < stride)%nat -> NoDup (map fst (snd r))).
Proof.
  cbv zeta. unfold LowFrequencyScan.
  destruct (LowFrequencyVisit_fold e (PointIndices offset stride (ShipPointCount s)) s [])
    as (H1 & H2 & H3 & H4 & H5 & H6).
  split; [exact H1|]. split; [exact H2|]. split; [exact H3|]. split; [exact H4|]. split.
  - intros x Hx. destruct (H5 x Hx) as [[]|Hn]. exact Hn.
  - intros Hs. apply H6. apply StrideIndices_NoDup. exact Hs.
Qed.

Lemma InsertByPlaneId_length planeId p l :
  length (InsertByPlaneId planeId p l) = S (length l).
Proof.
  induction l as [|q l IH]; cbn [InsertByPlaneId length]; [reflexivity|].
  destruct (planeId q <? planeId p)%nat; cbn [length]; [rewrite IH|]; reflexivity.
Qed.

Lemma InsertByPlaneId_In planeId p l q :
  In q (InsertByPlaneId planeId p l) <-> p = q \/ In q l.
Proof.
  induction l as [|a l IH]; cbn [InsertByPlaneId In]; [tauto|].
  destruct (planeId a <? planeId p)%nat; cbn [In]; [rewrite IH|]; tauto.
Qed.

Lemma Ignite_spec e i p key s :
  BurningPoints (Ignite e i p key s) = InsertByPlaneId (PlaneIdBuffer s) p (BurningPoints s) /\
  ShipPointCount (Ignite e i p key s) = ShipPointCount s /\
  (forall q, q <> p -> CombustionStateBuffer (Ignite e i p key s) q = CombustionStateBuffer s q) /\
  State (CombustionStateBuffer (Ignite e i p key s) p) = Developing_1.
Proof.
  unfold Ignite. points_simpl.
  split; [reflexivity|split; [reflexivity|split]].
  - intros q Hq. apply upd_neq. exact Hq.
  - rewrite upd_eq. reflexivity.
Qed.

(** The ignition loop: one burning-list entry per ignited candidate, each
    of them in [Developing_1], every other point untouched. *)
Lemma IgniteAll_spec e l : forall i s,
  let s' := IgniteAll e i l s in
  length (BurningPoints s') = (length l + length (BurningPoints s))%nat /\
  ShipPointCount s' = ShipPointCount s /\
  (forall q, In q (BurningPoints s) -> In q (BurningPoints s')) /\
  (forall q, ~ In q (map fst l) -> CombustionStateBuffer s' q = CombustionStateBuffer s q) /\
  (forall q, In q (map fst l) ->
             State (CombustionStateBuffer s' q) = Developing_1 /\ In q (BurningPoints s')).
Proof.
  induction l as [|[p key] l IH]; intros i s; cbv zeta; cbn [IgniteAll].
  - split; [reflexivity|split; [reflexivity|split; [auto|split; [auto|]]]].
    intros q [].
  - destruct (Ignite_spec e i p key s) as (J1 & J2 & J3 & J4).
    destruct (IH (S i) (Ignite e i p key s)) as (I1 & I2 & I3 & I4 & I5).
    split.
    { rewrite I1, J1, InsertByPlaneId_length. cbn [length]. lia. }
    split; [congruence|].
    split.
    { intros q Hq. apply I3. rewrite J1. apply InsertByPlaneId_In. right; exact Hq. }
    split.
    { intros q Hq. cbn [map fst In] in Hq. rewrite I4 by tauto.
      apply J3. intros ->. apply Hq. left; reflexivity. }
    intros q Hq. cbn [map fst In] in Hq.
    destruct (in_dec Nat.eq_dec q (map fst l)) as [Hin|Hnin].
    + apply I5. exact Hin.
    + destruct Hq as [<-|Hq]; [|contradiction].
      rewrite I4 by exact Hnin. split; [exact J4|].
      apply I3. rewrite J1. apply InsertByPlaneId_In. left; reflexivity.
Qed.

Lemma UpdateCombustionLowFrequency_unfold e Max choice nthElement offset stride s :
  UpdateCombustionLowFrequency e Max choice nthElement offset stride s =
  IgniteAll e 0
    (firstn (MaxIgnitions Max choice (fst (LowFrequencyScan e offset stride s))
                          (snd (LowFrequencyScan e offset stride s)))
       (nthElement (MaxIgnitions Max choice (fst (LowFrequencyScan e offset stride s))
                                 (snd (LowFrequencyScan e offset stride s)))
                   (snd (LowFrequencyScan e offset stride s))))
    (fst (LowFrequencyScan e offset stride s)).
Proof. reflexivity. Qed.

Lemma MaxIgnitions_le Max choice s c :
  (MaxIgnitions Max choice s c <= Max - length (BurningPoints s))%nat /\
  (MaxIgnitions Max choice s c <= length c)%nat /\
  MaxIgnitions Max choice s c =
  Nat.min (Nat.min (4 + choice) (Max - length (BurningPoints s))) (length c).
Proof.
  unfold MaxIgnitions.
  destruct (Nat.ltb_spec (length (BurningPoints s)) Max); lia.
Qed.

Lemma EraseFirst_In p l q : In q l -> q <> p -> In q (EraseFirst p l).
Proof.
  induction l as [|a l IH]; cbn; [auto|].
  intros Hq Hqp. destruct (Nat.eqb_spec a p) as [->|Hap].
  - destruct Hq as [->|Hq]; [contradiction|exact Hq].
  - destruct Hq as [->|Hq]; [left; reflexivity|right; apply IH; assumption].
Qed.

Lemma EraseFirst_length p l : (length (EraseFirst p l) <= length l)%nat.
Proof.
  induction l as [|a l IH]; cbn; [auto|].
  destruct (a =? p)%nat; cbn; lia.
Qed.

Lemma HighFrequencyCheck_spec e s p :
  let s1 := HighFrequencyCheck e s p in
  BurningPoints s1 = BurningPoints s /\ ShipPointCount s1 = ShipPointCount s /\
  (forall q, q <> p -> CombustionStateBuffer s1 q = CombustionStateBuffer s q) /\
  (State (CombustionStateBuffer s p) = NotBurning ->
   State (CombustionStateBuffer s1 p) = NotBurning).
Proof.
  cbv zeta. unfold HighFrequencyCheck.
  destruct (_ && _) eqn:E.
  - unfold SmotherCombustion. points_simpl.
    split; [reflexivity|split; [reflexivity|split]].
    + intros q Hq. apply upd_neq. exact Hq.
    + intros H. rewrite H in E. discriminate E.
  - assert (G : forall s0, s0 = s \/ s0 = GenerateHeat e s p ->
                 CombustionStateBuffer s0 = CombustionStateBuffer s /\
                 BurningPoints s0 = BurningPoints s /\ ShipPointCount s0 = ShipPointCount s).
    { intros s0 [-> | ->]; [auto | apply GenerateHeat_frame]. }
    destruct (G (match State (CombustionStateBuffer s p) with
                 | Burning => GenerateHeat e s p
                 | _ => s
                 end)) as (G1 & G2 & G3).
    { destruct (State (CombustionStateBuffer s p)); auto. }
    rewrite G1, G2, G3. split; [reflexivity|split; [reflexivity|split; [auto|auto]]].
Qed.

(** The development state machine: only the visited point changes, and it
    leaves the burning list only from an extinguishing state whose flame
    development came down to [0.02] or below. *)
Lemma HighFrequencyDevelop_spec s p :
  let s' := HighFrequencyDevelop s p in
  ShipPointCount s' = ShipPointCount s /\
  (forall q, q <> p -> CombustionStateBuffer s' q = CombustionStateBuffer s q) /\
  ((BurningPoints s' = BurningPoints s /\
    (State (CombustionStateBuffer s p) = NotBurning ->
     State (CombustionStateBuffer s' p) = NotBurning)) \/
   (BurningPoints s' = EraseFirst p (BurningPoints s) /\
    State (CombustionStateBuffer s' p) = NotBurning /\
    (State (CombustionStateBuffer s p) = Extinguishing_Consumed \/
     State (CombustionStateBuffer s p) = Extinguishing_Smothered) /\
    ExtinguishedFlameDevelopment (CombustionStateBuffer s p) <= 1#50)).
Proof.
  cbv zeta. unfold HighFrequencyDevelop. cbv beta zeta.
  destruct (State (CombustionStateBuffer s p)) eqn:Hs.
  - split; [reflexivity|split; [auto|]]. left. split; [reflexivity|]. intros H; rewrite ?Hs in H; try discriminate H; assumption.
  - destruct (Qltb _ _); points_simpl;
      (split; [reflexivity|split; [intros q Hq; apply upd_neq; exact Hq|]]);
      left; (split; [reflexivity|]); rewrite upd_eq; intros H; points_simpl; rewrite ?Hs in H; discriminate H.
  - destruct (Qltb _ _); points_simpl;
      (split; [reflexivity|split; [intros q Hq; apply upd_neq; exact Hq|]]);
      left; (split; [reflexivity|]); rewrite upd_eq; intros H; points_simpl; rewrite ?Hs in H; discriminate H.
  - split; [reflexivity|split; [auto|]]. left. split; [reflexivity|]. intros H; rewrite ?Hs in H; try discriminate H; assumption.
  - destruct (Qle_bool _ _) eqn:Hle; points_simpl;
      (split; [reflexivity|split; [intros q Hq; apply upd_neq; exact Hq|]]).
    + right. split; [reflexivity|]. split; [rewrite upd_eq; reflexivity|].
      split; [left; reflexivity|]. apply Qle_bool_imp_le. exact Hle.
    + left. split; [reflexivity|]. rewrite upd_eq. intros H; points_simpl; rewrite ?Hs in H; discriminate H.
  - destruct (Qle_bool _ _) eqn:Hle; points_simpl;
      (split; [reflexivity|split; [intros q Hq; apply upd_neq; exact Hq|]]).
    + right. split; [reflexivity|]. split; [rewrite upd_eq; reflexivity|].
      split; [right; reflexivity|]. apply Qle_bool_imp_le. exact Hle.
    + left. split; [reflexivity|]. rewrite upd_eq. intros H; points_simpl; rewrite ?Hs in H; discriminate H.
Qed.

(** Every point that burns in any way is on the burning list, and the
    list holds at most [MaxBurningParticles] entries. *)
Definition BurningListInv (Max : nat) (s : Points) : Prop :=
  (forall p, State (CombustionStateBuffer s p) <> NotBurning -> In p (BurningPoints s)) /\
  (length (BurningPoints s) <= Max)%nat.

Lemma LowFrequency_inv e Max choice nthElement offset stride s :
  BurningListInv Max s ->
  BurningListInv Max (UpdateCombustionLowFrequency e Max choice nthElement offset stride s).
Proof.
  intros [Hin Hlen].
  rewrite UpdateCombustionLowFrequency_unfold.
  destruct (LowFrequencyScan_spec e offset stride s) as (S1 & _ & S3 & _ & _ & _).
  set (scan := LowFrequencyScan e offset stride s) in *.
  set (K := MaxIgnitions Max choice (fst scan) (snd scan)).
  set (ignited := firstn K (nthElement K (snd scan))).
  destruct (IgniteAll_spec e ignited 0 (fst scan)) as (I1 & _ & I3 & I4 & I5).
  destruct (MaxIgnitions_le Max choice (fst scan) (snd scan)) as (M1 & _ & _).
  split.
  - intros q Hq.
    destruct (in_dec Nat.eq_dec q (map fst ignited)) as [Hi|Hni].
    + apply I5. exact Hi.
    + apply I3. rewrite S1. apply Hin.
      intros Hnb. apply Hq. rewrite I4 by exact Hni. rewrite S3 by exact Hnb. exact Hnb.
  - rewrite I1. pose proof (firstn_le_length K (nthElement K (snd scan))) as Hf.
    fold ignited in Hf. fold K in M1. rewrite S1 in M1 |- *. lia.
Qed.

Lemma HighFrequencyVisit_inv e Max s p :
  BurningListInv Max s -> BurningListInv Max (HighFrequencyVisit e s p).
Proof.
  intros [Hin Hlen]. unfold HighFrequencyVisit.
  destruct (HighFrequencyCheck_spec e s p) as (C1 & _ & C3 & C4).
  set (s1 := HighFrequencyCheck e s p) in *.
  assert (Hin1 : forall q, State (CombustionStateBuffer s1 q) <> NotBurning ->
                           In q (BurningPoints s1)).
  { intros q Hq. rewrite C1. apply Hin. intros Hnb. apply Hq.
    destruct (Nat.eq_dec q p) as [->|Hqp].
    - apply C4. exact Hnb.
    - rewrite C3 by exact Hqp. exact Hnb. }
  destruct (HighFrequencyDevelop_spec s1 p) as (_ & D2 & [[D3 D4]|(D3 & D4 & _ & _)]).
  - split.
    + intros q Hq. rewrite D3. apply Hin1.
      destruct (Nat.eq_dec q p) as [->|Hqp].
      * intros Hnb. apply Hq, D4. exact Hnb.
      * rewrite <- (D2 q Hqp). exact Hq.
    + rewrite D3, C1. exact Hlen.
  - split.
    + intros q Hq. rewrite D3.
      destruct (Nat.eq_dec q p) as [->|Hqp]; [contradiction|].
      apply EraseFirst_In; [|exact Hqp]. apply Hin1. rewrite <- (D2 q Hqp). exact Hq.
    + rewrite D3. pose proof (EraseFirst_length p (BurningPoints s1)). rewrite C1 in *. lia.
Qed.

Lemma Reachable_burning_inv Max s : Reachable Max s -> BurningListInv Max s.
Proof.
  induction 1 as [s Hb Hs | e choice nthElement offset stride s _ IH | e s p _ IH
                 | s l _ IH Hp | s p _ IH _ | s s' _ IH _ Hb Hs].
  - split.
    + intros p Hp. exfalso. apply Hp, Hs.
    + rewrite Hb. cbn. lia.
  - apply LowFrequency_inv. exact IH.
  - apply HighFrequencyVisit_inv. exact IH.
  - destruct IH as [Hin Hlen]. split.
    + intros q Hq. cbn. apply (Permutation_in _ Hp). apply Hin. exact Hq.
    + cbn. rewrite <- (Permutation_length Hp). exact Hlen.
  - destruct IH as [Hin Hlen]. split; [|exact Hlen].
    intros q Hq. cbn in *. destruct (Nat.eq_dec q p) as [->|Hqp].
    + rewrite upd_eq in Hq. exfalso. apply Hq. reflexivity.
    + rewrite upd_neq in Hq by exact Hqp. apply Hin. exact Hq.
  - destruct IH as [Hin Hlen]. split.
    + intros q Hq. rewrite Hb. apply Hin. rewrite <- Hs. exact Hq.
    + rewrite Hb. exact Hlen.
Qed.

Lemma ActiveCount_le Max s n :
  BurningListInv Max s -> (ActiveCount s n <= length (BurningPoints s))%nat.
Proof.
  intros [Hin _]. unfold ActiveCount.
  apply NoDup_incl_length.
  - apply NoDup_filter. apply seq_NoDup.
  - intros q Hq. apply filter_In in Hq as [_ Hq]. apply Hin.
    unfold IsDevelopingOrBurning in Hq. intros Hnb. rewrite Hnb in Hq. discriminate Hq.
Qed.

(** C1: in every reachable state, the number of points in [Developing_1],
    [Developing_2] or [Burning] is at most [MaxBurningParticles]; a
    low-frequency pass adds at most [MaxBurningParticles] minus the
    current size of the burning list (saturating) to the list, whatever
    its random draws and candidate arrangement, and removes nothing; and a
    point leaves the list only in the high-frequency visit of that very
    point, from an extinguishing state whose decreased flame development
    is [0.02] or below, becoming [NotBurning]. *)
Theorem combustion_cap (MaxBurningParticles : nat) :
  (forall s, Reachable MaxBurningParticles s ->
     forall n, (ActiveCount s n <= MaxBurningParticles)%nat) /\
  (forall e choice nthElement offset stride s,
     let s' := UpdateCombustionLowFrequency e MaxBurningParticles choice nthElement
                 offset stride s in
     (length (BurningPoints s') <=
      length (BurningPoints s) + (MaxBurningParticles - length (BurningPoints s)))%nat /\
     (forall q, In q (BurningPoints s) -> In q (BurningPoints s'))) /\
  (forall e s p q,
     In q (BurningPoints s) -> ~ In q (BurningPoints (HighFrequencyVisit e s p)) ->
     let cs := CombustionStateBuffer (HighFrequencyCheck e s p) p in
     q = p /\
     (State cs = Extinguishing_Consumed \/ State cs = Extinguishing_Smothered) /\
     ExtinguishedFlameDevelopment cs <= 1#50 /\
     State (CombustionStateBuffer (HighFrequencyVisit e s p) p) = NotBurning).
Proof.
  split; [|split].
  - intros s Hr n. pose proof (Reachable_burning_inv _ _ Hr) as Hinv.
    pose proof (ActiveCount_le _ _ n Hinv). destruct Hinv as [_ Hlen]. lia.
  - intros e choice nthElement offset stride s. cbv zeta.
    rewrite UpdateCombustionLowFrequency_unfold.
    destruct (LowFrequencyScan_spec e offset stride s) as (S1 & _ & _ & _ & _ & _).
    set (scan := LowFrequencyScan e offset stride s) in *.
    set (K := MaxIgnitions MaxBurningParticles choice (fst scan) (snd scan)).
    destruct (IgniteAll_spec e (firstn K (nthElement K (snd scan))) 0 (fst scan))
      as (I1 & _ & I3 & _ & _).
    destruct (MaxIgnitions_le MaxBurningParticles choice (fst scan) (snd scan)) as (M1 & _ & _).
    fold K in M1. rewrite S1 in M1, I3, I1.
    split.
    + rewrite I1. pose proof (firstn_le_length K (nthElement K (snd scan))). lia.
    + exact I3.
  - intros e s p q Hq Hnq. cbv zeta. unfold HighFrequencyVisit in *.
    destruct (HighFrequencyCheck_spec e s p) as (C1 & _ & _ & _).
    destruct (HighFrequencyDevelop_spec (HighFrequencyCheck e s p) p)
      as (_ & _ & [[D3 _]|(D3 & D4 & D5 & D6)]).
    + exfalso. apply Hnq. rewrite D3, C1. exact Hq.
    + destruct (Nat.eq_dec q p) as [->|Hqp].
      * split; [reflexivity|]. split; [exact D5|]. split; [exact D6|exact D4].
      * exfalso. apply Hnq. rewrite D3. apply EraseFirst_In; [|exact Hqp].
        rewrite C1. exact Hq.
Qed.

(** The examples: two dry ship points above their ignition temperature,
    the first one hotter. *)
Definition env_example : Env :=
  {| IgnitionTemperatureAdjustment := 1;
     IgnitionTemperatureHighWatermark := 0;
     IgnitionTemperatureLowWatermark := 0;
     SmotheringWaterLowWatermark := 1#10;
     SmotheringWaterHighWatermark := 1;
     SmotheringDecayLowWatermark := 1#100;
     SmotheringDecayHighWatermark := 1#10;
     IsUnderwater := fun _ => false;
     DecayAlpha := fun _ => 99#100;
     SmoothStep := fun _ _ x => x;
     RandomNormalizedReal := fun _ => 1#2;
     EffectiveCombustionHeat := 1;
     DirAlpha := fun _ _ => 1 |}.

Definition points_example : Points :=
  mkPoints 2 (fun _ => DefaultCombustionState)
    (fun p => if (p =? 0)%nat then 1000 else 800) (fun _ => 0) (fun _ => 1)
    (fun _ => 400) (fun _ => 1) (fun _ => 0%nat) (fun _ => []) [].

(** [std::nth_element] on candidates already in decreasing key order may
    leave them in place. *)
Definition nth_element_example (n : nat) (l : list Candidate) : list Candidate := l.

Definition points_after_ignition : Points :=
  UpdateCombustionLowFrequency env_example 1 0 nth_element_example 0 1 points_example.

Lemma combustion_cap_witness :
  Reachable 1 points_after_ignition /\
  ActiveCount points_after_ignition 2%nat = 1%nat /\
  (ActiveCount points_after_ignition 2%nat <= 1)%nat.
Proof.
  assert (Hr : Reachable 1 points_after_ignition).
  { apply R_low_frequency. apply R_init; [reflexivity|intros p; reflexivity]. }
  split; [exact Hr|]. split; [vm_compute; reflexivity|].
  exact (proj1 (combustion_cap 1) points_after_ignition Hr 2%nat).
Defined.

Lemma In_firstn_nth {A} (K : nat) : forall (l : list A) x,
  In x (firstn K l) -> exists i, (i < K)%nat /\ forall d, nth i l d = x.
Proof.
  induction K as [|K IH]; intros l x Hx; [contradiction|].
  destruct l as [|a l]; [contradiction|].
  destruct Hx as [<-|Hx].
  - exists 0%nat. split; [lia|reflexivity].
  - destruct (IH l x Hx) as (i & Hi & Hn). exists (S i). split; [lia|exact Hn].
Qed.

Lemma In_nth_all {A} : forall (l : list A) x,
  In x l -> exists j, (j < length l)%nat /\ forall d, nth j l d = x.
Proof.
  induction l as [|a l IH]; intros x Hx; [contradiction|].
  destruct Hx as [<-|Hx].
  - exists 0%nat. cbn. split; [lia|reflexivity].
  - destruct (IH x Hx) as (j & Hj & Hn). exists (S j). cbn. split; [lia|exact Hn].
Qed.

Lemma In_skipn_nth {A} (K : nat) : forall (l : list A) x,
  In x (skipn K l) -> exists j, (K <= j < length l)%nat /\ forall d, nth j l d = x.
Proof.
  induction K as [|K IH]; intros l x Hx.
  - destruct (In_nth_all l x Hx) as (j & Hj & Hn). exists j. split; [lia|exact Hn].
  - destruct l as [|a l]; [contradiction|].
    destruct (IH l x Hx) as (j & Hj & Hn). exists (S j). cbn. split; [lia|exact Hn].
Qed.

(** C2: in a low-frequency pass with a positive stride, the number [K]
    of ignitions is [min (min (4 + choice) (MaxBurningParticles - |burning
    list|)) |candidates|], with [choice] the draw of [Choose(6)] and the
    subtraction saturating at 0; the points that go from [NotBurning] to
    [Developing_1] are exactly the first [K] of the arrangement
    [std::nth_element] makes, [K] distinct candidates, each with a key at
    least that of every candidate left out; all candidates were
    [NotBurning]. *)
Theorem low_frequency_ignitions (e : Env) (MaxBurningParticles choice : nat)
    (nthElement : nat -> list Candidate -> list Candidate) (offset stride : nat)
    (s : Points) (candidates : list Candidate) (K : nat) :
  (0 < stride)%nat ->
  candidates = snd (LowFrequencyScan e offset stride s) ->
  K = MaxIgnitions MaxBurningParticles choice (fst (LowFrequencyScan e offset stride s))
        candidates ->
  NthElementSpec K candidates (nthElement K candidates) ->
  let ignited := firstn K (nthElement K candidates) in
  let s' := UpdateCombustionLowFrequency e MaxBurningParticles choice nthElement
              offset stride s in
  K = Nat.min (Nat.min (4 + choice) (MaxBurningParticles - length (BurningPoints s)))
        (length candidates) /\
  length ignited = K /\
  NoDup (map fst ignited) /\
  (forall p, State (CombustionStateBuffer s p) = NotBurning /\
             State (CombustionStateBuffer s' p) = Developing_1
             <-> In p (map fst ignited)) /\
  (forall c1 c2, In c1 ignited -> In c2 (skipn K (nthElement K candidates)) ->
                 snd c2 <= snd c1) /\
  (forall c, In c candidates -> State (CombustionStateBuffer s (fst c)) = NotBurning) /\
  Permutation candidates (ignited ++ skipn K (nthElement K candidates)).
Proof.
  intros Hstride Hc HK [Hperm Hnth]. cbv zeta.
  destruct (LowFrequencyScan_spec e offset stride s) as (S1 & _ & S3 & _ & S5 & S6).
  rewrite UpdateCombustionLowFrequency_unfold.
  rewrite <- Hc, <- HK.
  set (scan := LowFrequencyScan e offset stride s) in *.
  rewrite <- Hc in S5, S6.
  set (arranged := nthElement K candidates) in *.
  destruct (MaxIgnitions_le MaxBurningParticles choice (fst scan) candidates)
    as (M1 & M2 & M3).
  rewrite <- HK in M1, M2, M3. rewrite S1 in M3.
  destruct (IgniteAll_spec e (firstn K arranged) 0 (fst scan)) as (_ & _ & _ & I4 & I5).
  assert (Hsplit : arranged = firstn K arranged ++ skipn K arranged)
    by (symmetry; apply firstn_skipn).
  split; [exact M3|].
  split.
  { rewrite length_firstn, <- (Permutation_length Hperm). lia. }
  split.
  { assert (Hnd : NoDup (map fst arranged)).
    { apply (Permutation_NoDup (Permutation_map fst Hperm)). apply S6. exact Hstride. }
    rewrite Hsplit, map_app in Hnd. apply NoDup_app_remove_r in Hnd. exact Hnd. }
  split.
  { intros p. split.
    - intros [Hnb Hd1].
      destruct (in_dec Nat.eq_dec p (map fst (firstn K arranged))) as [Hi|Hni]; [exact Hi|].
      exfalso. rewrite I4 in Hd1 by exact Hni. rewrite S3 in Hd1 by exact Hnb.
      rewrite Hnb in Hd1. discriminate Hd1.
    - intros Hi. split; [|apply I5; exact Hi].
      apply in_map_iff in Hi as [c [<- Hcin]].
      apply S5. apply (Permutation_in _ (Permutation_sym Hperm)).
      rewrite Hsplit. apply in_or_app. left; exact Hcin. }
  split.
  { intros c1 c2 H1 H2.
    destruct (In_firstn_nth K arranged c1 H1) as (i & Hi & Hn1).
    destruct (In_skipn_nth K arranged c2 H2) as (j & Hj & Hn2).
    rewrite <- (Hn1 c1), <- (Hn2 c1). apply Hnth; assumption. }
  split.
  { exact S5. }
  rewrite <- Hsplit. exact Hperm.
Qed.

Definition scan_example : Points * list Candidate :=
  LowFrequencyScan env_example 0 1 points_example.

Definition candidates_example : list Candidate := snd scan_example.

Definition ignitions_example : nat :=
  MaxIgnitions 1 0 (fst scan_example) candidates_example.

Lemma low_frequency_ignitions_witness :
  NthElementSpec ignitions_example candidates_example
    (nth_element_example ignitions_example candidates_example) /\
  let ignited := firstn ignitions_example
                   (nth_element_example ignitions_example candidates_example) in
  let s' := UpdateCombustionLowFrequency env_example 1 0 nth_element_example 0 1
              points_example in
  ignitions_example = Nat.min (Nat.min (4 + 0) (1 - length (BurningPoints points_example)))
                        (length candidates_example) /\
  length ignited = ignitions_example /\
  NoDup (map fst ignited) /\
  (forall p, State (CombustionStateBuffer points_example p) = NotBurning /\
             State (CombustionStateBuffer s' p) = Developing_1
             <-> In p (map fst ignited)) /\
  (forall c1 c2, In c1 ignited ->
                 In c2 (skipn ignitions_example
                          (nth_element_example ignitions_example candidates_example)) ->
                 snd c2 <= snd c1) /\
  (forall c, In c candidates_example ->
             State (CombustionStateBuffer points_example (fst c)) = NotBurning) /\
  Permutation candidates_example
    (ignited ++ skipn ignitions_example
                  (nth_element_example ignitions_example candidates_example)).
Proof.
  assert (Hspec : NthElementSpec ignitions_example candidates_example
                    (nth_element_example ignitions_example candidates_example)).
  { split; [apply Permutation_refl|].
    intros i j d Hi Hj. vm_compute in Hi, Hj.
    assert (i = 0%nat) by lia. assert (j = 1%nat) by lia. subst i j.
    apply Qle_bool_imp_le. vm_compute. reflexivity. }
  split; [exact Hspec|].
  exact (low_frequency_ignitions env_example 1 0 nth_element_example 0 1 points_example
           candidates_example ignitions_example ltac:(lia) eq_refl eq_refl Hspec).
Defined.

End CombustionProofs.


(* ------------------------------------------------------------------ *)
(** ** Ephemeral particle state machines *)

Module EphemeralParticlesProofs.
Import EphemeralPool EphemeralParticles.

(** Everything the loop keeps for one slot. *)
Record Slot := mkSlot {
  slot_type : EphemeralType; slot_start : Q; slot_max : Q; slot_pinned : bool;
  slot_x : Q; slot_y : Q; slot_alpha : Q; slot_dy : Q; slot_progress : Q;
  slot_amplitude : Q; slot_angular_velocity : Q; slot_last_vortex : Q;
  slot_sparkle_progress : Q }.

Definition slot (s : Particles) (q : nat) : Slot :=
  mkSlot (EphemeralTypeBuffer (PoolState s) q) (EphemeralStartTimeBuffer (PoolState s) q)
    (EphemeralMaxLifetimeBuffer (PoolState s) q) (IsPinnedBuffer s q)
    (PositionX s q) (PositionY s q) (ColorAlpha s q) (AirBubbleCurrentDeltaY s q)
    (AirBubbleProgress s q) (AirBubbleVortexAmplitude s q)
    (AirBubbleNormalizedVortexAngularVelocity s q) (AirBubbleLastVortexValue s q)
    (SparkleProgress s q).

Ltac unfold_step :=
  unfold UpdateEphemeralParticle, slot, expire_particle, set_dirty, set_air_bubble_progress,
    set_air_bubble_vortex, set_alpha, set_sparkle_progress, expire.

Section Step.
Variable GetOceanSurfaceHeightAt : Q -> Q.
Variable PrecalcLoFreqSin : Q -> Q.
Local Abbreviation step := (UpdateEphemeralParticle GetOceanSurfaceHeightAt PrecalcLoFreqSin).

(** An iteration touches no other slot. *)
Lemma step_other t s p q : q <> p -> slot (step t s p) q = slot s q.
Proof.
  intros Hqp. unfold_step.
  destruct (EphemeralTypeBuffer (PoolState s) p);
    [reflexivity| destruct (IsPinnedBuffer s p); [reflexivity|] | |];
    try destruct (Qle_bool _ _); cbn; unfold upd;
    rewrite ?(proj2 (Nat.eqb_neq q p) Hqp); reflexivity.
Qed.

(** What an iteration does to its slot depends on that slot only. *)
Ltac slot_fin :=
  cbn; unfold upd; cbv beta; rewrite ?Nat.eqb_refl;
  repeat match goal with H : ?x = _ |- _ => progress rewrite H end.

Lemma step_congr t s s' p :
  slot s p = slot s' p -> slot (step t s p) p = slot (step t s' p) p.
Proof.
  intros H. unfold slot in H.
  injection H as H1 H2 H3 H4 H5 H6 H7 H8 H9 H10 H11 H12 H13.
  unfold_step. cbv beta.
  rewrite H1. destruct (EphemeralTypeBuffer (PoolState s') p) eqn:E; slot_fin;
    try reflexivity;
    try (destruct (IsPinnedBuffer s' p) eqn:P; slot_fin; try reflexivity);
    destruct (Qle_bool _ _) eqn:L; slot_fin; reflexivity.
Qed.

(** The loop, slot by slot: a slot it visits ends as one iteration on the
    initial store leaves it, any other slot is unchanged. *)
Lemma fold_slot t l : NoDup l -> forall s q,
  slot (fold_left (step t) l s) q =
  if in_dec Nat.eq_dec q l then slot (step t s q) q else slot s q.
Proof.
  induction l as [|a l IH]; intros Hnd s q; cbn [fold_left]; [reflexivity|].
  inversion Hnd as [|? ? Hna Hndl]; subst.
  rewrite (IH Hndl).
  destruct (in_dec Nat.eq_dec q (a :: l)) as [Hin|Hnin].
  - destruct (in_dec Nat.eq_dec q l) as [Hl|Hl].
    + assert (Hqa : q <> a) by (intros ->; contradiction).
      apply step_congr. apply step_other. exact Hqa.
    + destruct Hin as [->|Hin]; [reflexivity|contradiction].
  - destruct (in_dec Nat.eq_dec q l) as [Hl|Hl].
    + exfalso. apply Hnin. right. exact Hl.
    + apply step_other. intros ->. apply Hnin. left. reflexivity.
Qed.

Lemma in_region_dec (s : Pool) q : {in_region s q} + {~ in_region s q}.
Proof. unfold in_region. destruct (le_lt_dec (ShipPointCount s) q), (lt_dec q (AllPointCount s)); [left|right..]; lia. Qed.

Lemma UpdateEphemeralParticles_slot t s q :
  slot (UpdateEphemeralParticles GetOceanSurfaceHeightAt PrecalcLoFreqSin t s) q =
  if in_region_dec (PoolState s) q then slot (step t s q) q else slot s q.
Proof.
  unfold UpdateEphemeralParticles. rewrite fold_slot by apply seq_NoDup.
  destruct (in_dec Nat.eq_dec q _) as [Hin|Hnin], (in_region_dec (PoolState s) q) as [Hr|Hr];
    try reflexivity; exfalso; rewrite in_seq in *; unfold in_region in *; lia.
Qed.

(** An iteration leaves the pool alone or expires its slot. *)
Lemma step_pool t s p :
  PoolState (step t s p) = PoolState s \/ PoolState (step t s p) = expire (PoolState s) p.
Proof.
  unfold UpdateEphemeralParticle.
  destruct (EphemeralTypeBuffer (PoolState s) p);
    [left; reflexivity| destruct (IsPinnedBuffer s p); [left; reflexivity|] | |];
    destruct (Qle_bool _ _); cbn; auto.
Qed.

Lemma fold_pool_counts t l s :
  ShipPointCount (PoolState (fold_left (step t) l s)) = ShipPointCount (PoolState s) /\
  AllPointCount (PoolState (fold_left (step t) l s)) = AllPointCount (PoolState s) /\
  FreeEphemeralParticleSearchStartIndex (PoolState (fold_left (step t) l s)) =
    FreeEphemeralParticleSearchStartIndex (PoolState s) /\
  EphemeralStartTimeBuffer (PoolState (fold_left (step t) l s)) =
    EphemeralStartTimeBuffer (PoolState s) /\
  EphemeralMaxLifetimeBuffer (PoolState (fold_left (step t) l s)) =
    EphemeralMaxLifetimeBuffer (PoolState s).
Proof.
  revert s. induction l as [|a l IH]; intros s; cbn [fold_left]; [auto|].
  destruct (IH (step t s a)) as (I1 & I2 & I3 & I4 & I5).
  rewrite I1, I2, I3, I4, I5.
  destruct (step_pool t s a) as [E|E]; rewrite E; auto.
Qed.

Lemma step_type t s p :
  EphemeralTypeBuffer (PoolState (step t s p)) p = EphemeralTypeBuffer (PoolState s) p \/
  EphemeralTypeBuffer (PoolState (step t s p)) p = None_.
Proof.
  destruct (step_pool t s p) as [E|E]; rewrite E; [left; reflexivity|].
  right. cbn. apply upd_eq.
Qed.

Lemma fold_reachable t l : forall s,
  (forall p, In p l -> in_region (PoolState s) p) ->
  Reachable (PoolState s) t -> Reachable (PoolState (fold_left (step t) l s)) t.
Proof.
  induction l as [|a l IH]; intros s Hl Hr; cbn [fold_left]; [exact Hr|].
  assert (Hreg : forall p, in_region (PoolState (step t s a)) p <-> in_region (PoolState s) p).
  { intros p. destruct (step_pool t s a) as [E|E]; rewrite E; reflexivity. }
  apply IH.
  - intros p Hp. apply Hreg. apply Hl. right. exact Hp.
  - destruct (step_pool t s a) as [E|E]; rewrite E; [exact Hr|].
    apply R_expire; [exact Hr|]. apply Hl. left. reflexivity.
Qed.

Lemma slot_in t s q :
  in_region (PoolState s) q ->
  slot (UpdateEphemeralParticles GetOceanSurfaceHeightAt PrecalcLoFreqSin t s) q =
  slot (step t s q) q.
Proof.
  intros Hq. rewrite UpdateEphemeralParticles_slot.
  destruct (in_region_dec (PoolState s) q); [reflexivity|contradiction].
Qed.

Lemma slot_out t s q :
  ~ in_region (PoolState s) q ->
  slot (UpdateEphemeralParticles GetOceanSurfaceHeightAt PrecalcLoFreqSin t s) q = slot s q.
Proof.
  intros Hq. rewrite UpdateEphemeralParticles_slot.
  destruct (in_region_dec (PoolState s) q); [contradiction|reflexivity].
Qed.

Lemma Qle_bool_false x y : Qle_bool x y = false -> y < x.
Proof.
  intros H. apply Qnot_le_lt. intros Hle. apply Qle_bool_iff in Hle. congruence.
Qed.

Ltac to_slot s' q :=
  change (EphemeralTypeBuffer (PoolState s') q) with (slot_type (slot s' q)) in *;
  change (IsPinnedBuffer s' q) with (slot_pinned (slot s' q)) in *;
  change (PositionX s' q) with (slot_x (slot s' q)) in *;
  change (ColorAlpha s' q) with (slot_alpha (slot s' q)) in *;
  change (AirBubbleCurrentDeltaY s' q) with (slot_dy (slot s' q)) in *;
  change (AirBubbleProgress s' q) with (slot_progress (slot s' q)) in *;
  change (AirBubbleLastVortexValue s' q) with (slot_last_vortex (slot s' q)) in *;
  change (SparkleProgress s' q) with (slot_sparkle_progress (slot s' q)) in *.

Ltac slot_step_in t s q Hq :=
  let Hs := fresh "Hs" in
  pose proof (slot_in t s q Hq) as Hs;
  remember (UpdateEphemeralParticles GetOceanSurfaceHeightAt PrecalcLoFreqSin t s) as s' eqn:Es;
  clear Es; to_slot s' q; rewrite Hs; clear Hs; unfold UpdateEphemeralParticle.

Ltac slot_compute :=
  unfold slot, expire_particle, set_dirty, set_air_bubble_progress, set_air_bubble_vortex,
    set_alpha, set_sparkle_progress, expire;
  cbn [PoolState EphemeralTypeBuffer EphemeralStartTimeBuffer EphemeralMaxLifetimeBuffer
       IsPinnedBuffer PositionX PositionY ColorAlpha AirBubbleCurrentDeltaY AirBubbleProgress
       AirBubbleVortexAmplitude AirBubbleNormalizedVortexAngularVelocity
       AirBubbleLastVortexValue SparkleProgress
       slot_type slot_pinned slot_x slot_alpha slot_dy slot_progress slot_last_vortex
       slot_sparkle_progress];
  unfold upd; rewrite ?Nat.eqb_refl.

(** The update of the ephemeral particles never allocates: the pool
    bounds, the search start, the start times and the maximum lifetimes
    stay as they are, and each slot keeps its kind or, if it is an
    ephemeral slot, becomes free. *)
Theorem UpdateEphemeralParticles_only_frees t s :
  let s' := UpdateEphemeralParticles GetOceanSurfaceHeightAt PrecalcLoFreqSin t s in
  ShipPointCount (PoolState s') = ShipPointCount (PoolState s) /\
  AllPointCount (PoolState s') = AllPointCount (PoolState s) /\
  FreeEphemeralParticleSearchStartIndex (PoolState s') =
    FreeEphemeralParticleSearchStartIndex (PoolState s) /\
  EphemeralStartTimeBuffer (PoolState s') = EphemeralStartTimeBuffer (PoolState s) /\
  EphemeralMaxLifetimeBuffer (PoolState s') = EphemeralMaxLifetimeBuffer (PoolState s) /\
  (forall q, EphemeralTypeBuffer (PoolState s') q = EphemeralTypeBuffer (PoolState s) q \/
             (in_region (PoolState s) q /\ EphemeralTypeBuffer (PoolState s') q = None_)).
Proof.
  cbv zeta.
  destruct (fold_pool_counts t
              (seq (ShipPointCount (PoolState s))
                   (AllPointCount (PoolState s) - ShipPointCount (PoolState s))) s)
    as (F1 & F2 & F3 & F4 & F5).
  split; [exact F1|]. split; [exact F2|]. split; [exact F3|]. split; [exact F4|].
  split; [exact F5|].
  intros q.
  pose proof (UpdateEphemeralParticles_slot t s q) as Hs.
  apply (f_equal slot_type) in Hs. cbn [slot slot_type] in Hs. rewrite Hs.
  destruct (in_region_dec (PoolState s) q) as [Hr|Hr]; cbn [slot slot_type].
  - destruct (step_type t s q) as [E|E]; [left; exact E|right; split; [exact Hr|exact E]].
  - left. reflexivity.
Qed.

(** Debris and sparkles expire by age: an ephemeral slot holding one is
    freed by the update at time [t] exactly when its elapsed lifetime
    [t - start] has reached its maximum lifetime, and keeps its kind
    otherwise. *)
Theorem UpdateEphemeralParticles_expiry_by_age t s q :
  in_region (PoolState s) q ->
  (EphemeralTypeBuffer (PoolState s) q = Debris \/
   EphemeralTypeBuffer (PoolState s) q = Sparkle) ->
  let s' := UpdateEphemeralParticles GetOceanSurfaceHeightAt PrecalcLoFreqSin t s in
  let elapsedLifetime := t - EphemeralStartTimeBuffer (PoolState s) q in
  (EphemeralMaxLifetimeBuffer (PoolState s) q <= elapsedLifetime ->
   EphemeralTypeBuffer (PoolState s') q = None_) /\
  (elapsedLifetime < EphemeralMaxLifetimeBuffer (PoolState s) q ->
   EphemeralTypeBuffer (PoolState s') q = EphemeralTypeBuffer (PoolState s) q).
Proof.
  intros Hq Ht. cbv zeta.
  slot_step_in t s q Hq.
  destruct Ht as [Ht|Ht]; rewrite Ht;
    destruct (Qle_bool _ _) eqn:L; slot_compute;
    split; intros H; try congruence; exfalso;
    first [apply Qle_bool_iff in L; apply (Qlt_not_le _ _ H L)
          | apply Qle_bool_false in L; apply (Qlt_not_le _ _ L H)].
Qed.

(** A debris particle that survives the update fades with its age: when
    [start <= t] and [t - start] is below its maximum lifetime, the update
    sets its alpha to [max(1 - elapsed / maxLifetime, 0)], which lies in
    [(0, 1]]. *)
Theorem UpdateEphemeralParticles_debris_alpha t s q :
  in_region (PoolState s) q ->
  EphemeralTypeBuffer (PoolState s) q = Debris ->
  EphemeralStartTimeBuffer (PoolState s) q <= t ->
  t - EphemeralStartTimeBuffer (PoolState s) q < EphemeralMaxLifetimeBuffer (PoolState s) q ->
  let s' := UpdateEphemeralParticles GetOceanSurfaceHeightAt PrecalcLoFreqSin t s in
  ColorAlpha s' q =
    Qmax (1 - (t - EphemeralStartTimeBuffer (PoolState s) q)
              / EphemeralMaxLifetimeBuffer (PoolState s) q) 0 /\
  0 < ColorAlpha s' q <= 1.
Proof.
  intros Hq Ht H0 Hlt. cbv zeta.
  slot_step_in t s q Hq. rewrite Ht.
  destruct (Qle_bool _ _) eqn:L.
  { exfalso. apply Qle_bool_iff in L. apply (Qlt_not_le _ _ Hlt L). }
  slot_compute.
  set (e := t - EphemeralStartTimeBuffer (PoolState s) q) in *.
  set (m := EphemeralMaxLifetimeBuffer (PoolState s) q) in *.
  split; [reflexivity|].
  assert (Hm : 0 < m) by (unfold e in *; lra).
  assert (R0 : 0 <= e / m) by (apply Qle_shift_div_l; [exact Hm|]; unfold e; lra).
  assert (R1 : e / m < 1) by (apply Qlt_shift_div_r; [exact Hm|]; lra).
  rewrite Q.max_l by lra. lra.
Qed.

(** A sparkle that survives the update gets the progress
    [elapsed / maxLifetime], with [elapsed = t - start], which lies in
    [[0, 1)] when [start <= t]. *)
Theorem UpdateEphemeralParticles_sparkle_progress t s q :
  in_region (PoolState s) q ->
  EphemeralTypeBuffer (PoolState s) q = Sparkle ->
  EphemeralStartTimeBuffer (PoolState s) q <= t ->
  t - EphemeralStartTimeBuffer (PoolState s) q < EphemeralMaxLifetimeBuffer (PoolState s) q ->
  let s' := UpdateEphemeralParticles GetOceanSurfaceHeightAt PrecalcLoFreqSin t s in
  SparkleProgress s' q =
    (t - EphemeralStartTimeBuffer (PoolState s) q) / EphemeralMaxLifetimeBuffer (PoolState s) q /\
  0 <= SparkleProgress s' q < 1.
Proof.
  intros Hq Ht H0 Hlt. cbv zeta.
  slot_step_in t s q Hq. rewrite Ht.
  destruct (Qle_bool _ _) eqn:L.
  { exfalso. apply Qle_bool_iff in L. apply (Qlt_not_le _ _ Hlt L). }
  slot_compute.
  set (e := t - EphemeralStartTimeBuffer (PoolState s) q) in *.
  set (m := EphemeralMaxLifetimeBuffer (PoolState s) q) in *.
  split; [reflexivity|].
  assert (Hm : 0 < m) by (unfold e in *; lra).
  split.
  - apply Qle_shift_div_l; [exact Hm|]. unfold e; lra.
  - apply Qlt_shift_div_r; [exact Hm|]. lra.
Qed.

(** The air bubble state machine: a pinned bubble is left as it is (its
    whole slot, kind, times, position, color and bubble fields, is
    unchanged); an unpinned one expires once it is at or above the ocean
    surface ([deltaY <= 0]); below the surface it stays a bubble, records
    [deltaY] and gets the progress [-1 / (-1 + min(y, 0))], which lies in
    [(0, 1]]. *)
Theorem UpdateEphemeralParticles_air_bubble t s q :
  in_region (PoolState s) q ->
  EphemeralTypeBuffer (PoolState s) q = AirBubble ->
  let s' := UpdateEphemeralParticles GetOceanSurfaceHeightAt PrecalcLoFreqSin t s in
  let deltaY := GetOceanSurfaceHeightAt (PositionX s q) - PositionY s q in
  (IsPinnedBuffer s q = true -> slot s' q = slot s q) /\
  (IsPinnedBuffer s q = false -> deltaY <= 0 -> EphemeralTypeBuffer (PoolState s') q = None_) /\
  (IsPinnedBuffer s q = false -> 0 < deltaY ->
   EphemeralTypeBuffer (PoolState s') q = AirBubble /\ AirBubbleCurrentDeltaY s' q = deltaY /\
   AirBubbleProgress s' q = -1 / (-1 + Qmin (PositionY s q) 0) /\
   0 < AirBubbleProgress s' q <= 1).
Proof.
  intros Hq Ht. cbv zeta.
  slot_step_in t s q Hq. rewrite Ht.
  destruct (IsPinnedBuffer s q) eqn:P.
  { split; [intros _; reflexivity|]. split; intros H; discriminate H. }
  destruct (Qle_bool _ _) eqn:L; slot_compute.
  - split; [intros H; discriminate H|]. split; [reflexivity|].
    intros _ Hlt. exfalso. apply Qle_bool_iff in L. apply (Qlt_not_le _ _ Hlt L).
  - split; [intros H; discriminate H|]. split.
    { intros _ Hle. exfalso. apply Qle_bool_false in L. apply (Qlt_not_le _ _ L Hle). }
    intros _ _. rewrite Ht. split; [reflexivity|]. split; [reflexivity|].
    split; [reflexivity|].
    set (d := -1 + Qmin (PositionY s q) 0).
    assert (Hd : d <= -1) by (unfold d; pose proof (Q.le_min_r (PositionY s q) 0); lra).
    assert (E : -1 / d == 1 / (- d)) by (field; intros Hz; lra).
    rewrite E. split.
    + apply Qlt_shift_div_l; lra.
    + apply Qle_shift_div_r; lra.
Qed.

(** The vortex of an air bubble moves it sideways by the change of the
    vortex value and records the new value, so for every slot
    [x - LastVortexValue] is the same before and after the update: the
    bubble's position without its current vortex offset is kept. *)
Theorem UpdateEphemeralParticles_vortex_offset t s q :
  let s' := UpdateEphemeralParticles GetOceanSurfaceHeightAt PrecalcLoFreqSin t s in
  PositionX s' q - AirBubbleLastVortexValue s' q == PositionX s q - AirBubbleLastVortexValue s q.
Proof.
  cbv zeta.
  pose proof (UpdateEphemeralParticles_slot t s q) as Hs.
  remember (UpdateEphemeralParticles GetOceanSurfaceHeightAt PrecalcLoFreqSin t s) as s' eqn:Es.
  clear Es. to_slot s' q. rewrite Hs. clear Hs.
  destruct (in_region_dec (PoolState s) q) as [Hr|Hr]; [|reflexivity].
  unfold UpdateEphemeralParticle.
  destruct (EphemeralTypeBuffer (PoolState s) q);
    [reflexivity| destruct (IsPinnedBuffer s q); [reflexivity|] | |];
    destruct (Qle_bool _ _); slot_compute; try reflexivity; ring.
Qed.

(** Updating the ephemeral particles at a time [t'] no earlier than the
    pool's time [t] only expires ephemeral slots, so the pool stays one
    that the allocation traces reach, at time [t']. *)
Theorem UpdateEphemeralParticles_reachable t t' s :
  Reachable (PoolState s) t -> t <= t' ->
  Reachable (PoolState (UpdateEphemeralParticles GetOceanSurfaceHeightAt PrecalcLoFreqSin t' s)) t'.
Proof.
  intros Hr Ht. unfold UpdateEphemeralParticles. apply fold_reachable.
  - intros p Hp. apply in_seq in Hp. unfold in_region. lia.
  - apply R_tick with t; assumption.
Qed.

End Step.

(** A pool with one ship point and three ephemeral slots: a debris
    particle (slot 1, lifetime 10), a sparkle (slot 2, lifetime 2) and an
    unpinned air bubble three metres deep (slot 3), all started at 0, in
    calm water at height 0. *)
Definition ephemeral_pool_example : Pool :=
  {| ShipPointCount := 1; AllPointCount := 4;
     EphemeralTypeBuffer := fun p => match p with
                                     | 1%nat => Debris | 2%nat => Sparkle | 3%nat => AirBubble
                                     | _ => None_ end;
     EphemeralStartTimeBuffer := fun _ => 0;
     EphemeralMaxLifetimeBuffer := fun p => match p with
                                            | 1%nat => 10 | 2%nat => 2 | _ => FloatMax end;
     FreeEphemeralParticleSearchStartIndex := 1 |}.

Definition particles_example : Particles :=
  mkParticles ephemeral_pool_example (fun _ => false) (fun _ => 0) (fun _ => -3) (fun _ => 1)
    (fun _ => 0) (fun _ => 0) (fun _ => 1) (fun _ => 1) (fun _ => 0) (fun _ => 0) false.

Definition calm_ocean (x : Q) : Q := 0.
Definition zero_sin (x : Q) : Q := 0.

Lemma ephemeral_pool_example_reachable : Reachable ephemeral_pool_example 0.
Proof.
  apply R_init.
  - cbn. lia.
  - unfold in_region. cbn. lia.
  - intros p. cbn. apply Qle_refl.
Qed.

Lemma UpdateEphemeralParticles_expiry_by_age_witness :
  in_region (PoolState particles_example) 2 /\
  EphemeralTypeBuffer (PoolState particles_example) 2 = Sparkle /\
  EphemeralTypeBuffer
    (PoolState (UpdateEphemeralParticles calm_ocean zero_sin 5 particles_example)) 2 = None_.
Proof.
  assert (Hq : in_region (PoolState particles_example) 2) by (unfold in_region; cbn; lia).
  split; [exact Hq|]. split; [reflexivity|].
  apply (proj1 (UpdateEphemeralParticles_expiry_by_age calm_ocean zero_sin 5 particles_example 2
                  Hq (or_intror eq_refl))).
  vm_compute. discriminate.
Defined.

Lemma UpdateEphemeralParticles_debris_alpha_witness :
  in_region (PoolState particles_example) 1 /\
  (let s' := UpdateEphemeralParticles calm_ocean zero_sin 5 particles_example in
   ColorAlpha s' 1 = Qmax (1 - (5 - 0) / 10) 0 /\ 0 < ColorAlpha s' 1 <= 1).
Proof.
  assert (Hq : in_region (PoolState particles_example) 1) by (unfold in_region; cbn; lia).
  split; [exact Hq|].
  apply (UpdateEphemeralParticles_debris_alpha calm_ocean zero_sin 5 particles_example 1
           Hq eq_refl); vm_compute; first [reflexivity | discriminate].
Defined.

Lemma UpdateEphemeralParticles_sparkle_progress_witness :
  in_region (PoolState particles_example) 2 /\
  (let s' := UpdateEphemeralParticles calm_ocean zero_sin 1 particles_example in
   SparkleProgress s' 2 = (1 - 0) / 2 /\ 0 <= SparkleProgress s' 2 < 1).
Proof.
  assert (Hq : in_region (PoolState particles_example) 2) by (unfold in_region; cbn; lia).
  split; [exact Hq|].
  apply (UpdateEphemeralParticles_sparkle_progress calm_ocean zero_sin 1 particles_example 2
           Hq eq_refl); vm_compute; first [reflexivity | discriminate].
Defined.

Lemma UpdateEphemeralParticles_air_bubble_witness :
  in_region (PoolState particles_example) 3 /\
  (let s' := UpdateEphemeralParticles calm_ocean zero_sin 1 particles_example in
   EphemeralTypeBuffer (PoolState s') 3 = AirBubble /\
   AirBubbleCurrentDeltaY s' 3 = calm_ocean (PositionX particles_example 3) - PositionY particles_example 3 /\
   AirBubbleProgress s' 3 = -1 / (-1 + Qmin (PositionY particles_example 3) 0) /\
   0 < AirBubbleProgress s' 3 <= 1).
Proof.
  assert (Hq : in_region (PoolState particles_example) 3) by (unfold in_region; cbn; lia).
  split; [exact Hq|].
  apply (proj2 (proj2 (UpdateEphemeralParticles_air_bubble calm_ocean zero_sin 1 particles_example 3
                         Hq eq_refl)) eq_refl).
  vm_compute. reflexivity.
Defined.

Lemma UpdateEphemeralParticles_reachable_witness :
  Reachable ephemeral_pool_example 0 /\ 0 <= 5 /\
  Reachable (PoolState (UpdateEphemeralParticles calm_ocean zero_sin 5 particles_example)) 5.
Proof.
  assert (H05 : 0 <= 5) by (vm_compute; discriminate).
  split; [exact ephemeral_pool_example_reachable|]. split; [exact H05|].
  apply (UpdateEphemeralParticles_reachable calm_ocean zero_sin 0 5 particles_example
           ephemeral_pool_example_reachable H05).
Defined.

End EphemeralParticlesProofs.

(* ------------------------------------------------------------------ *)
(** ** Ocean surface: external wave and render samples *)

Module OceanSurfaceProofs.
Import Ocean OceanProofs.
Local Open Scope R_scope.

(** [CalculateSmoothingDelay] lasts at least one simulation step and at
    most 221 of them: the tick count is clamped below at 1, and the height
    difference it is computed from is clamped at [SWEHeightFieldOffset / 5]. *)
Theorem CalculateSmoothingDelay_bounds (c : OceanConstants) (phase : WavePhaseType)
    (target current : R) :
  0 <= SimulationStepTimeDuration c ->
  SimulationStepTimeDuration c <= CalculateSmoothingDelay c phase target current
    <= 221 * SimulationStepTimeDuration c.
Proof.
  intros Hdt. unfold CalculateSmoothingDelay.
  set (deltaH := Rmin (Rabs (target - current)) (SWEHeightFieldOffset / 5)).
  assert (Hd : 0 <= deltaH).
  { unfold deltaH. apply Rmin_glb; [apply Rabs_pos|unfold SWEHeightFieldOffset; Lra.lra]. }
  assert (Hexp : forall x, x <= 0 -> 0 < exp x <= 1).
  { intros x Hx. split; [apply exp_pos|]. rewrite <- exp_0.
    destruct (Req_dec x 0) as [->|E]; [Lra.lra|].
    left. apply exp_increasing. Lra.lra. }
  set (ticks := match phase with
                | Rise => -19.88881 + 147.403 / 0.6126081 * (1 - exp (-0.6126081 * deltaH))
                | Fall => 1.220013 + 7.8394 / 0.6485749 * (1 - exp (-0.6485749 * deltaH))
                end).
  assert (Ht : ticks <= 221).
  { unfold ticks. destruct phase.
    - assert (E := Hexp (-0.6126081 * deltaH) ltac:(Lra.lra)). Lra.lra.
    - assert (E := Hexp (-0.6485749 * deltaH) ltac:(Lra.lra)). Lra.lra. }
  fold ticks. split.
  - rewrite <- (Rmult_1_l (SimulationStepTimeDuration c)) at 1.
    apply Rmult_le_compat_r; [exact Hdt|apply Rmax_r].
  - apply Rmult_le_compat_r; [exact Hdt|]. apply Rmax_lub; Lra.lra.
Qed.


(** The height an update yields lies between the phase start and target. *)
Theorem Update_height_between (c : OceanConstants) (m : SWEWaveStateMachine) (t h : R) :
  0 < SmoothingDelay m -> StartSimulationTime m <= t ->
  snd (Update c m t) = Some h ->
  Rmin (CurrentPhaseStartHeight m) (CurrentPhaseTargetHeight m) <= h
  <= Rmax (CurrentPhaseStartHeight m) (CurrentPhaseTargetHeight m).
Proof.
  intros Hd Ht Hh.
  assert (Hp : 0 <= Rmin (NextProgress m t) 1 <= 1).
  { unfold NextProgress. destruct (Rlt_dec (CurrentProgress m) 1) as [_|Hn].
    - split; [|apply Rmin_r]. apply Rmin_glb; [|Lra.lra].
      unfold Rdiv. apply Rmult_le_pos; [Lra.lra|].
      left. apply Rinv_0_lt_compat. exact Hd.
    - rewrite Rmin_right by Lra.lra. Lra.lra. }
  set (s := sin (PI / 2 * Rmin (NextProgress m t) 1)).
  assert (Hs : 0 <= s <= 1).
  { pose proof PI_RGT_0 as HPI. unfold s. split; [|apply (proj2 (SIN_bound _))].
    apply sin_ge_0.
    - apply Rmult_le_pos; Lra.lra.
    - assert (PI / 2 * Rmin (NextProgress m t) 1 <= PI / 2 * 1)
        by (apply Rmult_le_compat_l; Lra.lra). Lra.lra. }
  assert (Eh : h = CurrentPhaseStartHeight m
                   + (CurrentPhaseTargetHeight m - CurrentPhaseStartHeight m) * s).
  { unfold Update in Hh. fold s in Hh.
    destruct (Rle_dec 1 (NextProgress m t));
      [destruct (CurrentWavePhase m); [destruct (ReleaseMode m)|]|];
      cbn [snd] in Hh; congruence. }
  rewrite Eh.
  set (S0 := CurrentPhaseStartHeight m). set (T0 := CurrentPhaseTargetHeight m).
  destruct (Rle_dec S0 T0) as [Hle|Hgt].
  - rewrite Rmin_left, Rmax_right by exact Hle.
    assert (0 <= (T0 - S0) * s) by (apply Rmult_le_pos; Lra.lra).
    assert ((T0 - S0) * s <= (T0 - S0) * 1) by (apply Rmult_le_compat_l; Lra.lra).
    Lra.lra.
  - rewrite Rmin_right, Rmax_left by Lra.lra.
    assert (0 <= (S0 - T0) * s) by (apply Rmult_le_pos; Lra.lra).
    assert ((S0 - T0) * s <= (S0 - T0) * 1) by (apply Rmult_le_compat_l; Lra.lra).
    Lra.lra.
Qed.

(** A fall phase still in progress ends exactly when its smoothing delay
    has elapsed since the phase start. *)
Theorem Update_fall_ends (c : OceanConstants) (m : SWEWaveStateMachine) (t : R) :
  CurrentWavePhase m = Fall -> CurrentProgress m < 1 -> 0 < SmoothingDelay m ->
  (snd (Update c m t) = None <-> StartSimulationTime m + SmoothingDelay m <= t).
Proof.
  intros Hf Hp Hd. unfold Update, NextProgress.
  destruct (Rlt_dec (CurrentProgress m) 1) as [_|Hn]; [|Lra.lra].
  rewrite Hf.
  destruct (Rle_dec 1 ((t - StartSimulationTime m) / SmoothingDelay m)) as [H1|H1];
    cbn [snd]; split; intros H; try reflexivity; try discriminate.
  - apply Rmult_le_compat_r with (r := SmoothingDelay m) in H1; [|Lra.lra].
    unfold Rdiv in H1. rewrite Rmult_assoc, Rinv_l, Rmult_1_r in H1 by Lra.lra.
    Lra.lra.
  - exfalso. apply H1. unfold Rdiv.
    apply Rmult_le_reg_r with (r := SmoothingDelay m); [exact Hd|].
    rewrite Rmult_assoc, Rinv_l, Rmult_1_r by Lra.lra. Lra.lra.
Qed.

Lemma ocean_fold_inv {A B} (P : A -> Prop) (f : A -> B -> A) :
  (forall a b, P a -> P (f a b)) -> forall l a, P a -> P (fold_left f l a).
Proof.
  intros Hf l. induction l as [|b l IH]; intros a Ha; [exact Ha|].
  cbn [fold_left]. apply IH, Hf, Ha.
Qed.

(** The SWE passes leave the external wave alone. *)
Lemma OceanUpdate_wave c o t :
  SWEExternalWaveStateMachine (OceanUpdate c o t)
  = SWEExternalWaveStateMachine (AdvanceExternalWave c o t).
Proof.
  unfold OceanUpdate, SwapBuffers, SetBoundaryConditions, UpdateVelocityField,
    UpdateHeightField, AdvectVelocityField, AdvectHeightField.
  cbn [mkOcean SWEExternalWaveStateMachine].
  set (w := SWEExternalWaveStateMachine (AdvanceExternalWave c o t)).
  repeat (apply (ocean_fold_inv (fun o => SWEExternalWaveStateMachine o = w));
          [intros a b Ha; exact Ha|]).
  reflexivity.
Qed.

Lemma Update_ReleaseMode c m t : ReleaseMode (fst (Update c m t)) = ReleaseMode m.
Proof.
  unfold Update. destruct (Rle_dec 1 (NextProgress m t));
    [destruct (CurrentWavePhase m); [destruct (ReleaseMode m) eqn:E|]|]; cbn; auto.
Qed.

(** On a surface with an external wave, two releases in a row, at any
    times, both pass the assertion of [AdjustTo] and end the wave at the
    next update: the first starts the fall (or completes it), the second
    sets its progress to 1. *)
Theorem release_twice_ends_wave (c : OceanConstants) (o : OceanSurface)
    (t1 t2 t3 : R) (si1 si2 : Z) :
  SWEExternalWaveStateMachine o <> None ->
  let o1 := AdjustTo c o None t1 si1 in
  AdjustToAssert o None = true /\ AdjustToAssert o1 None = true /\
  SWEExternalWaveStateMachine (OceanUpdate c (AdjustTo c o1 None t2 si2) t3) = None.
Proof.
  intros Hw. cbv zeta.
  rewrite OceanUpdate_wave. unfold AdvanceExternalWave, AdjustToAssert, AdjustTo.
  cbn [mkOcean SWEExternalWaveStateMachine].
  destruct (SWEExternalWaveStateMachine o) as [m|]; [|contradiction].
  split; [reflexivity|]. split; [reflexivity|].
  set (m2 := Release c (Release c m t1) t2).
  assert (Hm2 : CurrentWavePhase m2 = Fall /\ CurrentProgress m2 = 1).
  { unfold m2, Release.
    destruct (CurrentWavePhase m) eqn:E; cbn;
      unfold with_progress_and_height; cbn; rewrite ?E; split; reflexivity. }
  destruct Hm2 as [Hf Hp].
  unfold Update, NextProgress. rewrite Hp.
  destruct (Rlt_dec 1 1) as [Hl|_]; [Lra.lra|].
  destruct (Rle_dec 1 1) as [_|Hn]; [|Lra.lra].
  rewrite Hf. reflexivity.
Qed.

(** Every external wave of a reachable ocean surface is released on cue:
    [AdjustTo] creates only [OnCue] waves and no operation changes the mode. *)
Theorem OceanReachable_OnCue (c : OceanConstants) (o : OceanSurface) :
  OceanReachable c o ->
  forall m, SWEExternalWaveStateMachine o = Some m -> ReleaseMode m = OnCue.
Proof.
  induction 1 as [|o t Hr IH|o wc t si Hr IH]; intros m' Hm.
  - discriminate.
  - rewrite OceanUpdate_wave in Hm. unfold AdvanceExternalWave in Hm.
    destruct (SWEExternalWaveStateMachine o) as [m|] eqn:Ew; [|congruence].
    destruct (Update c m t) as [m1 [h|]] eqn:Eu; cbn in Hm; [|discriminate].
    injection Hm as <-.
    pose proof (Update_ReleaseMode c m t) as Hmode. rewrite Eu in Hmode.
    cbn in Hmode. rewrite Hmode. apply IH. reflexivity.
  - unfold AdjustTo in Hm. cbn in Hm.
    destruct wc as [[x y]|];
      destruct (SWEExternalWaveStateMachine o) as [m|] eqn:Ew;
      try discriminate; injection Hm as <-.
    + cbn. apply IH. reflexivity.
    + reflexivity.
    + unfold Release. destruct (CurrentWavePhase m); cbn; apply IH; reflexivity.
Qed.

Lemma rising_update_on_cue c m t :
  ReleaseMode m = OnCue -> CurrentWavePhase m = Rise ->
  exists h, Update c m t = (with_progress_and_height m (NextProgress m t) h, Some h).
Proof.
  intros Hm Hr. unfold Update. rewrite Hr, Hm.
  destruct (Rle_dec 1 (NextProgress m t)); eexists; reflexivity.
Qed.

(** In a reachable ocean surface a rising external wave is never dropped:
    it keeps rising at the same sample, whatever the update time, until it
    is released. *)
Theorem OceanReachable_rise_holds (c : OceanConstants) (o : OceanSurface)
    (m : SWEWaveStateMachine) (t : R) :
  OceanReachable c o -> SWEExternalWaveStateMachine o = Some m ->
  CurrentWavePhase m = Rise ->
  exists m', SWEExternalWaveStateMachine (OceanUpdate c o t) = Some m' /\
             CurrentWavePhase m' = Rise /\ SampleIndex m' = SampleIndex m.
Proof.
  intros Hr Hm Hrise.
  pose proof (OceanReachable_OnCue c o Hr m Hm) as Hcue.
  destruct (rising_update_on_cue c m t Hcue Hrise) as [h Eu].
  rewrite OceanUpdate_wave. unfold AdvanceExternalWave. rewrite Hm, Eu.
  eexists. split; [reflexivity|]. cbn. split; [exact Hrise|reflexivity].
Qed.

(** A surface at rest: every cell of every buffer at the rest values and no
    external wave. *)
Definition OceanAtRest (o : OceanSurface) : Prop :=
  (forall i, CurrentHeightField o i = SWEHeightFieldOffset /\
             NextHeightField o i = SWEHeightFieldOffset /\
             CurrentVelocityField o i = 0 /\ NextVelocityField o i = 0) /\
  SWEExternalWaveStateMachine o = None.

Lemma Interpolate_const c (f : nat -> R) (k : R) i v :
  (forall j, f j = k) -> Interpolate c f i v = k.
Proof. intros Hf. unfold Interpolate. rewrite !Hf. ring. Qed.

Ltac rest_step :=
  let a := fresh "a" in let b := fresh "b" in let Ha := fresh "Ha" in
  let Hw := fresh "Hw" in let j := fresh "j" in
  intros a b [Ha Hw]; split; [|exact Hw]; intros j;
  cbn [mkOcean CurrentHeightField NextHeightField CurrentVelocityField NextVelocityField];
  unfold upd; destruct (Nat.eqb j b);
  repeat match goal with |- _ /\ _ => split end;
  try apply (proj1 (Ha j)); try apply (proj1 (proj2 (Ha j)));
  try apply (proj1 (proj2 (proj2 (Ha j)))); try apply (proj2 (proj2 (proj2 (Ha j)))).

(** An ocean surface at rest stays at rest: with no wave, flat heights and
    zero velocities, an update changes nothing. *)
Theorem OceanUpdate_rest (c : OceanConstants) (o : OceanSurface) (t : R) :
  OceanAtRest o -> OceanAtRest (OceanUpdate c o t).
Proof.
  intros Hrest.
  assert (Hadv : AdvanceExternalWave c o t = o).
  { unfold AdvanceExternalWave. rewrite (proj2 Hrest). reflexivity. }
  unfold OceanUpdate. rewrite Hadv.
  assert (H1 : OceanAtRest (AdvectHeightField c o)).
  { unfold AdvectHeightField. revert Hrest. apply ocean_fold_inv. rest_step.
    apply Interpolate_const. intros k. apply (proj1 (Ha k)). }
  assert (H2 : OceanAtRest (AdvectVelocityField c (AdvectHeightField c o))).
  { unfold AdvectVelocityField. revert H1. apply ocean_fold_inv. rest_step.
    apply Interpolate_const. intros k. apply (proj1 (proj2 (proj2 (Ha k)))). }
  assert (H3 : OceanAtRest (UpdateHeightField c
                 (AdvectVelocityField c (AdvectHeightField c o)))).
  { unfold UpdateHeightField. revert H2. apply ocean_fold_inv. rest_step.
    destruct (Ha b) as (_ & Hn & _ & Hv). destruct (Ha (b + 1)%nat) as (_ & _ & _ & Hv').
    rewrite Hn, Hv, Hv'. unfold Rdiv. ring. }
  assert (H4 : OceanAtRest (UpdateVelocityField c (UpdateHeightField c
                 (AdvectVelocityField c (AdvectHeightField c o))))).
  { unfold UpdateVelocityField. revert H3. apply ocean_fold_inv. rest_step.
    destruct (Ha b) as (_ & Hn & _ & Hv). destruct (Ha (b - 1)%nat) as (_ & Hn' & _ & _).
    rewrite Hn, Hv, Hn'. unfold Rdiv. ring. }
  set (o4 := UpdateVelocityField c _) in *.
  destruct H4 as [Hc Hw]. split.
  - intros j. unfold SwapBuffers, SetBoundaryConditions, upd.
    cbn [mkOcean CurrentHeightField NextHeightField CurrentVelocityField NextVelocityField].
    destruct (Hc j) as (A1 & A2 & A3 & A4).
    repeat split; try assumption;
      repeat (destruct (Nat.eqb _ _)); try apply (proj1 (proj2 (Hc _))); assumption.
  - exact Hw.
Qed.


(** Examples: a fall from 1 to 0 over a delay of 2, and a surface on
    which the user has just started a wave at sample 0. *)
Definition wave_fall_example : SWEWaveStateMachine :=
  {| SampleIndex := 0; LowHeight := 0; CurrentPhaseStartHeight := 1;
     CurrentPhaseTargetHeight := 0; CurrentHeight := 1; CurrentProgress := 0;
     StartSimulationTime := 0; CurrentWavePhase := Fall; ReleaseMode := OnCue;
     SmoothingDelay := 2 |}.

Definition ocean_with_wave : OceanSurface :=
  AdjustTo ocean_example_constants (NewOceanSurface) (Some (0, 50)) 0 0%Z.

Lemma ocean_with_wave_reachable : OceanReachable ocean_example_constants ocean_with_wave.
Proof. apply O_adjust, O_init. Qed.

Lemma release_twice_ends_wave_witness :
  SWEExternalWaveStateMachine ocean_with_wave <> None /\
  let o1 := AdjustTo ocean_example_constants ocean_with_wave None 1 0%Z in
  AdjustToAssert ocean_with_wave None = true /\ AdjustToAssert o1 None = true /\
  SWEExternalWaveStateMachine
    (OceanUpdate ocean_example_constants (AdjustTo ocean_example_constants o1 None 2 0%Z) 3)
  = None.
Proof.
  assert (Hw : SWEExternalWaveStateMachine ocean_with_wave <> None)
    by (unfold ocean_with_wave, AdjustTo, NewOceanSurface, mkOcean; cbn; discriminate).
  split; [exact Hw|].
  apply (release_twice_ends_wave ocean_example_constants ocean_with_wave 1 2 3 0%Z 0%Z Hw).
Defined.

Lemma CalculateSmoothingDelay_bounds_witness :
  0 <= SimulationStepTimeDuration ocean_example_constants /\
  SimulationStepTimeDuration ocean_example_constants
    <= CalculateSmoothingDelay ocean_example_constants Rise 1 0
    <= 221 * SimulationStepTimeDuration ocean_example_constants.
Proof.
  assert (H : 0 <= SimulationStepTimeDuration ocean_example_constants)
    by (cbn; Lra.lra).
  split; [exact H|].
  apply (CalculateSmoothingDelay_bounds ocean_example_constants Rise 1 0 H).
Defined.

Lemma Update_height_between_witness :
  0 < SmoothingDelay wave_example /\ StartSimulationTime wave_example <= 0 /\
  snd (Update ocean_example_constants wave_example 0) = Some 0 /\
  Rmin (CurrentPhaseStartHeight wave_example) (CurrentPhaseTargetHeight wave_example) <= 0
  <= Rmax (CurrentPhaseStartHeight wave_example) (CurrentPhaseTargetHeight wave_example).
Proof.
  assert (H1 : 0 < SmoothingDelay wave_example) by (cbn; Lra.lra).
  assert (H2 : StartSimulationTime wave_example <= 0) by (cbn; Lra.lra).
  assert (H3 : snd (Update ocean_example_constants wave_example 0) = Some 0).
  { unfold Update, NextProgress, wave_example.
    cbn [CurrentProgress StartSimulationTime SmoothingDelay
         CurrentPhaseStartHeight CurrentPhaseTargetHeight].
    destruct (Rlt_dec 0 1) as [_|Hn]; [|Lra.lra].
    replace ((0 - 0) / 2) with 0 by Lra.lra.
    destruct (Rle_dec 1 0) as [Hle|_]; [Lra.lra|].
    rewrite Rmin_left by Lra.lra. rewrite Rmult_0_r, sin_0.
    cbn [snd]. f_equal. ring. }
  split; [exact H1|]. split; [exact H2|]. split; [exact H3|].
  apply (Update_height_between ocean_example_constants wave_example 0 0 H1 H2 H3).
Defined.

Lemma Update_fall_ends_witness :
  CurrentWavePhase wave_fall_example = Fall /\ CurrentProgress wave_fall_example < 1 /\
  0 < SmoothingDelay wave_fall_example /\
  (snd (Update ocean_example_constants wave_fall_example 3) = None <->
   StartSimulationTime wave_fall_example + SmoothingDelay wave_fall_example <= 3).
Proof.
  assert (H2 : CurrentProgress wave_fall_example < 1) by (cbn; Lra.lra).
  assert (H3 : 0 < SmoothingDelay wave_fall_example) by (cbn; Lra.lra).
  split; [reflexivity|]. split; [exact H2|]. split; [exact H3|].
  apply (Update_fall_ends ocean_example_constants wave_fall_example 3 eq_refl H2 H3).
Defined.

Lemma OceanReachable_OnCue_witness :
  OceanReachable ocean_example_constants ocean_with_wave /\
  SWEExternalWaveStateMachine ocean_with_wave
    = Some (NewSWEWaveStateMachine ocean_example_constants 0 100 101 OnCue 0) /\
  ReleaseMode (NewSWEWaveStateMachine ocean_example_constants 0 100 101 OnCue 0) = OnCue.
Proof.
  assert (Hw : SWEExternalWaveStateMachine ocean_with_wave
               = Some (NewSWEWaveStateMachine ocean_example_constants 0 100 101 OnCue 0)).
  { unfold ocean_with_wave, AdjustTo, NewOceanSurface, mkOcean. cbn.
    unfold SWEHeightFieldOffset. do 2 f_equal. Lra.lra. }
  split; [exact ocean_with_wave_reachable|]. split; [exact Hw|].
  apply (OceanReachable_OnCue ocean_example_constants ocean_with_wave
           ocean_with_wave_reachable _ Hw).
Defined.

Lemma OceanReachable_rise_holds_witness :
  OceanReachable ocean_example_constants ocean_with_wave /\
  SWEExternalWaveStateMachine ocean_with_wave
    = Some (NewSWEWaveStateMachine ocean_example_constants 0 100 101 OnCue 0) /\
  CurrentWavePhase (NewSWEWaveStateMachine ocean_example_constants 0 100 101 OnCue 0) = Rise /\
  exists m', SWEExternalWaveStateMachine (OceanUpdate ocean_example_constants ocean_with_wave 1)
               = Some m' /\ CurrentWavePhase m' = Rise /\ SampleIndex m' = 0%Z.
Proof.
  assert (Hw : SWEExternalWaveStateMachine ocean_with_wave
               = Some (NewSWEWaveStateMachine ocean_example_constants 0 100 101 OnCue 0)).
  { unfold ocean_with_wave, AdjustTo, NewOceanSurface, mkOcean. cbn.
    unfold SWEHeightFieldOffset. do 2 f_equal. Lra.lra. }
  split; [exact ocean_with_wave_reachable|]. split; [exact Hw|]. split; [reflexivity|].
  apply (OceanReachable_rise_holds ocean_example_constants ocean_with_wave _ 1
           ocean_with_wave_reachable Hw eq_refl).
Defined.

Lemma OceanUpdate_rest_witness :
  OceanAtRest NewOceanSurface /\
  OceanAtRest (OceanUpdate ocean_example_constants NewOceanSurface 5).
Proof.
  assert (H : OceanAtRest NewOceanSurface).
  { split; [intros i; cbn; repeat split|reflexivity]. }
  split; [exact H|]. apply (OceanUpdate_rest ocean_example_constants NewOceanSurface 5 H).
Defined.

End OceanSurfaceProofs.

(* ------------------------------------------------------------------ *)
(** ** Ocean surface: the render samples of step 5 *)

Module OceanSamplesProofs.
Import Ocean.
Local Open Scope R_scope.

(** The closed form of render sample [j]: the height of its SWE cell with
    the offset removed and amplified, plus the wind ripple at abscissa
    [j * Dx]. *)
Definition SampleClosedForm (c : OceanConstants) (o : OceanSurface)
    (currentSimulationTime windRipplesTimeFrequency windRipplesWaveHeight : R) (j : nat) : R :=
  (CurrentHeightField o (SWEOuterLayerSamples + j) - SWEHeightFieldOffset)
    * SWEHeightFieldAmplification
  + sin (INR j * Dx c * WindGustRippleSpatialFrequency
         - currentSimulationTime * windRipplesTimeFrequency) * windRipplesWaveHeight.

Lemma sv_value_eq s i v : SampleValue (set_sample_value s i v i) = v.
Proof. unfold set_sample_value. rewrite upd_eq. reflexivity. Qed.

Lemma sv_value_neq s i v j : j <> i -> SampleValue (set_sample_value s i v j) = SampleValue (s j).
Proof. intros H. unfold set_sample_value. rewrite upd_neq by exact H. reflexivity. Qed.

Lemma sv_delta s i v j :
  SampleValuePlusOneMinusSampleValue (set_sample_value s i v j)
  = SampleValuePlusOneMinusSampleValue (s j).
Proof.
  unfold set_sample_value, upd. destruct (Nat.eqb_spec j i) as [->|]; reflexivity.
Qed.

Lemma sd_value s i d j : SampleValue (set_sample_delta s i d j) = SampleValue (s j).
Proof.
  unfold set_sample_delta, upd. destruct (Nat.eqb_spec j i) as [->|]; reflexivity.
Qed.

Lemma sd_delta_eq s i d : SampleValuePlusOneMinusSampleValue (set_sample_delta s i d i) = d.
Proof. unfold set_sample_delta. rewrite upd_eq. reflexivity. Qed.

Lemma sd_delta_neq s i d j :
  j <> i -> SampleValuePlusOneMinusSampleValue (set_sample_delta s i d j)
            = SampleValuePlusOneMinusSampleValue (s j).
Proof. intros H. unfold set_sample_delta. rewrite upd_neq by exact H. reflexivity. Qed.

(** The loop over [1 .. k]: [x] is [(k + 1) * Dx], the samples up to [k]
    have their closed form, the deltas before [k] are the differences. *)
Lemma generate_loop c o t freq height s0 prev0 k :
  SampleValue (s0 0%nat) = SampleClosedForm c o t freq height 0 ->
  prev0 = SampleClosedForm c o t freq height 0 ->
  forall s x p,
  fold_left (GenerateSampleStep c o t freq height) (seq 1 k) (s0, Dx c, prev0) = (s, x, p) ->
  x = INR (S k) * Dx c /\ p = SampleClosedForm c o t freq height k /\
  (forall j, (j <= k)%nat -> SampleValue (s j) = SampleClosedForm c o t freq height j) /\
  (forall j, (j < k)%nat ->
     SampleValuePlusOneMinusSampleValue (s j)
     = SampleClosedForm c o t freq height (S j) - SampleClosedForm c o t freq height j).
Proof.
  intros H0 Hp0. induction k as [|k IH]; intros s x p E.
  - cbn in E. injection E as <- <- <-. split; [cbn; ring|].
    split; [exact Hp0|]. split.
    + intros j Hj. assert (j = 0%nat) as -> by lia. exact H0.
    + intros j Hj. lia.
  - rewrite seq_S, fold_left_app in E.
    destruct (fold_left (GenerateSampleStep c o t freq height) (seq 1 k) (s0, Dx c, prev0))
      as [[s1 x1] p1] eqn:E1.
    destruct (IH s1 x1 p1 eq_refl) as (Hx & Hp & Hv & Hd).
    cbn [fold_left] in E. unfold GenerateSampleStep in E. cbv beta iota zeta in E.
    injection E as <- <- <-.
    rewrite ?Nat.sub_0_r.
    assert (Ev : forall n, n = (SWEOuterLayerSamples + S k)%nat ->
                 (CurrentHeightField o n - SWEHeightFieldOffset) * SWEHeightFieldAmplification
                 + sin (x1 * WindGustRippleSpatialFrequency - t * freq) * height
                 = SampleClosedForm c o t freq height (S k)).
    { intros n ->. unfold SampleClosedForm. rewrite Hx. reflexivity. }
    rewrite Ev by reflexivity. split; [rewrite Hx, (S_INR (S k)); ring|]. split; [reflexivity|]. split.
    + intros j Hj. rewrite sd_value.
      destruct (Nat.eq_dec j (S k)) as [->|Hne].
      * apply sv_value_eq.
      * rewrite sv_value_neq by exact Hne. apply Hv. lia.
    + intros j Hj. destruct (Nat.eq_dec j k) as [->|Hne].
      * rewrite sd_delta_eq, Hp. reflexivity.
      * rewrite sd_delta_neq, sv_delta by exact Hne. apply Hd. lia.
Qed.

Lemma GenerateSamples_unfold c o samples w avg t :
  (1 <= SamplesCount c)%nat ->
  let V := SampleClosedForm c o t (WindRipplesTimeFrequency w) (0.7 * avg) in
  let s' := GenerateSamples c o samples w avg t in
  (forall j, (j < SamplesCount c)%nat -> SampleValue (s' j) = V j) /\
  SampleValue (s' (SamplesCount c)) = V (SamplesCount c - 1)%nat /\
  (forall j, (j + 1 < SamplesCount c)%nat ->
     SampleValuePlusOneMinusSampleValue (s' j) = V (S j) - V j) /\
  SampleValuePlusOneMinusSampleValue (s' (SamplesCount c - 1)%nat) = 0 /\
  SampleValuePlusOneMinusSampleValue (s' (SamplesCount c)) = 0.
Proof.
  intros Hn. cbv zeta. unfold GenerateSamples.
  set (freq := WindRipplesTimeFrequency w). set (height := 0.7 * avg).
  set (V := SampleClosedForm c o t freq height).
  set (prev0 := (CurrentHeightField o (SWEOuterLayerSamples + 0) - SWEHeightFieldOffset)
                  * SWEHeightFieldAmplification + sin (- t * freq) * height).
  assert (Hp0 : prev0 = V 0%nat).
  { unfold prev0, V, SampleClosedForm. cbn [INR].
    replace (0 * Dx c * WindGustRippleSpatialFrequency - t * freq) with (- t * freq) by ring.
    reflexivity. }
  destruct (fold_left (GenerateSampleStep c o t freq height) (seq 1 (SamplesCount c - 1))
              (set_sample_value samples 0 prev0, Dx c, prev0)) as [[s1 x] p] eqn:E.
  destruct (generate_loop c o t freq height _ prev0 (SamplesCount c - 1)
              ltac:(rewrite sv_value_eq; exact Hp0) Hp0 s1 x p E) as (_ & _ & Hv & Hd).
  set (n := SamplesCount c) in *.
  split; [|split; [|split; [|split]]].
  - intros j Hj. rewrite sd_value, sv_value_neq by lia. rewrite sd_value. apply Hv. lia.
  - rewrite sd_value, sv_value_eq, sd_value. apply Hv. lia.
  - intros j Hj. rewrite sd_delta_neq by lia. rewrite sv_delta, sd_delta_neq by lia.
    apply Hd. lia.
  - rewrite sd_delta_neq by lia. rewrite sv_delta. apply sd_delta_eq.
  - apply sd_delta_eq.
Qed.

(** Step 5 of the update computes, for each of the [SamplesCount] render
    samples, the closed form: the SWE height of its cell less the offset,
    times the amplification, plus [sin (j * Dx * 0.5 - t * freq)] times
    the ripple height; the extra sample repeats the last one. *)
Theorem GenerateSamples_values (c : OceanConstants) (o : OceanSurface)
    (samples : nat -> Sample) (w : WindInput) (avg t : R) :
  (1 <= SamplesCount c)%nat ->
  let V := SampleClosedForm c o t (WindRipplesTimeFrequency w) (0.7 * avg) in
  let s' := GenerateSamples c o samples w avg t in
  (forall j, (j < SamplesCount c)%nat -> SampleValue (s' j) = V j) /\
  SampleValue (s' (SamplesCount c)) = V (SamplesCount c - 1)%nat.
Proof.
  intros Hn. destruct (GenerateSamples_unfold c o samples w avg t Hn) as (H1 & H2 & _).
  split; assumption.
Qed.

(** Each render sample's delta leads exactly to the next sample:
    [SampleValue j + SampleValuePlusOneMinusSampleValue j = SampleValue (j + 1)]
    for every [j < SamplesCount], the last one (delta 0 toward the extra
    sample) included; the extra sample's delta is 0. *)
Theorem GenerateSamples_deltas (c : OceanConstants) (o : OceanSurface)
    (samples : nat -> Sample) (w : WindInput) (avg t : R) :
  (1 <= SamplesCount c)%nat ->
  let s' := GenerateSamples c o samples w avg t in
  (forall j, (j < SamplesCount c)%nat ->
     SampleValue (s' j) + SampleValuePlusOneMinusSampleValue (s' j) = SampleValue (s' (S j))) /\
  SampleValuePlusOneMinusSampleValue (s' (SamplesCount c)) = 0.
Proof.
  intros Hn. cbv zeta.
  destruct (GenerateSamples_unfold c o samples w avg t Hn) as (Hv & Hx & Hd & Hl & He).
  cbv zeta in Hv, Hx, Hd. split; [|exact He].
  intros j Hj. destruct (Nat.eq_dec (S j) (SamplesCount c)) as [Ej|Ej].
  - replace j with (SamplesCount c - 1)%nat by lia. rewrite Hl.
    replace (S (SamplesCount c - 1)) with (SamplesCount c) by lia. rewrite Hx.
    rewrite Hv by lia. ring.
  - rewrite Hd by lia. rewrite !Hv by lia. ring.
Qed.


(** A light breeze over an update at time 1, with arbitrary old samples. *)
Definition wind_example : WindInput :=
  {| CurrentWindSpeedLength := 3; MaxSpeedMagnitude := 4; BaseSpeedMagnitude := 2;
     WindSpeedBase := 2 |}.

Definition samples_example : nat -> Sample := fun _ => mkSample 0 0.

Lemma GenerateSamples_values_witness :
  (1 <= SamplesCount OceanProofs.ocean_example_constants)%nat /\
  let V := SampleClosedForm OceanProofs.ocean_example_constants NewOceanSurface 1
             (WindRipplesTimeFrequency wind_example) (0.7 * (1 / 2)) in
  let s' := GenerateSamples OceanProofs.ocean_example_constants NewOceanSurface
              samples_example wind_example (1 / 2) 1 in
  (forall j, (j < SamplesCount OceanProofs.ocean_example_constants)%nat ->
     SampleValue (s' j) = V j) /\
  SampleValue (s' (SamplesCount OceanProofs.ocean_example_constants))
    = V (SamplesCount OceanProofs.ocean_example_constants - 1)%nat.
Proof.
  assert (H : (1 <= SamplesCount OceanProofs.ocean_example_constants)%nat) by (cbn; lia).
  split; [exact H|].
  apply (GenerateSamples_values OceanProofs.ocean_example_constants NewOceanSurface
           samples_example wind_example (1 / 2) 1 H).
Defined.

Lemma GenerateSamples_deltas_witness :
  (1 <= SamplesCount OceanProofs.ocean_example_constants)%nat /\
  let s' := GenerateSamples OceanProofs.ocean_example_constants NewOceanSurface
              samples_example wind_example (1 / 2) 1 in
  (forall j, (j < SamplesCount OceanProofs.ocean_example_constants)%nat ->
     SampleValue (s' j) + SampleValuePlusOneMinusSampleValue (s' j) = SampleValue (s' (S j))) /\
  SampleValuePlusOneMinusSampleValue (s' (SamplesCount OceanProofs.ocean_example_constants)) = 0.
Proof.
  assert (H : (1 <= SamplesCount OceanProofs.ocean_example_constants)%nat) by (cbn; lia).
  split; [exact H|].
  apply (GenerateSamples_deltas OceanProofs.ocean_example_constants NewOceanSurface
           samples_example wind_example (1 / 2) 1 H).
Defined.

End OceanSamplesProofs.

(* ------------------------------------------------------------------ *)
(** ** Combustion: the burning list order and what the passes touch *)

Module CombustionOrderProofs.
Import Combustion CombustionProofs.

Lemma comb_fold_inv {A B} (P : A -> Prop) (f : A -> B -> A) :
  (forall a b, P a -> P (f a b)) -> forall l a, P a -> P (fold_left f l a).
Proof.
  intros Hf l. induction l as [|b l IH]; intros a Ha; [exact Ha|].
  cbn [fold_left]. apply IH, Hf, Ha.
Qed.

Lemma InsertByPlaneId_HdRel (planeId : nat -> nat) p a l :
  HdRel (fun x y => (planeId x <= planeId y)%nat) a l -> (planeId a <= planeId p)%nat ->
  HdRel (fun x y => (planeId x <= planeId y)%nat) a (InsertByPlaneId planeId p l).
Proof.
  intros Hh Ha. destruct l as [|q l]; cbn [InsertByPlaneId].
  - constructor. exact Ha.
  - destruct (planeId q <? planeId p)%nat; constructor; [|exact Ha].
    inversion Hh. assumption.
Qed.

(** The [lower_bound] insertion keeps a list sorted by plane ID sorted. *)
Lemma InsertByPlaneId_sorted (planeId : nat -> nat) p l :
  Sorted (fun x y => (planeId x <= planeId y)%nat) l ->
  Sorted (fun x y => (planeId x <= planeId y)%nat) (InsertByPlaneId planeId p l).
Proof.
  induction l as [|q l IH]; intros Hs; cbn [InsertByPlaneId].
  - repeat constructor.
  - inversion Hs as [|? ? Hl Hh]; subst.
    destruct (Nat.ltb_spec (planeId q) (planeId p)) as [Hlt|Hge].
    + constructor; [apply IH, Hl|]. apply InsertByPlaneId_HdRel; [exact Hh|lia].
    + constructor; [exact Hs|]. constructor. lia.
Qed.

Lemma EraseFirst_incl p l q : In q (EraseFirst p l) -> In q l.
Proof.
  induction l as [|a l IH]; cbn; [auto|].
  destruct (a =? p)%nat; [auto|]. intros [->|H]; [left; reflexivity|right; apply IH, H].
Qed.

(** Erasing an entry keeps a list sorted by plane ID sorted. *)
Lemma EraseFirst_sorted (planeId : nat -> nat) p l :
  Sorted (fun x y => (planeId x <= planeId y)%nat) l ->
  Sorted (fun x y => (planeId x <= planeId y)%nat) (EraseFirst p l).
Proof.
  intros Hs.
  assert (Htr : Transitive (fun x y => (planeId x <= planeId y)%nat))
    by (intros x y z; lia).
  apply StronglySorted_Sorted.
  apply Sorted_StronglySorted in Hs; [|exact Htr].
  induction l as [|a l IH]; cbn [EraseFirst]; [constructor|].
  inversion Hs as [|? ? Hl Hf]; subst.
  destruct (a =? p)%nat; [exact Hl|].
  constructor; [apply IH, Hl|].
  apply Forall_forall. intros x Hx. rewrite Forall_forall in Hf.
  apply Hf, (EraseFirst_incl p), Hx.
Qed.

Lemma LowFrequencyVisit_planeId e s c p :
  PlaneIdBuffer (fst (LowFrequencyVisit e (s, c) p)) = PlaneIdBuffer s.
Proof.
  unfold LowFrequencyVisit. cbv beta iota zeta.
  destruct (State (CombustionStateBuffer s p));
    try (destruct (IsIgnitionCandidate e s p)); try (destruct (_ || _));
    cbn [fst]; try reflexivity.
  all: unfold DecayPointAndNeighbors; fold_frame_tac.
Qed.

Lemma LowFrequencyScan_planeId e offset stride s :
  PlaneIdBuffer (fst (LowFrequencyScan e offset stride s)) = PlaneIdBuffer s.
Proof.
  unfold LowFrequencyScan.
  apply (comb_fold_inv (fun acc => PlaneIdBuffer (fst acc) = PlaneIdBuffer s));
    [|reflexivity].
  intros [s1 c1] p H. rewrite LowFrequencyVisit_planeId. exact H.
Qed.

Lemma IgniteAll_sorted e l : forall i s,
  PlaneIdBuffer (IgniteAll e i l s) = PlaneIdBuffer s /\
  (SortedByPlaneId s -> SortedByPlaneId (IgniteAll e i l s)).
Proof.
  induction l as [|[p key] l IH]; intros i s; cbn [IgniteAll]; [auto|].
  destruct (IH (S i) (Ignite e i p key s)) as [H1 H2].
  assert (Hp : PlaneIdBuffer (Ignite e i p key s) = PlaneIdBuffer s) by reflexivity.
  split; [congruence|]. intros Hs. apply H2.
  unfold SortedByPlaneId in *. rewrite Hp, (proj1 (Ignite_spec e i p key s)).
  apply InsertByPlaneId_sorted, Hs.
Qed.

Lemma HighFrequencyVisit_burning e s p :
  PlaneIdBuffer (HighFrequencyVisit e s p) = PlaneIdBuffer s /\
  (BurningPoints (HighFrequencyVisit e s p) = BurningPoints s \/
   BurningPoints (HighFrequencyVisit e s p) = EraseFirst p (BurningPoints s)).
Proof.
  unfold HighFrequencyVisit.
  destruct (HighFrequencyCheck_spec e s p) as (C1 & _ & _ & _).
  assert (Hc : PlaneIdBuffer (HighFrequencyCheck e s p) = PlaneIdBuffer s).
  { unfold HighFrequencyCheck. destruct (_ && _); [reflexivity|].
    destruct (State (CombustionStateBuffer s p)); try reflexivity.
    unfold GenerateHeat. fold_frame_tac. }
  set (s1 := HighFrequencyCheck e s p) in *.
  assert (Hd : PlaneIdBuffer (HighFrequencyDevelop s1 p) = PlaneIdBuffer s1).
  { unfold HighFrequencyDevelop. cbv beta zeta.
    destruct (State (CombustionStateBuffer s1 p));
      try (destruct (Qltb _ _)); try (destruct (Qle_bool _ _)); reflexivity. }
  split; [congruence|].
  destruct (HighFrequencyDevelop_spec s1 p) as (_ & _ & [[D _]|[D _]]);
    rewrite D, C1; auto.
Qed.

(** The low-frequency pass keeps the burning list sorted by plane ID:
    every ignition inserts at the [lower_bound] of its plane ID, and the
    pass changes no plane ID. *)
Theorem UpdateCombustionLowFrequency_sorted (e : Env) (MaxBurningParticles choice : nat)
    (nthElement : nat -> list Candidate -> list Candidate) (offset stride : nat) (s : Points) :
  SortedByPlaneId s ->
  SortedByPlaneId
    (UpdateCombustionLowFrequency e MaxBurningParticles choice nthElement offset stride s).
Proof.
  intros Hs. rewrite UpdateCombustionLowFrequency_unfold.
  apply IgniteAll_sorted. unfold SortedByPlaneId.
  rewrite LowFrequencyScan_planeId.
  rewrite (proj1 (LowFrequencyScan_spec e offset stride s)). exact Hs.
Qed.

(** The high-frequency pass keeps the burning list sorted by plane ID,
    whatever points its loop reads: its iterations only erase entries. *)
Theorem HighFrequencyIterations_sorted (e : Env) (visited : list nat) (s : Points) :
  SortedByPlaneId s -> SortedByPlaneId (HighFrequencyIterations e visited s).
Proof.
  unfold HighFrequencyIterations. apply comb_fold_inv.
  intros s1 p Hs1. unfold SortedByPlaneId in *.
  destruct (HighFrequencyVisit_burning e s1 p) as [Hp [Hb|Hb]];
    rewrite Hp, Hb; [exact Hs1|]. apply EraseFirst_sorted, Hs1.
Qed.

(** The high-frequency pass, whatever points its loop reads, never adds a
    point to the burning list, nor lengthens it. *)
Theorem HighFrequencyIterations_shrinks (e : Env) (visited : list nat) (s : Points) :
  (forall q, In q (BurningPoints (HighFrequencyIterations e visited s)) ->
             In q (BurningPoints s)) /\
  (length (BurningPoints (HighFrequencyIterations e visited s))
   <= length (BurningPoints s))%nat.
Proof.
  unfold HighFrequencyIterations.
  apply (comb_fold_inv (fun s1 => (forall q, In q (BurningPoints s1) -> In q (BurningPoints s)) /\
                                  (length (BurningPoints s1) <= length (BurningPoints s))%nat));
    [|split; auto].
  intros s1 p [Hin Hlen].
  destruct (HighFrequencyVisit_burning e s1 p) as [_ [Hb|Hb]]; rewrite Hb; [auto|].
  split.
  - intros q Hq. apply Hin, (EraseFirst_incl p), Hq.
  - pose proof (EraseFirst_length p (BurningPoints s1)). lia.
Qed.

(** An iteration on a point that does not burn does nothing. *)
Lemma HighFrequencyVisit_NotBurning e s p :
  State (CombustionStateBuffer s p) = NotBurning -> HighFrequencyVisit e s p = s.
Proof.
  intros H. unfold HighFrequencyVisit, HighFrequencyCheck. rewrite H. cbn [IsSmotherable andb].
  unfold HighFrequencyDevelop. rewrite H. reflexivity.
Qed.

Lemma HighFrequencyVisit_other e s p q :
  q <> p -> CombustionStateBuffer (HighFrequencyVisit e s p) q = CombustionStateBuffer s q.
Proof.
  intros Hqp. unfold HighFrequencyVisit.
  rewrite (proj1 (proj2 (HighFrequencyDevelop_spec _ p)) q Hqp).
  apply (proj1 (proj2 (proj2 (HighFrequencyCheck_spec e s p))) q Hqp).
Qed.

(** When every burning point is on the burning list (as in every
    reachable state), the high-frequency pass, whatever points its loop
    reads, changes the combustion state of no point outside the burning
    list it starts from. *)
Theorem HighFrequencyIterations_frame (e : Env) (visited : list nat) (s : Points) (q : nat) :
  (forall p, State (CombustionStateBuffer s p) <> NotBurning -> In p (BurningPoints s)) ->
  ~ In q (BurningPoints s) ->
  CombustionStateBuffer (HighFrequencyIterations e visited s) q = CombustionStateBuffer s q.
Proof.
  unfold HighFrequencyIterations. revert s.
  induction visited as [|p l IH]; intros s Hinv Hq; [reflexivity|].
  cbn [fold_left].
  assert (Hnb : State (CombustionStateBuffer s q) = NotBurning).
  { destruct (State (CombustionStateBuffer s q)) eqn:E; [reflexivity|..];
      exfalso; apply Hq, Hinv; rewrite E; discriminate. }
  assert (Hv : CombustionStateBuffer (HighFrequencyVisit e s p) q = CombustionStateBuffer s q).
  { destruct (Nat.eq_dec q p) as [->|Hqp].
    - rewrite HighFrequencyVisit_NotBurning by exact Hnb. reflexivity.
    - apply HighFrequencyVisit_other, Hqp. }
  rewrite <- Hv. apply IH.
  - apply (proj1 (HighFrequencyVisit_inv e (length (BurningPoints s)) s p
                    (conj Hinv (le_n _)))).
  - destruct (HighFrequencyVisit_burning e s p) as [_ [Hb|Hb]]; rewrite Hb; [exact Hq|].
    intros H. apply Hq, (EraseFirst_incl p), H.
Qed.

(** One candidate-loop iteration changes only the visited point's
    combustion state, only from [Burning] to [Extinguishing_Consumed], and
    adds only that point to the candidates. *)
Lemma LowFrequencyVisit_states e s c p :
  let r := LowFrequencyVisit e (s, c) p in
  (forall q, q <> p -> CombustionStateBuffer (fst r) q = CombustionStateBuffer s q) /\
  (State (CombustionStateBuffer (fst r) p) = State (CombustionStateBuffer s p) \/
   (State (CombustionStateBuffer s p) = Burning /\
    State (CombustionStateBuffer (fst r) p) = Extinguishing_Consumed)) /\
  (forall x, In x (snd r) -> In x c \/ fst x = p).
Proof.
  cbv zeta.
  assert (Hc : forall x, In x (snd (LowFrequencyVisit e (s, c) p)) -> In x c \/ fst x = p).
  { destruct (LowFrequencyVisit_spec e s c p) as (_ & _ & _ & _ & [->|[-> _]]);
      intros x Hx; [left; exact Hx|].
    apply in_app_or in Hx as [Hx|[<-|[]]]; [left; exact Hx|right; reflexivity]. }
  pose proof (proj1 (DecayPointAndNeighbors_frame e s p)) as Hd.
  split; [|split; [|exact Hc]]; clear Hc;
    unfold LowFrequencyVisit; cbv beta iota zeta;
    destruct (State (CombustionStateBuffer s p)) eqn:Hp;
    try (destruct (IsIgnitionCandidate e s p)); try (destruct (_ || _));
    cbn [fst set_combustion_state CombustionStateBuffer]; rewrite ?Hd, ?Hp.
  all: first [ intros q Hq; rewrite ?upd_neq by exact Hq; reflexivity
             | left; reflexivity
             | rewrite upd_eq; right; split; reflexivity ].
Qed.

Definition lf_step_rel (st st' : StateType) : Prop :=
  st' = st \/ (st = Burning /\ st' = Extinguishing_Consumed).

Lemma LowFrequencyVisit_fold_states e l : forall s c,
  let r := fold_left (LowFrequencyVisit e) l (s, c) in
  (forall q, ~ In q l -> CombustionStateBuffer (fst r) q = CombustionStateBuffer s q) /\
  (forall q, lf_step_rel (State (CombustionStateBuffer s q))
                         (State (CombustionStateBuffer (fst r) q))) /\
  (forall x, In x (snd r) -> In x c \/ In (fst x) l).
Proof.
  induction l as [|p l IH]; intros s c; cbv zeta; cbn [fold_left].
  - cbn [fst snd]. split; [auto|split; [intros q; left; reflexivity|auto]].
  - pose proof (LowFrequencyVisit_states e s c p) as Hv. cbv zeta in Hv.
    destruct (LowFrequencyVisit e (s, c) p) as [s1 c1] eqn:E.
    cbn [fst snd] in Hv. destruct Hv as (V1 & V2 & V3).
    destruct (IH s1 c1) as (I1 & I2 & I3). cbv zeta in I1, I2, I3.
    split; [|split].
    + intros q Hq. rewrite I1 by (intros H; apply Hq; right; exact H).
      apply V1. intros ->. apply Hq. left; reflexivity.
    + intros q.
      assert (Hq1 : lf_step_rel (State (CombustionStateBuffer s q))
                                (State (CombustionStateBuffer s1 q))).
      { destruct (Nat.eq_dec q p) as [->|Hqp]; [exact V2|].
        rewrite V1 by exact Hqp. left; reflexivity. }
      destruct Hq1 as [E1|[E1 E2]], (I2 q) as [F1|[F1 F2]]; unfold lf_step_rel.
      * left. congruence.
      * rewrite <- E1. right. split; assumption.
      * right. split; congruence.
      * congruence.
    + intros x Hx. destruct (I3 x Hx) as [Hc|Hl].
      * destruct (V3 x Hc) as [H|H]; [left; exact H|right; left; symmetry; exact H].
      * right; right; exact Hl.
Qed.

Lemma ignited_in_candidates (nthElement : nat -> list Candidate -> list Candidate) K cands x :
  (forall n l, Permutation l (nthElement n l)) ->
  In x (firstn K (nthElement K cands)) -> In x cands.
Proof.
  intros Hperm Hx. apply (Permutation_in _ (Permutation_sym (Hperm K cands))).
  rewrite <- (firstn_skipn K (nthElement K cands)). apply in_or_app. left; exact Hx.
Qed.

(** The low-frequency pass changes the combustion state of no point it
    does not visit ([pointOffset], [pointOffset + pointStride], ... below
    the ship point count), given that [std::nth_element] permutes. *)
Theorem UpdateCombustionLowFrequency_frame (e : Env) (MaxBurningParticles choice : nat)
    (nthElement : nat -> list Candidate -> list Candidate) (offset stride : nat)
    (s : Points) (q : nat) :
  (forall n l, Permutation l (nthElement n l)) ->
  ~ In q (PointIndices offset stride (ShipPointCount s)) ->
  CombustionStateBuffer
    (UpdateCombustionLowFrequency e MaxBurningParticles choice nthElement offset stride s) q
  = CombustionStateBuffer s q.
Proof.
  intros Hperm Hq. rewrite UpdateCombustionLowFrequency_unfold.
  destruct (LowFrequencyVisit_fold_states e (PointIndices offset stride (ShipPointCount s)) s [])
    as (F1 & _ & F3).
  fold (LowFrequencyScan e offset stride s) in F1, F3.
  set (scan := LowFrequencyScan e offset stride s) in *.
  set (K := MaxIgnitions MaxBurningParticles choice (fst scan) (snd scan)).
  destruct (IgniteAll_spec e (firstn K (nthElement K (snd scan))) 0 (fst scan))
    as (_ & _ & _ & I4 & _).
  rewrite I4; [apply F1, Hq|].
  intros Hin. apply in_map_iff in Hin as [x [Hxq Hx]].
  apply (ignited_in_candidates nthElement K (snd scan) x Hperm) in Hx.
  destruct (F3 x Hx) as [[]|Hl]. apply Hq. rewrite <- Hxq. exact Hl.
Qed.

(** The combustion state changes the low-frequency pass makes: a point
    stays as it was, goes from [NotBurning] to [Developing_1] (ignition),
    or from [Burning] to [Extinguishing_Consumed]; no other transition. *)
Theorem UpdateCombustionLowFrequency_transitions (e : Env) (MaxBurningParticles choice : nat)
    (nthElement : nat -> list Candidate -> list Candidate) (offset stride : nat)
    (s : Points) (q : nat) :
  (forall n l, Permutation l (nthElement n l)) ->
  let st := State (CombustionStateBuffer s q) in
  let st' := State (CombustionStateBuffer
    (UpdateCombustionLowFrequency e MaxBurningParticles choice nthElement offset stride s) q) in
  st' = st \/ (st = NotBurning /\ st' = Developing_1) \/
  (st = Burning /\ st' = Extinguishing_Consumed).
Proof.
  intros Hperm. cbv zeta. rewrite UpdateCombustionLowFrequency_unfold.
  destruct (LowFrequencyVisit_fold_states e (PointIndices offset stride (ShipPointCount s)) s [])
    as (_ & F2 & _).
  fold (LowFrequencyScan e offset stride s) in F2.
  destruct (LowFrequencyScan_spec e offset stride s) as (_ & _ & S3 & _ & S5 & _).
  set (scan := LowFrequencyScan e offset stride s) in *.
  set (K := MaxIgnitions MaxBurningParticles choice (fst scan) (snd scan)).
  destruct (IgniteAll_spec e (firstn K (nthElement K (snd scan))) 0 (fst scan))
    as (_ & _ & _ & I4 & I5).
  destruct (in_dec Nat.eq_dec q (map fst (firstn K (nthElement K (snd scan))))) as [Hin|Hnin].
  - right; left. split; [|apply (I5 q Hin)].
    apply in_map_iff in Hin as [x [<- Hx]].
    apply S5, (ignited_in_candidates nthElement K (snd scan) x Hperm), Hx.
  - rewrite I4 by exact Hnin.
    destruct (F2 q) as [H|[H1 H2]]; [left; exact H|right; right; split; assumption].
Qed.

Lemma points_example_sorted : SortedByPlaneId points_example.
Proof. constructor. Qed.

Lemma nth_element_example_perm : forall n l, Permutation l (nth_element_example n l).
Proof. intros n l. apply Permutation_refl. Qed.

(** Three hot points with plane IDs 1, 0 and 2: points 1 and 2 burn and
    are on the burning list, in plane order; point 0 does not burn yet, nor
    does any other point. *)
Definition points_burning_example : Points :=
  mkPoints 3
    (fun p => match p with
              | 1%nat | 2%nat => mkCombustionState Burning 1 1 0
              | _ => DefaultCombustionState end)
    (fun _ => 1000) (fun _ => 0) (fun _ => 1) (fun _ => 400) (fun _ => 1)
    (fun p => match p with 0%nat => 1%nat | 1%nat => 0%nat | _ => 2%nat end)
    (fun _ => []) [1; 2]%nat.

(** The same points once point 0 has ignited and is now being smothered
    out: it sits between points 1 and 2 on the burning list, with a flame
    development the next iteration brings below the extinction threshold. *)
Definition points_extinguishing_example : Points :=
  mkPoints 3
    (fun p => match p with
              | 0%nat => mkCombustionState Extinguishing_Smothered (1#100) 1 0
              | 1%nat | 2%nat => mkCombustionState Burning 1 1 0
              | _ => DefaultCombustionState end)
    (fun _ => 1000) (fun _ => 0) (fun _ => 1) (fun _ => 400) (fun _ => 1)
    (fun p => match p with 0%nat => 1%nat | 1%nat => 0%nat | _ => 2%nat end)
    (fun _ => []) [1; 0; 2]%nat.

Lemma points_burning_example_sorted : SortedByPlaneId points_burning_example.
Proof. unfold SortedByPlaneId. cbn. repeat constructor. Qed.

Lemma points_extinguishing_example_sorted : SortedByPlaneId points_extinguishing_example.
Proof. unfold SortedByPlaneId. cbn. repeat constructor. Qed.

Lemma UpdateCombustionLowFrequency_sorted_witness :
  SortedByPlaneId points_burning_example /\
  BurningPoints (UpdateCombustionLowFrequency env_example 3 0 nth_element_example 0 1
                   points_burning_example) = [1; 0; 2]%nat /\
  SortedByPlaneId (UpdateCombustionLowFrequency env_example 3 0 nth_element_example 0 1
                     points_burning_example).
Proof.
  split; [exact points_burning_example_sorted|]. split; [vm_compute; reflexivity|].
  apply (UpdateCombustionLowFrequency_sorted env_example 3 0 nth_element_example 0 1
           points_burning_example points_burning_example_sorted).
Defined.

(** The loop over [[1; 0; 2]] erases point 0 at its second iteration; in
    practice it then skips the 2 moved into the erased slot and reads the
    stale last slot, which still holds 2: it visits 1, 0 and 2. *)
Lemma HighFrequencyIterations_sorted_witness :
  SortedByPlaneId points_extinguishing_example /\
  BurningPoints (HighFrequencyIterations env_example [1; 0; 2]%nat points_extinguishing_example)
  = [1; 2]%nat /\
  SortedByPlaneId (HighFrequencyIterations env_example [1; 0; 2]%nat points_extinguishing_example).
Proof.
  split; [exact points_extinguishing_example_sorted|]. split; [vm_compute; reflexivity|].
  apply (HighFrequencyIterations_sorted env_example [1; 0; 2]%nat points_extinguishing_example
           points_extinguishing_example_sorted).
Defined.

Lemma HighFrequencyIterations_frame_witness :
  (forall p, State (CombustionStateBuffer points_extinguishing_example p) <> NotBurning ->
             In p (BurningPoints points_extinguishing_example)) /\
  ~ In 3%nat (BurningPoints points_extinguishing_example) /\
  CombustionStateBuffer
    (HighFrequencyIterations env_example [1; 0; 2; 3]%nat points_extinguishing_example) 3%nat
  = CombustionStateBuffer points_extinguishing_example 3%nat.
Proof.
  assert (Hinv : forall p, State (CombustionStateBuffer points_extinguishing_example p) <> NotBurning ->
                           In p (BurningPoints points_extinguishing_example)).
  { intros p Hp. destruct p as [|[|[|p]]]; cbn; auto. }
  assert (Hq : ~ In 3%nat (BurningPoints points_extinguishing_example))
    by (cbn; intros [H|[H|[H|[]]]]; discriminate H).
  split; [exact Hinv|]. split; [exact Hq|].
  apply (HighFrequencyIterations_frame env_example [1; 0; 2; 3]%nat points_extinguishing_example 3
           Hinv Hq).
Defined.

Lemma UpdateCombustionLowFrequency_frame_witness :
  (forall n l, Permutation l (nth_element_example n l)) /\
  ~ In 1%nat (PointIndices 0 2 (ShipPointCount points_example)) /\
  CombustionStateBuffer
    (UpdateCombustionLowFrequency env_example 1 0 nth_element_example 0 2 points_example) 1%nat
  = CombustionStateBuffer points_example 1%nat.
Proof.
  assert (H : ~ In 1%nat (PointIndices 0 2 (ShipPointCount points_example))).
  { cbn. intros [H|[]]. discriminate H. }
  split; [exact nth_element_example_perm|]. split; [exact H|].
  apply (UpdateCombustionLowFrequency_frame env_example 1 0 nth_element_example 0 2
           points_example 1 nth_element_example_perm H).
Defined.

Lemma UpdateCombustionLowFrequency_transitions_witness :
  (forall n l, Permutation l (nth_element_example n l)) /\
  let st := State (CombustionStateBuffer points_example 0%nat) in
  let st' := State (CombustionStateBuffer
    (UpdateCombustionLowFrequency env_example 1 0 nth_element_example 0 1 points_example) 0%nat) in
  st' = st \/ (st = NotBurning /\ st' = Developing_1) \/
  (st = Burning /\ st' = Extinguishing_Consumed).
Proof.
  split; [exact nth_element_example_perm|].
  apply (UpdateCombustionLowFrequency_transitions env_example 1 0 nth_element_example 0 1
           points_example 0 nth_element_example_perm).
Defined.

End CombustionOrderProofs.

(* ------------------------------------------------------------------ *)
(** ** Camera and zoom smoothing *)

Module SmoothingProofs.
Import Smoothing.
Local Open Scope R_scope.

Lemma smooth_dv_sign (startingValue targetValue x : R) :
  startingValue <= targetValue ->
  0 <= (targetValue - startingValue) / (PI / 2) * sin x * sin x.
Proof.
  intros H. pose proof PI_RGT_0 as HPI.
  rewrite Rmult_assoc. apply Rmult_le_pos.
  - unfold Rdiv. apply Rmult_le_pos; [Lra.lra|].
    left. apply Rinv_0_lt_compat. Lra.lra.
  - apply Rle_0_sqr.
Qed.

(** [SmoothToTarget] never overshoots: while the value is strictly short
    of the target, on the side of the starting value, the new value lies
    between the current value and the target (it snaps to the target when
    the step would cross it). *)
Theorem SmoothToTarget_no_overshoot (SmoothMillis currentValue startingValue targetValue : R)
    (elapsedMillis : nat) :
  let v := SmoothToTarget SmoothMillis currentValue startingValue targetValue elapsedMillis in
  (startingValue <= targetValue -> currentValue < targetValue ->
     currentValue <= v <= targetValue) /\
  (targetValue <= startingValue -> targetValue < currentValue ->
     targetValue <= v <= currentValue).
Proof.
  cbv zeta. unfold SmoothToTarget. cbv zeta.
  set (x := INR elapsedMillis * PI / SmoothMillis).
  set (dv := (targetValue - startingValue) / (PI / 2) * sin x * sin x).
  split; intros Hs Hc.
  - assert (Hdv : 0 <= dv) by apply smooth_dv_sign, Hs.
    destruct (Rlt_dec _ 0) as [_|Hn]; [Lra.lra|].
    apply Rnot_lt_le in Hn.
    assert (targetValue - (currentValue + dv) >= 0).
    { destruct (Rlt_le_dec (targetValue - (currentValue + dv)) 0) as [Hl|Hl]; [|Lra.lra].
      exfalso. assert (0 < targetValue - currentValue) by Lra.lra.
      assert ((targetValue - currentValue) * (targetValue - (currentValue + dv)) < 0)
        by (apply Rmult_pos_neg; assumption). Lra.lra. }
    Lra.lra.
  - assert (Hdv : 0 <= - dv).
    { unfold dv. replace (- ((targetValue - startingValue) / (PI / 2) * sin x * sin x))
        with ((startingValue - targetValue) / (PI / 2) * sin x * sin x)
        by (field; pose proof PI_RGT_0; Lra.lra).
      apply smooth_dv_sign, Hs. }
    destruct (Rlt_dec _ 0) as [_|Hn]; [Lra.lra|].
    apply Rnot_lt_le in Hn.
    assert (targetValue - (currentValue + dv) <= 0).
    { destruct (Rle_lt_dec (targetValue - (currentValue + dv)) 0) as [Hl|Hl]; [exact Hl|].
      exfalso. assert (targetValue - currentValue < 0) by Lra.lra.
      assert ((targetValue - currentValue) * (targetValue - (currentValue + dv)) < 0)
        by (apply Rmult_neg_pos; assumption). Lra.lra. }
    Lra.lra.
Qed.

(** The overshoot check compares with the target strictly: a value sitting
    exactly on its target is still moved, off the target, by the step of
    the starting-to-target amplitude whenever that step is not 0. *)
Theorem SmoothToTarget_at_target_moves (SmoothMillis startingValue targetValue : R)
    (elapsedMillis : nat) :
  startingValue <> targetValue -> sin (INR elapsedMillis * PI / SmoothMillis) <> 0 ->
  SmoothToTarget SmoothMillis targetValue startingValue targetValue elapsedMillis
  = targetValue + (targetValue - startingValue) / (PI / 2)
                  * sin (INR elapsedMillis * PI / SmoothMillis)
                  * sin (INR elapsedMillis * PI / SmoothMillis) /\
  SmoothToTarget SmoothMillis targetValue startingValue targetValue elapsedMillis
  <> targetValue.
Proof.
  intros Hst Hsin. pose proof PI_RGT_0 as HPI.
  unfold SmoothToTarget. cbv zeta.
  set (x := INR elapsedMillis * PI / SmoothMillis) in *.
  rewrite Rminus_diag, Rmult_0_l.
  destruct (Rlt_dec 0 0) as [Hl|_]; [Lra.lra|].
  split; [reflexivity|].
  intros H.
  assert (Hz : (targetValue - startingValue) / (PI / 2) * sin x * sin x = 0) by Lra.lra.
  apply Rmult_integral in Hz as [Hz|Hz]; [|exact (Hsin Hz)].
  apply Rmult_integral in Hz as [Hz|Hz]; [|exact (Hsin Hz)].
  unfold Rdiv in Hz. apply Rmult_integral in Hz as [Hz|Hz]; [apply Hst; Lra.lra|].
  apply (Rinv_neq_0_compat (PI / 2)); [Lra.lra|exact Hz].
Qed.

Lemma SmoothToTarget_no_overshoot_witness :
  0 <= 1 /\ 0 < 1 /\ 0 <= SmoothToTarget 1000 0 0 1 250 <= 1.
Proof.
  assert (H1 : 0 <= 1) by Lra.lra. assert (H2 : 0 < 1) by Lra.lra.
  split; [exact H1|]. split; [exact H2|].
  apply (proj1 (SmoothToTarget_no_overshoot 1000 0 0 1 250) H1 H2).
Defined.

Lemma SmoothToTarget_at_target_moves_witness :
  0 <> 1 /\ sin (INR 1 * PI / 2) <> 0 /\
  SmoothToTarget 2 1 0 1 1
  = 1 + (1 - 0) / (PI / 2) * sin (INR 1 * PI / 2) * sin (INR 1 * PI / 2) /\
  SmoothToTarget 2 1 0 1 1 <> 1.
Proof.
  assert (H1 : 0 <> 1) by Lra.lra.
  assert (H2 : sin (INR 1 * PI / 2) <> 0).
  { replace (INR 1 * PI / 2) with (PI / 2) by (cbn; Lra.lra). rewrite sin_PI2. Lra.lra. }
  split; [exact H1|]. split; [exact H2|].
  apply (SmoothToTarget_at_target_moves 2 0 1 1 H1 H2).
Defined.

End SmoothingProofs.
